(** * Sprite-sheet extraction: a shallow embedding of [spriteutil.py]

    The development follows the Python module function by function:
    [find_most_common_color], the [Sprite] constructor, the two labelling
    passes ([check_neighborhood], [find_label], [update_label],
    [create_labelled_dict]), [create_label_map] and [find_sprites].

    Python values are modelled as follows.
    - integers (labels, coordinates, counts) are [Z];
    - a [set] of labels is a [gset Z];
    - a [dict] is an association list in insertion order, which is the order
      Python iterates it in;
    - an exception is a value of [exn], and a function that can raise returns
      a [result];
    - the set objects stored in [equivalence_list] are shared with
      [equivalence_dict]; the list is therefore kept as a store and the
      dictionary holds positions in it.

    The [print] of [find_sprites] and [main] are left out.  Of
    [create_sprite_labels_image] the model keeps the exceptions raised before
    Pillow is called, the array of bytes it paints and the lines it asks
    Pillow to draw; the random colours are an argument. *)

From stdpp Require Import gmap list strings sorting.

Local Open Scope Z_scope.

(** ** Exceptions and results *)

Inductive exn : Type :=
  | KeyError (key : Z)
  | ValueError (msg : string)
  | TypeError (msg : string)
  | AttributeError (msg : string)
  | OtherError (name msg : string).

Inductive result (A : Type) : Type :=
  | Ok (a : A)
  | Raise (e : exn).

Arguments Ok {A} a.
Arguments Raise {A} e.

Definition bind {A B : Type} (r : result A) (k : A → result B) : result B :=
  match r with
  | Ok a => k a
  | Raise e => Raise e
  end.

Global Instance result_bind : MBind result := fun A B k r => bind r k.

(** [for x in xs: st = body(st, x)], stopping at the first exception. *)
Fixpoint for_each {A S : Type} (body : S → A → result S) (xs : list A) (st : S)
  : result S :=
  match xs with
  | [] => Ok st
  | x :: xs' => st' ← body st x; for_each body xs' st'
  end.

(** ** Built-ins: [min], [max], [range] *)

(** [max(l, key=key)]: the first element whose key is maximal; [None] stands
    for the [ValueError] on an empty sequence. *)
Definition py_max {A : Type} (key : A → Z) (l : list A) : option A :=
  match l with
  | [] => None
  | x :: l' =>
      Some (foldl (fun best it => if key best <? key it then it else best) x l')
  end.

(** [min(l, key=key)]: the first element whose key is minimal. *)
Definition py_min {A : Type} (key : A → Z) (l : list A) : option A :=
  match l with
  | [] => None
  | x :: l' =>
      Some (foldl (fun best it => if key it <? key best then it else best) x l')
  end.

(** [min(s)] for a set of integers. *)
Definition set_min (s : gset Z) : option Z := py_min id (elements s).

(** [range(n)] as integers. *)
Definition range (n : nat) : list Z := Z.of_nat <$> seq 0 n.

(** ** Dictionaries in insertion order *)

Section dict.
Context {V : Type}.

Fixpoint dict_get (d : list (Z * V)) (k : Z) : option V :=
  match d with
  | [] => None
  | (k', v) :: d' => if decide (k' = k) then Some v else dict_get d' k
  end.

(** [d[k] = v]: an existing key keeps its position, a new one goes last. *)
Fixpoint dict_set (d : list (Z * V)) (k : Z) (v : V) : list (Z * V) :=
  match d with
  | [] => [(k, v)]
  | (k', v') :: d' =>
      if decide (k' = k) then (k, v) :: d' else (k', v') :: dict_set d' k v
  end.

(** [del d[k]] *)
Fixpoint dict_del (d : list (Z * V)) (k : Z) : list (Z * V) :=
  match d with
  | [] => []
  | (k', v') :: d' =>
      if decide (k' = k) then d' else (k', v') :: dict_del d' k
  end.

Definition dict_keys (d : list (Z * V)) : list Z := fst <$> d.
End dict.

(** ** WP2: the [Sprite] class *)

Record Sprite : Type := mkSprite {
  label : Z;
  top_left : Z * Z;
  bottom_right : Z * Z;
  width : Z;
  height : Z
}.

(** [Sprite.__init__(label, x1, y1, x2, y2)] on integer arguments. *)
Definition Sprite_init (label x1 y1 x2 y2 : Z) : result Sprite :=
  if (0 <=? label) && (0 <=? x1) && (0 <=? y1) && (0 <=? x2) && (0 <=? y2)
     && (x1 <=? x2) && (y1 <=? y2)
  then Ok (mkSprite label (x1, y1) (x2, y2) (x2 - x1 + 1) (y2 - y1 + 1))
  else Raise (ValueError "Invalid coordinates").

(** ** Pass 1 and pass 2 of the labelling *)

Definition directions : list (Z * Z) :=
  [(-1, -1); (0, -1); (1, -1); (-1, 0); (1, 0); (-1, 1); (0, 1); (1, 1)].

Definition shift (p d : Z * Z) : Z * Z := (p.1 + d.1, p.2 + d.2).

(** The inner loop of [check_neighborhood]: every label whose pixel list
    holds [neighbor] is added to the set. *)
Definition collect_labels (neighbor : Z * Z) (labelled_dict : list (Z * list (Z * Z)))
    (equivalence : gset Z) : gset Z :=
  foldl (fun eq entry =>
           if bool_decide (neighbor ∈ entry.2) then eq ∪ {[entry.1]} else eq)
        equivalence labelled_dict.

Definition check_neighborhood (pixel_coordinate : Z * Z)
    (labelled_dict : list (Z * list (Z * Z))) : gset Z :=
  foldl (fun eq direction =>
           collect_labels (shift pixel_coordinate direction) labelled_dict eq)
        ∅ directions.

(** [max(labelled_dict.keys())] for a dictionary known to be non-empty. *)
Definition max_key (labelled_dict : list (Z * list (Z * Z))) : Z :=
  default 0 (py_max id (dict_keys labelled_dict)).

Definition find_label (pixel_coordinate : Z * Z)
    (labelled_dict : list (Z * list (Z * Z))) (equivalence_list : list (gset Z))
  : Z * list (gset Z) :=
  match labelled_dict with
  | [] => (1, equivalence_list)
  | _ =>
      let equivalence := check_neighborhood pixel_coordinate labelled_dict in
      match set_min equivalence with
      | Some m => (m, equivalence_list ++ [equivalence])
      | None => (max_key labelled_dict + 1, equivalence_list)
      end
  end.

(** The state of the first loop of [update_label]: the set objects of
    [equivalence_list], and [equivalence_dict] holding for each label the
    position of the set object bound to it. *)
Definition record_set (label : Z) (st : list (gset Z) * list (Z * nat)) (j : nat)
  : list (gset Z) * list (Z * nat) :=
  let '(store, equivalence_dict) := st in
  match store !! j with
  | None => st
  | Some sets =>
      if bool_decide (label ∈ sets) then
        match dict_get equivalence_dict label with
        | Some i =>
            (* equivalence_dict[label].update(sets) *)
            (<[i := default ∅ (store !! i) ∪ sets]> store, equivalence_dict)
        | None =>
            (* equivalence_dict[label] = sets *)
            (store, dict_set equivalence_dict label j)
        end
      else st
  end.

Definition record_label (st : list (gset Z) * list (Z * nat)) (label : Z)
  : list (gset Z) * list (Z * nat) :=
  foldl (record_set label) st (seq 0 (length st.1)).

(** [for key, value in equivalence_dict.items(): equivalence_dict[key] = min(value)] *)
Definition reduce_entry (store : list (gset Z)) (acc : list (Z * Z)) (entry : Z * nat)
  : result (list (Z * Z)) :=
  match set_min (default ∅ (store !! entry.2)) with
  | Some m => Ok (dict_set acc entry.1 m)
  | None => Raise (ValueError "min() arg is an empty sequence")
  end.

(** The body of the last loop of [update_label]. *)
Definition merge_label (equivalence_dict : list (Z * Z))
    (labelled_dict : list (Z * list (Z * Z))) (label : Z)
  : result (list (Z * list (Z * Z))) :=
  match dict_get equivalence_dict label with
  | None => Raise (KeyError label)
  | Some reduced_label =>
      if decide (reduced_label = label) then Ok labelled_dict
      else
        match dict_get labelled_dict reduced_label with
        | None => Raise (KeyError reduced_label)
        | Some target =>
            match dict_get labelled_dict label with
            | None => Raise (KeyError label)
            | Some pixels =>
                Ok (dict_del (dict_set labelled_dict reduced_label (target ++ pixels))
                             label)
            end
        end
  end.

Definition update_label (labelled_dict : list (Z * list (Z * Z)))
    (equivalence_list : list (gset Z)) : result (list (Z * list (Z * Z))) :=
  let '(store, positions) :=
    foldl record_label (equivalence_list, []) (dict_keys labelled_dict) in
  equivalence_dict ← for_each (reduce_entry store) positions [];
  for_each (merge_label equivalence_dict) (dict_keys labelled_dict) labelled_dict.

(** ** Images *)

Section image.
Context {pixel : Type} `{EqDecision pixel}.

(** An image object: the attributes and methods the module uses.
    [getcolors maxcolors] is the list of (count, value) pairs, or [None]
    when there are more than [maxcolors] values. *)
Record Image : Type := mkImage {
  img_width : nat;
  img_height : nat;
  getpixel : Z * Z → pixel;
  getcolors : Z → option (list (Z * pixel))
}.

(** An arbitrary Python object passed where an image is expected: each
    attribute may be missing, and the call of its [getcolors] may raise an
    exception of any class instead of returning.  Its [width] and [height],
    when it has them, are integers; what [getcolors] returns is [None] or a
    list of (count, value) pairs. *)
Record PyObject : Type := mkPyObject {
  attr_width : option Z;
  attr_height : option Z;
  attr_getpixel : option (Z * Z → pixel);
  attr_getcolors : option (Z → result (option (list (Z * pixel))))
}.

Definition as_object (image : Image) : PyObject :=
  mkPyObject (Some (Z.of_nat (img_width image)))
             (Some (Z.of_nat (img_height image)))
             (Some (getpixel image))
             (Some (fun maxcolors => Ok (getcolors image maxcolors))).

(** [obj.name]: the attribute, or [AttributeError] when the object has none
    of this name. *)
Definition getattr {A : Type} (name : string) (attribute : option A) : result A :=
  match attribute with
  | Some value => Ok value
  | None => Raise (AttributeError name)
  end.

(** *** WP1 *)

Definition not_an_image : exn := TypeError "Not an Image object!".

(** The [try] block covers the three attribute look-ups, the call of
    [getcolors] and [max]; the handler turns an [AttributeError] raised
    anywhere in it into [not_an_image] and lets every other exception
    through. *)
Definition find_most_common_color (image : PyObject) : result pixel :=
  match
    image_getcolors ← getattr "getcolors" (attr_getcolors image);
    w ← getattr "width" (attr_width image);
    h ← getattr "height" (attr_height image);
    colors_list ← image_getcolors (w * h);
    match colors_list with
    | None => Raise (TypeError "'NoneType' object is not iterable")
    | Some colors_list =>
        match py_max fst colors_list with
        | None => Raise (ValueError "max() arg is an empty sequence")
        | Some tup => Ok tup.2
        end
    end
  with
  | Raise (AttributeError _) => Raise not_an_image
  | outcome => outcome
  end.

(** *** WP3 *)

(** The pixel coordinates in the order of the two nested loops:
    [for y in range(height): for x in range(width)]. *)
Definition scan_order (image : Image) : list (Z * Z) :=
  y ← range (img_height image); (fun x => (x, y)) <$> range (img_width image).

(** [labelled_dict[pixel_label].append(c)] or [labelled_dict[pixel_label] = [c]] *)
Definition add_pixel (labelled_dict : list (Z * list (Z * Z))) (pixel_label : Z)
    (pixel_coordinate : Z * Z) : list (Z * list (Z * Z)) :=
  match dict_get labelled_dict pixel_label with
  | Some pixels => dict_set labelled_dict pixel_label (pixels ++ [pixel_coordinate])
  | None => dict_set labelled_dict pixel_label [pixel_coordinate]
  end.

Definition label_pixel (image : Image) (background_color : pixel)
    (st : list (Z * list (Z * Z)) * list (gset Z)) (pixel_coordinate : Z * Z)
  : list (Z * list (Z * Z)) * list (gset Z) :=
  if decide (getpixel image pixel_coordinate = background_color) then st
  else
    let '(pixel_label, equivalence_list) :=
      find_label pixel_coordinate st.1 st.2 in
    (add_pixel st.1 pixel_label pixel_coordinate, equivalence_list).

(** Pass 1 alone: the state after the scan. *)
Definition first_pass (image : Image) (background_color : pixel)
  : list (Z * list (Z * Z)) * list (gset Z) :=
  foldl (label_pixel image background_color) ([], []) (scan_order image).

Definition create_labelled_dict (image : Image) (background_color : pixel)
  : result (list (Z * list (Z * Z))) :=
  let '(labelled_dict, equivalence_list) := first_pass image background_color in
  update_label labelled_dict equivalence_list.

Definition cell_label (labelled_dict : list (Z * list (Z * Z)))
    (pixel_coordinate : Z * Z) : Z :=
  foldl (fun pixel_label entry =>
           if bool_decide (pixel_coordinate ∈ entry.2) then entry.1
           else pixel_label)
        0 labelled_dict.

Definition create_label_map (labelled_dict : list (Z * list (Z * Z)))
    (image : Image) : list (list Z) :=
  (fun y => (fun x => cell_label labelled_dict (x, y)) <$> range (img_width image))
    <$> range (img_height image).

(** The body of the loop that builds [sprites]. *)
Definition build_sprite (sprites : list (Z * Sprite)) (entry : Z * list (Z * Z))
  : result (list (Z * Sprite)) :=
  let '(label, pixels) := entry in
  match py_min fst pixels, py_max fst pixels,
        py_min snd pixels, py_max snd pixels with
  | Some p1, Some p2, Some p3, Some p4 =>
      sprite ← Sprite_init label p1.1 p3.2 p2.1 p4.2;
      Ok (dict_set sprites label sprite)
  | _, _, _, _ => Raise (ValueError "min() arg is an empty sequence")
  end.

Definition find_sprites (image : Image) (background_color : option pixel)
  : result (list (Z * Sprite) * list (list Z)) :=
  background_color ←
    match background_color with
    | None => find_most_common_color (as_object image)
    | Some c => Ok c
    end;
  labelled_dict ← create_labelled_dict image background_color;
  sprites ← for_each build_sprite labelled_dict [];
  Ok (sprites, create_label_map labelled_dict image).
End image.

Arguments Image : clear implicits.
Arguments PyObject : clear implicits.

(** ** Grayscale images as Pillow builds them *)

(** [Image.getcolors] for the modes [1], [L] and [P] lists the non-empty bins
    of the 256-bin histogram in ascending order of the value. *)
Definition histogram (pixels : list Z) (i : Z) : Z :=
  Z.of_nat (length (filter (fun v => v = i) pixels)).

(** [[(h[i], i) for i in values if h[i]]] *)
Definition histogram_entries (pixels : list Z) (values : list Z) : list (Z * Z) :=
  filter (fun t => t.1 ≠ 0) ((fun i => (histogram pixels i, i)) <$> values).

Definition gray_getcolors (pixels : list Z) (maxcolors : Z) : option (list (Z * Z)) :=
  let out := histogram_entries pixels (range 256) in
  if Z.of_nat (length out) >? maxcolors then None else Some out.

Definition row_pixel (rows : list (list Z)) (c : Z * Z) : Z :=
  default 0 (default [] (rows !! Z.to_nat c.2) !! Z.to_nat c.1).

(** A grayscale image given by its rows; the width is that of the first row.
    [getpixel] is read inside the canvas only, where it is the value of the
    row; outside it Pillow raises and the model returns 0. *)
Definition gray_image (rows : list (list Z)) : Image Z :=
  let w := length (default [] (head rows)) in
  let h := length rows in
  mkImage w h (row_pixel rows)
    (gray_getcolors
       (row_pixel rows <$> (y ← range h; (fun x => (x, y)) <$> range w))).

(** ** WP4: the picture of the labels *)

(** The [background_color] argument: a tuple of three or of four channels. *)
Inductive color_arg : Type :=
  | RGB (r g b : Z)
  | RGBA (r g b a : Z).

(** [if len(background_color) == 3: background_color += (a,)] *)
Definition with_alpha (background_color : color_arg) : Z * Z * Z * Z :=
  match background_color with
  | RGB r g b => (r, g, b, 255)
  | RGBA r g b a => (r, g, b, a)
  end.

(** [r, g, b = random.sample(...); random_color = (r, g, b, a)] *)
Definition opaque (rgb : Z * Z * Z) : Z * Z * Z * Z :=
  let '(r, g, b) := rgb in (r, g, b, 255).

(** A channel that an array of [uint8] holds. *)
Definition byte (c : Z) : bool := (0 <=? c) && (c <? 256).

Definition byte_color (color : Z * Z * Z * Z) : bool :=
  let '(r, g, b, a) := color in byte r && byte g && byte b && byte a.

(** [empty_arr[x][y] = color].  The array is of [uint8]: NumPy, from
    version 2 on, raises [OverflowError] for a Python integer outside
    0..255 ([None] here); a tuple of bytes is stored as it is. *)
Definition store (color : Z * Z * Z * Z) : option (Z * Z * Z * Z) :=
  if byte_color color then Some color else None.

(** The body of the first loop of [create_sprite_labels_image].  The state
    is the dictionary [label_color] and the number of calls made to
    [random.sample] so far; the result is the new state and the colour
    stored in the cell. *)
Definition paint_cell (sample : nat → Z * Z * Z) (background : Z * Z * Z * Z)
    (st : list (Z * (Z * Z * Z * Z)) * nat) (label : Z)
  : option ((list (Z * (Z * Z * Z * Z)) * nat) * (Z * Z * Z * Z)) :=
  if decide (label = 0) then
    color ← store background; Some (st, color)
  else
    match dict_get st.1 label with
    | Some color => color ← store color; Some (st, color)
    | None =>
        let random_color := opaque (sample st.2) in
        color ← store random_color;
        Some ((dict_set st.1 label random_color, S st.2), color)
    end.

Definition paint_row (sample : nat → Z * Z * Z) (background : Z * Z * Z * Z)
    (st : list (Z * (Z * Z * Z * Z)) * nat) (row : list Z)
  : option ((list (Z * (Z * Z * Z * Z)) * nat) * list (Z * Z * Z * Z)) :=
  foldl (fun acc label =>
           acc ← acc;
           cell ← paint_cell sample background acc.1 label;
           Some (cell.1, acc.2 ++ [cell.2]))
        (Some (st, [])) row.

(** The array handed to [Image.fromarray], row by row, with the final
    [label_color] and number of samples. *)
Definition paint (sample : nat → Z * Z * Z) (background : Z * Z * Z * Z)
    (label_map : list (list Z))
  : option ((list (Z * (Z * Z * Z * Z)) * nat) * list (list (Z * Z * Z * Z))) :=
  foldl (fun acc row =>
           acc ← acc;
           painted ← paint_row sample background acc.1 row;
           Some (painted.1, acc.2 ++ [painted.2]))
        (Some (([], 0%nat), [])) label_map.

(** The four [draw.line] calls for one sprite: the end points and the fill. *)
Definition outline (sprite : Sprite) (fill : Z * Z * Z * Z)
  : list ((Z * Z) * (Z * Z) * (Z * Z * Z * Z)) :=
  let top_left := top_left sprite in
  let bottom_right := bottom_right sprite in
  let top_right := shift top_left (width sprite - 1, 0) in
  let bottom_left := shift top_left (0, height sprite - 1) in
  [(top_left, top_right, fill); (top_left, bottom_left, fill);
   (bottom_right, top_right, fill); (bottom_right, bottom_left, fill)].

(** The second loop: the lines drawn so far, or the label at which
    [label_color[label]] raises [KeyError]. *)
Fixpoint draw_sprites (label_color : list (Z * (Z * Z * Z * Z)))
    (sprites : list (Z * Sprite))
    (lines : list ((Z * Z) * (Z * Z) * (Z * Z * Z * Z)))
  : list ((Z * Z) * (Z * Z) * (Z * Z * Z * Z)) + Z :=
  match sprites with
  | [] => inl lines
  | (label, sprite) :: rest =>
      match dict_get label_color label with
      | Some fill => draw_sprites label_color rest (lines ++ outline sprite fill)
      | None => inr label
      end
  end.

(** What [create_sprite_labels_image] does up to its calls into Pillow.  It
    raises [IndexError] at [label_map[0]], [ValueError] when
    [np.ndenumerate] gets rows of different lengths, [OverflowError] at a
    store into the array, or [KeyError] at [label_color[label]]; or else it
    hands an array of bytes to [Image.fromarray] and then asks for its
    [draw.line] calls. *)
Inductive rendering : Type :=
  | Rendered (array : list (list (Z * Z * Z * Z)))
             (lines : list ((Z * Z) * (Z * Z) * (Z * Z * Z * Z)))
  | RaiseIndexError
  | RaiseValueError
  | RaiseOverflowError
  | RaiseKeyError (key : Z).

(** The rows of a two-dimensional array have one length, the one of the
    first row. *)
Definition rectangular (label_map : list (list Z)) : bool :=
  forallb (fun row => (length row =? length (default [] (head label_map)))%nat)
    label_map.

(** [create_sprite_labels_image(sprites, label_map, background_color)], with
    [sample n] the result of the call number [n] to
    [random.sample(range(0, 255), 3)].  [label_map] is a two-dimensional
    array or a list of rows; from rows of different lengths NumPy makes no
    two-dimensional array, and the loop over [np.ndenumerate(label_map)]
    raises [ValueError] before it paints a cell. *)
Definition create_sprite_labels_image (sample : nat → Z * Z * Z)
    (sprites : list (Z * Sprite)) (label_map : list (list Z))
    (background_color : color_arg) : rendering :=
  match label_map with
  | [] => RaiseIndexError
  | _ =>
      if rectangular label_map then
        match paint sample (with_alpha background_color) label_map with
        | None => RaiseOverflowError
        | Some ((label_color, _), array) =>
            match draw_sprites label_color sprites [] with
            | inl lines => Rendered array lines
            | inr key => RaiseKeyError key
            end
        end
      else RaiseValueError
  end.

(** What [random.sample(range(0, 255), 3)] can give. *)
Definition sampled (rgb : Z * Z * Z) : Prop :=
  let '(r, g, b) := rgb in
  (0 ≤ r < 255 ∧ 0 ≤ g < 255 ∧ 0 ≤ b < 255) ∧ r ≠ g ∧ r ≠ b ∧ g ≠ b.

(** A label that occurs in the label map. *)
Definition occurs (label_map : list (list Z)) (label : Z) : Prop :=
  ∃ row, row ∈ label_map ∧ label ∈ row.

(** The dictionary [label_color]: one entry for each label other than 0 seen
    so far, whose colour is the sample drawn when the label was first
    seen. *)
Definition color_table (sample : nat → Z * Z * Z) (seen : list Z)
    (st : list (Z * (Z * Z * Z * Z)) * nat) : Prop :=
  NoDup (dict_keys st.1)
  ∧ (∀ k, k ∈ dict_keys st.1 ↔ k ≠ 0 ∧ k ∈ seen)
  ∧ st.2 = length st.1
  ∧ st.1.*2 = (fun n => opaque (sample n)) <$> seq 0 (length st.1).

(** The colour of a cell with a given label, by the dictionary. *)
Definition cell_color (background : Z * Z * Z * Z)
    (label_color : list (Z * (Z * Z * Z * Z))) (label : Z) (color : Z * Z * Z * Z)
  : Prop :=
  if decide (label = 0) then color = background
  else dict_get label_color label = Some color.

(** ** Example images *)

(** One 8-connected region: the middle column starts one row lower than the
    outer two and touches both only through the bottom row. *)
Definition zigzag : Image Z :=
  gray_image [[1; 0; 0; 0; 1];
              [1; 0; 1; 0; 1];
              [0; 1; 0; 1; 0]].

Definition two_dots : Image Z :=
  gray_image [[1; 0; 0];
              [0; 0; 0];
              [0; 0; 1]].

Definition one_dot : Image Z := gray_image [[1]].

Definition pair_of_pixels : Image Z := gray_image [[1; 1]].

Definition five_then_three : Image Z := gray_image [[5; 3]].

Definition all_fours : Image Z := gray_image [[4; 4]; [4; 4]].

(** An image of height 0. *)
Definition no_rows : Image Z := gray_image [].

(** [pair_of_pixels] with another value for the foreground and other
    contents outside the canvas. *)
Definition pair_of_nines : Image Z :=
  mkImage 2 1 (fun c => if decide (c.2 = 0) then 1 else 9) (fun _ => None).

(** An object with [width], [height] and [getcolors] but no [getpixel]. *)
Definition histogram_only : PyObject Z :=
  mkPyObject (Some 1) (Some 1) None (Some (fun _ => Ok (Some [(1, 7)]))).

(** An object with [width], [height] and [getpixel] but no [getcolors]. *)
Definition pixels_only : PyObject Z :=
  mkPyObject (Some 1) (Some 1) (Some (fun _ => 7)) None.

(** An object with all four attributes whose [getcolors] looks up an
    attribute that one of its own parts does not have. *)
Definition failing_getcolors : PyObject Z :=
  mkPyObject (Some 1) (Some 1) (Some (fun _ => 7))
    (Some (fun _ => Raise (AttributeError "im"))).

(** ** Vocabulary of the statements *)

(** The geometry the constructor rejects. *)
Definition invalid_geometry (label x1 y1 x2 y2 : Z) : Prop :=
  label < 0 ∨ x1 < 0 ∨ y1 < 0 ∨ x2 < 0 ∨ y2 < 0 ∨ x1 > x2 ∨ y1 > y2.

(** The pixel values of an image in scan order. *)
Definition image_pixels {pixel : Type} (image : Image pixel) : list pixel :=
  getpixel image <$> scan_order image.

(** A coordinate inside the image. *)
Definition in_image {pixel : Type} (image : Image pixel) (c : Z * Z) : Prop :=
  (0 ≤ c.1 < Z.of_nat (img_width image)) ∧ (0 ≤ c.2 < Z.of_nat (img_height image)).

(** A foreground pixel none of whose eight neighbours is foreground: a
    connected component of exactly one pixel. *)
Definition isolated {pixel : Type} (image : Image pixel) (background_color : pixel)
    (p : Z * Z) : Prop :=
  in_image image p
  ∧ getpixel image p ≠ background_color
  ∧ ∀ d, d ∈ directions → in_image image (shift p d) →
         getpixel image (shift p d) = background_color.

(** The tie-break the specification asks for: the first value in scan order
    whose number of occurrences is the highest. *)
Definition spec_most_common_color (pixels : list Z) : option Z :=
  find (fun v => forallb (fun u => histogram pixels u <=? histogram pixels v) pixels)
       pixels.

(** All the coordinates held by a dictionary of components. *)
Definition all_pixels (labelled_dict : list (Z * list (Z * Z))) : list (Z * Z) :=
  entry ← labelled_dict; entry.2.

(** The cell of a label map at a coordinate. *)
Definition map_cell (label_map : list (list Z)) (c : Z * Z) : option Z :=
  if decide (0 ≤ c.1 ∧ 0 ≤ c.2)
  then row ← label_map !! Z.to_nat c.2; row !! Z.to_nat c.1
  else None.

(** Two labels that occur together in one equivalence record. *)
Definition share_record (equivalence_list : list (gset Z)) (a b : Z) : Prop :=
  ∃ s, s ∈ equivalence_list ∧ a ∈ s ∧ b ∈ s.

(** What holds of the state of pass 1 once the coordinates [seen] have been
    visited: the labels are distinct and positive, the pixel lists hold the
    foreground coordinates visited so far, and the records mention labels of
    the dictionary only. *)
Definition pass1_inv {pixel : Type} `{EqDecision pixel} (image : Image pixel)
    (background_color : pixel) (seen : list (Z * Z))
    (st : list (Z * list (Z * Z)) * list (gset Z)) : Prop :=
  NoDup (dict_keys st.1)
  ∧ (∀ k, k ∈ dict_keys st.1 → 1 ≤ k)
  ∧ all_pixels st.1 ≡ₚ filter (fun c => getpixel image c ≠ background_color) seen
  ∧ (∀ s l, s ∈ st.2 → l ∈ s → l ∈ dict_keys st.1).

(** The first loop of [update_label] binds a label only to a record that
    holds it; a label held by no record stays unbound. *)
Definition records_inv (L : Z) (st : list (gset Z) * list (Z * nat)) : Prop :=
  (∀ j s, st.1 !! j = Some s → L ∉ s)
  ∧ (L ∉ dict_keys st.2)
  ∧ (∀ k i, (k, i) ∈ st.2 → ∃ s, st.1 !! i = Some s ∧ k ∈ s).

(** Two distinct coordinates that touch by an edge or a corner. *)
Definition adjacent (p q : Z * Z) : Prop :=
  p ≠ q ∧ Z.abs (p.1 - q.1) ≤ 1 ∧ Z.abs (p.2 - q.2) ≤ 1.

(** A pixel of the canvas whose value is not the background. *)
Definition foreground {pixel : Type} (image : Image pixel) (background_color : pixel)
    (c : Z * Z) : Prop :=
  in_image image c ∧ getpixel image c ≠ background_color.

(** Two coordinates joined by a chain of adjacent foreground pixels. *)
Definition connected {pixel : Type} (image : Image pixel) (background_color : pixel)
  : relation (Z * Z) :=
  rtc (fun a b => foreground image background_color a
                  ∧ foreground image background_color b ∧ adjacent a b).

(** The coordinate [c] is in the pixel list of label [l]. *)
Definition labelled (ld : list (Z * list (Z * Z))) (c : Z * Z) (l : Z) : Prop :=
  ∃ pixels, (l, pixels) ∈ ld ∧ c ∈ pixels.

(** Every two adjacent foreground pixels among [seen] have labels that
    occur together in one record. *)
Definition records_adjacency {pixel : Type} (image : Image pixel)
    (background_color : pixel) (seen : list (Z * Z))
    (st : list (Z * list (Z * Z)) * list (gset Z)) : Prop :=
  ∀ a b, a ∈ seen → b ∈ seen →
    foreground image background_color a → foreground image background_color b →
    adjacent a b →
    ∃ s la lb, s ∈ st.2 ∧ labelled st.1 a la ∧ labelled st.1 b lb ∧ la ∈ s ∧ lb ∈ s.

(** Every pixel under label [l1] is connected to every pixel under [l2]. *)
Definition label_connected {pixel : Type} (image : Image pixel)
    (background_color : pixel) (ld : list (Z * list (Z * Z))) (l1 l2 : Z) : Prop :=
  ∀ a b, labelled ld a l1 → labelled ld b l2 → connected image background_color a b.

(** Pass 1 joins connected pixels only: under one label, and under the
    labels of one record. *)
Definition pass1_sound {pixel : Type} (image : Image pixel) (background_color : pixel)
    (st : list (Z * list (Z * Z)) * list (gset Z)) : Prop :=
  (∀ l, label_connected image background_color st.1 l l)
  ∧ (∀ s l1 l2, s ∈ st.2 → l1 ∈ s → l2 ∈ s →
                label_connected image background_color st.1 l1 l2).

(** The state of the first loop of [update_label] when every set object
    satisfies [P] and every label is bound to a set that holds it. *)
Definition records_ok (P : gset Z → Prop) (st : list (gset Z) * list (Z * nat))
  : Prop :=
  (∀ j s, st.1 !! j = Some s → P s)
  ∧ (∀ k i, (k, i) ∈ st.2 → ∃ s, st.1 !! i = Some s ∧ k ∈ s).

(** Two labels joined by a chain of records. *)
Definition linked (equivalence_list : list (gset Z)) : relation Z :=
  rtc (share_record equivalence_list).

(** The box of sprite [s] is the tightest one around the coordinates that
    satisfy [P], and its width and height are those of the box. *)
Definition tight_box (P : Z * Z → Prop) (s : Sprite) : Prop :=
  (∀ c, P c → (top_left s).1 ≤ c.1 ≤ (bottom_right s).1
              ∧ (top_left s).2 ≤ c.2 ≤ (bottom_right s).2)
  ∧ (∃ c, P c ∧ c.1 = (top_left s).1)
  ∧ (∃ c, P c ∧ c.1 = (bottom_right s).1)
  ∧ (∃ c, P c ∧ c.2 = (top_left s).2)
  ∧ (∃ c, P c ∧ c.2 = (bottom_right s).2)
  ∧ width s = (bottom_right s).1 - (top_left s).1 + 1
  ∧ height s = (bottom_right s).2 - (top_left s).2 + 1.

(** What the inner loop of the first loop of [update_label] makes of the set
    [W] bound to [label]: the later sets that hold [label] are added to it. *)
Definition absorb (label : Z) (W : gset Z) (later : list (gset Z)) : gset Z :=
  foldl (fun acc s => if bool_decide (label ∈ s) then acc ∪ s else acc) W later.

(** The sets after the first loop of [update_label] has gone through some of
    the labels.  A label is bound to a set that holds it; a later set that
    holds the label is included in that set; an earlier set that holds the
    label includes that set; and a set bound to a label holds no label bound
    before it to a set further down the list. *)
Definition records_nested (st : list (gset Z) * list (Z * nat)) : Prop :=
  NoDup (dict_keys st.2)
  ∧ (∀ a f, (a, f) ∈ st.2 → ∃ s, st.1 !! f = Some s ∧ a ∈ s)
  ∧ (∀ a f sf j s, (a, f) ∈ st.2 → st.1 !! f = Some sf → st.1 !! j = Some s →
       a ∈ s → ((f < j)%nat → s ⊆ sf) ∧ ((j < f)%nat → sf ⊆ s))
  ∧ (∀ e1 a fa e2 b fb e3 sb,
       st.2 = e1 ++ (a, fa) :: e2 ++ (b, fb) :: e3 →
       st.1 !! fb = Some sb → a ∈ sb → (fb ≤ fa)%nat).

(** Every label of pass 1 is in some record, or its list is one pixel that
    touches no foreground pixel visited so far. *)
Definition recorded_or_alone {pixel : Type} (image : Image pixel)
    (background_color : pixel) (seen : list (Z * Z))
    (st : list (Z * list (Z * Z)) * list (gset Z)) : Prop :=
  ∀ L pixels, (L, pixels) ∈ st.1 →
    (∃ s, s ∈ st.2 ∧ L ∈ s)
    ∨ (∃ p, pixels = [p]
            ∧ ∀ q, q ∈ seen → foreground image background_color q → ¬ adjacent p q).

(** * Properties *)

(** ** The built-ins *)

Lemma py_max_first {A : Type} (key : A → Z) (l : list A) (x : A) :
  py_max key l = Some x →
  ∃ l1 l2, l = l1 ++ x :: l2
           ∧ (∀ y, y ∈ l1 → key y < key x)
           ∧ (∀ y, y ∈ l2 → key y ≤ key x).
Proof.
  destruct l as [|x0 l']; [done|]. simpl. intros [= <-].
  induction l' as [|y l' IH] using rev_ind; simpl.
  - exists [], []. split; [done|]. split; intros ? ?%elem_of_nil; done.
  - rewrite foldl_app. simpl.
    destruct IH as (l1 & l2 & Hl & H1 & H2).
    destruct (Z.ltb_spec (key (foldl (fun best it => if key best <? key it then it else best) x0 l')) (key y)) as [Hlt|Hge].
    + exists (x0 :: l'), []. split; [done|]. split; [|intros ? ?%elem_of_nil; done].
      intros z Hz. rewrite Hl in Hz.
      apply elem_of_app in Hz as [Hz|Hz].
      * specialize (H1 _ Hz). lia.
      * apply elem_of_cons in Hz as [->|Hz]; [done|]. specialize (H2 _ Hz). lia.
    + exists l1, (l2 ++ [y]). split.
      * rewrite app_comm_cons, Hl, <- app_assoc. done.
      * split; [done|]. intros z [Hz|Hz%list_elem_of_singleton]%elem_of_app.
        -- by apply H2.
        -- by subst.
Qed.

Lemma py_min_first {A : Type} (key : A → Z) (l : list A) (x : A) :
  py_min key l = Some x →
  ∃ l1 l2, l = l1 ++ x :: l2
           ∧ (∀ y, y ∈ l1 → key x < key y)
           ∧ (∀ y, y ∈ l2 → key x ≤ key y).
Proof.
  destruct l as [|x0 l']; [done|]. simpl. intros [= <-].
  induction l' as [|y l' IH] using rev_ind; simpl.
  - exists [], []. split; [done|]. split; intros ? ?%elem_of_nil; done.
  - rewrite foldl_app. simpl.
    destruct IH as (l1 & l2 & Hl & H1 & H2).
    destruct (Z.ltb_spec (key y) (key (foldl (fun best it => if key it <? key best then it else best) x0 l'))) as [Hlt|Hge].
    + exists (x0 :: l'), []. split; [done|]. split; [|intros ? ?%elem_of_nil; done].
      intros z Hz. rewrite Hl in Hz.
      apply elem_of_app in Hz as [Hz|Hz].
      * specialize (H1 _ Hz). lia.
      * apply elem_of_cons in Hz as [->|Hz]; [done|]. specialize (H2 _ Hz). lia.
    + exists l1, (l2 ++ [y]). split.
      * rewrite app_comm_cons, Hl, <- app_assoc. done.
      * split; [done|]. intros z [Hz|Hz%list_elem_of_singleton]%elem_of_app.
        -- by apply H2.
        -- by subst.
Qed.

Lemma py_max_None {A : Type} (key : A → Z) (l : list A) :
  py_max key l = None ↔ l = [].
Proof. by destruct l. Qed.

Lemma py_min_None {A : Type} (key : A → Z) (l : list A) :
  py_min key l = None ↔ l = [].
Proof. by destruct l. Qed.

Lemma set_min_elem (s : gset Z) (m : Z) : set_min s = Some m → m ∈ s.
Proof.
  intros (l1 & l2 & Hl & _)%py_min_first.
  apply elem_of_elements. rewrite Hl. apply elem_of_app. right. left.
Qed.

Lemma set_min_None (s : gset Z) : set_min s = None → s = ∅.
Proof.
  unfold set_min. rewrite py_min_None. intros H.
  by apply leibniz_equiv, elements_empty_inv; rewrite H.
Qed.

Lemma set_min_is_Some (s : gset Z) (x : Z) : x ∈ s → is_Some (set_min s).
Proof.
  intros Hx. destruct (set_min s) eqn:E; [by eexists|].
  apply set_min_None in E. set_solver.
Qed.

Lemma elem_of_range (n : nat) (i : Z) : i ∈ range n ↔ 0 ≤ i < Z.of_nat n.
Proof.
  unfold range. rewrite list_elem_of_fmap. split.
  - intros (k & -> & Hk). apply elem_of_seq in Hk. lia.
  - intros H. exists (Z.to_nat i). split; [lia|]. apply elem_of_seq. lia.
Qed.

(** ** WP2: construction of a sprite *)

(** C8. [Sprite(label, x1, y1, x2, y2)] raises [ValueError] exactly when
    [label < 0], a coordinate is negative, [x1 > x2] or [y1 > y2]; in every
    other case it returns the sprite with [top_left = (x1, y1)],
    [bottom_right = (x2, y2)], [width = x2 - x1 + 1] and
    [height = y2 - y1 + 1].  A sprite is a record value: nothing updates it
    after construction. *)
Theorem Sprite_init_spec (lbl x1 y1 x2 y2 : Z) :
  (Sprite_init lbl x1 y1 x2 y2 = Raise (ValueError "Invalid coordinates")
   ↔ invalid_geometry lbl x1 y1 x2 y2)
  ∧ (¬ invalid_geometry lbl x1 y1 x2 y2 ↔
     ∃ s, Sprite_init lbl x1 y1 x2 y2 = Ok s
          ∧ label s = lbl
          ∧ top_left s = (x1, y1)
          ∧ bottom_right s = (x2, y2)
          ∧ width s = x2 - x1 + 1
          ∧ height s = y2 - y1 + 1).
Proof.
  unfold Sprite_init, invalid_geometry.
  destruct (_ && _) eqn:Hguard.
  - repeat (apply andb_prop in Hguard as [Hguard ?]).
    assert (¬ (lbl < 0 ∨ x1 < 0 ∨ y1 < 0 ∨ x2 < 0 ∨ y2 < 0 ∨ x1 > x2 ∨ y1 > y2))
      as Hvalid by lia.
    split; [split; [done | intros; tauto]|].
    split; [|done]. intros _. eexists. repeat split.
  - assert (lbl < 0 ∨ x1 < 0 ∨ y1 < 0 ∨ x2 < 0 ∨ y2 < 0 ∨ x1 > x2 ∨ y1 > y2)
      as Hinvalid.
    { repeat (apply andb_false_iff in Hguard as [Hguard|Hguard]); lia. }
    split; [done|]. split; [tauto|]. by intros (s & [=] & _).
Qed.

(** ** WP1: the most common colour *)

(** C7, as the code has it. [find_most_common_color] raises
    [TypeError("Not an Image object!")] exactly when an [AttributeError] is
    raised inside its [try] block, that is, when the argument lacks
    [getcolors], [width] or [height], or when the call
    [image.getcolors(width * height)] raises [AttributeError]; the one other
    way is that this call raises that very [TypeError], which passes
    through.  Whether the argument has [getpixel] plays no part.  No
    [AttributeError] leaves the function, and every other exception of the
    call leaves it unchanged. *)
Theorem find_most_common_color_not_an_image {pixel : Type} (image : PyObject pixel) :
  (find_most_common_color image = Raise not_an_image
   ↔ attr_getcolors image = None ∨ attr_width image = None
     ∨ attr_height image = None
     ∨ ∃ image_getcolors w h,
         attr_getcolors image = Some image_getcolors
         ∧ attr_width image = Some w ∧ attr_height image = Some h
         ∧ ((∃ msg, image_getcolors (w * h) = Raise (AttributeError msg))
            ∨ image_getcolors (w * h) = Raise not_an_image))
  ∧ (∀ msg, find_most_common_color image ≠ Raise (AttributeError msg))
  ∧ (∀ image_getcolors w h e,
       attr_getcolors image = Some image_getcolors →
       attr_width image = Some w → attr_height image = Some h →
       image_getcolors (w * h) = Raise e →
       (∀ msg, e ≠ AttributeError msg) →
       find_most_common_color image = Raise e).
Proof.
  unfold find_most_common_color.
  destruct (attr_getcolors image) as [gc|]; simpl;
    [|split; [split; [tauto|done]|split; [done|]]; by intros ? ? ? ? [=]].
  destruct (attr_width image) as [w|]; simpl;
    [|split; [split; [tauto|done]|split; [done|]]; by intros ? ? ? ? _ [=]].
  destruct (attr_height image) as [h|]; simpl;
    [|split; [split; [tauto|done]|split; [done|]]; by intros ? ? ? ? _ _ [=]].
  split; [split|split].
  - intros Hraise. do 3 right. exists gc, w, h. do 3 (split; [done|]).
    destruct (gc (w * h)) as [[colors_list|]|e]; simpl in Hraise.
    + by destruct (py_max fst colors_list).
    + done.
    + unfold not_an_image in *. destruct e; try discriminate Hraise.
      * right. by injection Hraise as ->.
      * left. by eexists.
  - intros [?|[?|[?|(gc' & w' & h' & [= <-] & [= <-] & [= <-] & Hcall)]]]; try done.
    destruct Hcall as [[msg ->]| ->]; done.
  - intros msg. destruct (gc (w * h)) as [[colors_list|]|e]; simpl.
    + by destruct (py_max fst colors_list).
    + done.
    + by destruct e.
  - intros gc' w' h' e [= <-] [= <-] [= <-] -> He. simpl.
    destruct e; try done. by destruct (He msg).
Qed.

(** C7 fails as stated, in both directions: an object without per-pixel
    access is accepted, and an object with width, height and per-pixel access
    is rejected.  Having [getcolors] as well does not make the argument safe
    either: an [AttributeError] raised inside the call is reported in the
    same way. *)
Lemma find_most_common_color_ignores_getpixel :
  (attr_getpixel histogram_only = None
   ∧ find_most_common_color histogram_only = Ok 7)
  ∧ (is_Some (attr_width pixels_only) ∧ is_Some (attr_height pixels_only)
     ∧ is_Some (attr_getpixel pixels_only)
     ∧ find_most_common_color pixels_only = Raise not_an_image)
  ∧ (is_Some (attr_width failing_getcolors)
     ∧ is_Some (attr_height failing_getcolors)
     ∧ is_Some (attr_getpixel failing_getcolors)
     ∧ is_Some (attr_getcolors failing_getcolors)
     ∧ find_most_common_color failing_getcolors = Raise not_an_image).
Proof. repeat split; by eexists. Qed.

(** C6, as the code has it. The value returned is the one of the first
    entry of [image.getcolors(width * height)] whose count is the highest:
    the entries before it have a smaller count and no entry has a larger
    one. *)
Theorem find_most_common_color_first_listed {pixel : Type} (image : Image pixel)
    (colors_list : list (Z * pixel)) :
  getcolors image (Z.of_nat (img_width image) * Z.of_nat (img_height image))
    = Some colors_list →
  colors_list ≠ [] →
  ∃ before count color after,
    colors_list = before ++ (count, color) :: after
    ∧ find_most_common_color (as_object image) = Ok color
    ∧ (∀ t, t ∈ before → t.1 < count)
    ∧ (∀ t, t ∈ after → t.1 ≤ count).
Proof.
  intros Hcolors Hne. unfold find_most_common_color. simpl. rewrite Hcolors.
  destruct (py_max fst colors_list) as [[count color]|] eqn:Hmax.
  - apply py_max_first in Hmax as (before & after & -> & Hb & Ha).
    by exists before, count, color, after.
  - by apply py_max_None in Hmax.
Qed.

Lemma find_most_common_color_first_listed_witness :
  ∃ before count color after,
    [(1, 3); (1, 5)] = before ++ (count, color) :: after
    ∧ find_most_common_color (as_object five_then_three) = Ok color
    ∧ (∀ t, t ∈ before → t.1 < count)
    ∧ (∀ t, t ∈ after → t.1 ≤ count).
Proof.
  apply (find_most_common_color_first_listed five_then_three [(1, 3); (1, 5)]).
  - vm_compute. reflexivity.
  - discriminate.
Defined.

(** C6 fails as stated: in a one-row grayscale image holding 5 then 3, both
    values cover half the pixels and 5 comes first in scan order, yet the
    function returns 3. *)
Lemma find_most_common_color_not_first_in_scan :
  image_pixels five_then_three = [5; 3]
  ∧ histogram [5; 3] 5 = histogram [5; 3] 3
  ∧ spec_most_common_color (image_pixels five_then_three) = Some 5
  ∧ find_most_common_color (as_object five_then_three) = Ok 3.
Proof. repeat split; vm_compute; reflexivity. Qed.

(** ** Labelling: what the code does on three small images *)

(** C1 fails on the code. Pass 1 on [zigzag] records [{1}], [{2}], [{1,3}]
    and [{2,3}]: labels 1, 2 and 3 are chained through 3.  Pass 2 binds
    label 2 to the record object [{2}], which grows to [{2,3}] only, so label
    2 is kept as its own component next to label 1. *)
Theorem update_label_misses_chain :
  let ld := [(1, [(0, 0); (0, 1); (1, 2)]);
             (2, [(4, 0); (4, 1); (3, 2)]);
             (3, [(2, 1)])] in
  let el : list (gset Z) := [{[1]}; {[2]}; {[1; 3]}; {[2; 3]}] in
  first_pass zigzag 0 = (ld, el)
  ∧ share_record el 1 3
  ∧ share_record el 3 2
  ∧ update_label ld el = Ok [(1, [(0, 0); (0, 1); (1, 2); (2, 1)]);
                             (2, [(4, 0); (4, 1); (3, 2)])]
  ∧ create_labelled_dict zigzag 0 = update_label ld el.
Proof.
  intros ld el. split; [|split; [|split; [|split]]].
  - vm_compute. reflexivity.
  - exists {[1; 3]}. set_solver.
  - exists {[2; 3]}. set_solver.
  - vm_compute. reflexivity.
  - vm_compute. reflexivity.
Qed.

(** C2 fails on the code. With foreground pixels at (0,0) and (2,2) only,
    no equivalence record is made, and pass 2 looks label 1 up in an empty
    dictionary. *)
Theorem find_sprites_two_dots :
  first_pass two_dots 0 = ([(1, [(0, 0)]); (2, [(2, 2)])], [])
  ∧ find_sprites two_dots (Some 0) = Raise (KeyError 1).
Proof. split; vm_compute; reflexivity. Qed.

(** C4 fails on the code. An image whose only foreground pixel is (0,0)
    raises [KeyError]; [zigzag], one connected region with bounding box
    (0,0)-(4,2), comes out as two sprites. *)
Theorem find_sprites_single_region :
  find_sprites one_dot (Some 0) = Raise (KeyError 1)
  ∧ find_sprites zigzag (Some 0)
    = Ok ([(1, mkSprite 1 (0, 0) (2, 2) 3 3); (2, mkSprite 2 (3, 0) (4, 2) 2 3)],
          [[1; 0; 0; 0; 2];
           [1; 0; 1; 0; 2];
           [0; 1; 0; 2; 0]]).
Proof. split; vm_compute; reflexivity. Qed.

(** ** Dictionaries *)

Section dict_facts.
Context {V : Type}.
Implicit Types (d : list (Z * V)) (k : Z) (v : V).

Lemma dict_get_None d k : dict_get d k = None ↔ k ∉ dict_keys d.
Proof.
  induction d as [|[k' v'] d IH]; simpl.
  - split; [intros _ ?%elem_of_nil; done | done].
  - rewrite not_elem_of_cons. case_decide as Hk; simpl.
    + split; [done|]. by intros [? _].
    + rewrite IH. split; [done|]. by intros [_ ?].
Qed.

Lemma dict_get_Some_split d k v :
  dict_get d k = Some v →
  ∃ d1 d2, d = d1 ++ (k, v) :: d2 ∧ k ∉ dict_keys d1.
Proof.
  induction d as [|[k' v'] d IH]; simpl; [done|].
  case_decide as Hk.
  - intros [= ->]. subst. exists [], d. split; [done|]. by intros ?%elem_of_nil.
  - intros (d1 & d2 & -> & Hd1)%IH. exists ((k', v') :: d1), d2.
    split; [done|]. simpl. rewrite not_elem_of_cons. done.
Qed.

Lemma dict_get_elem_of d k v : dict_get d k = Some v → (k, v) ∈ d.
Proof.
  intros (d1 & d2 & -> & _)%dict_get_Some_split.
  apply elem_of_app. right. left.
Qed.

Lemma dict_get_Some_key d k v : dict_get d k = Some v → k ∈ dict_keys d.
Proof.
  intros Hin%dict_get_elem_of. apply list_elem_of_fmap. by exists (k, v).
Qed.

Lemma dict_get_is_Some d k : k ∈ dict_keys d → is_Some (dict_get d k).
Proof.
  intros Hk. destruct (dict_get d k) eqn:E; [by eexists|].
  by apply dict_get_None in E.
Qed.

Lemma elem_of_dict_get d k v : NoDup (dict_keys d) → (k, v) ∈ d → dict_get d k = Some v.
Proof.
  induction d as [|[k' v'] d IH]; simpl.
  - by intros _ ?%elem_of_nil.
  - rewrite NoDup_cons. intros [Hk' Hd] [[= -> ->]|Hin]%elem_of_cons.
    + by rewrite decide_True.
    + rewrite decide_False; [auto|]. intros ->. apply Hk'.
      apply list_elem_of_fmap. by exists (k, v).
Qed.

Lemma dict_set_split d1 d2 k v v' :
  k ∉ dict_keys d1 → dict_set (d1 ++ (k, v) :: d2) k v' = d1 ++ (k, v') :: d2.
Proof.
  induction d1 as [|[k' w] d1 IH]; simpl.
  - intros _. by rewrite decide_True.
  - rewrite not_elem_of_cons. intros [? ?]. rewrite decide_False by done.
    f_equal. auto.
Qed.

Lemma dict_set_fresh d k v : k ∉ dict_keys d → dict_set d k v = d ++ [(k, v)].
Proof.
  induction d as [|[k' w] d IH]; simpl; [done|].
  rewrite not_elem_of_cons. intros [? ?]. rewrite decide_False by done.
  f_equal. auto.
Qed.

Lemma dict_del_split d1 d2 k v :
  k ∉ dict_keys d1 → dict_del (d1 ++ (k, v) :: d2) k = d1 ++ d2.
Proof.
  induction d1 as [|[k' w] d1 IH]; simpl.
  - intros _. by rewrite decide_True.
  - rewrite not_elem_of_cons. intros [? ?]. rewrite decide_False by done.
    f_equal. auto.
Qed.

Lemma dict_get_set_eq d k v : dict_get (dict_set d k v) k = Some v.
Proof.
  induction d as [|[k' w] d IH]; simpl.
  - by rewrite decide_True.
  - case_decide; simpl; [by rewrite decide_True|]. by rewrite decide_False.
Qed.

Lemma dict_get_set_ne d k k' v : k ≠ k' → dict_get (dict_set d k v) k' = dict_get d k'.
Proof.
  intros Hne. induction d as [|[k0 w] d IH]; simpl.
  - by rewrite decide_False.
  - case_decide; simpl.
    + subst. by rewrite !decide_False.
    + case_decide; done.
Qed.

Lemma dict_keys_set d k v :
  dict_keys (dict_set d k v)
  = if decide (k ∈ dict_keys d) then dict_keys d else dict_keys d ++ [k].
Proof.
  case_decide as Hk.
  - apply dict_get_is_Some in Hk as [w Hw].
    apply dict_get_Some_split in Hw as (d1 & d2 & -> & Hd1).
    rewrite dict_set_split by done. unfold dict_keys. by rewrite !fmap_app.
  - rewrite dict_set_fresh by done. unfold dict_keys. by rewrite fmap_app.
Qed.

Lemma dict_keys_del d k v :
  dict_get d k = Some v →
  ∃ d1 d2, d = d1 ++ (k, v) :: d2 ∧ dict_del d k = d1 ++ d2.
Proof.
  intros (d1 & d2 & -> & Hd1)%dict_get_Some_split.
  exists d1, d2. split; [done|]. by apply dict_del_split.
Qed.
End dict_facts.

(** ** The scan *)

Lemma elem_of_scan_order {pixel : Type} (image : Image pixel) (c : Z * Z) :
  c ∈ scan_order image ↔ in_image image c.
Proof.
  unfold scan_order, in_image. rewrite list_elem_of_bind. split.
  - intros (y & (x & -> & Hx)%list_elem_of_fmap & Hy).
    apply elem_of_range in Hx, Hy. done.
  - destruct c as [x y]. simpl. intros [Hx Hy]. exists y. split.
    + apply list_elem_of_fmap. exists x. split; [done|]. by apply elem_of_range.
    + by apply elem_of_range.
Qed.

Lemma NoDup_range (n : nat) : NoDup (range n).
Proof.
  unfold range. apply NoDup_fmap_2; [|apply NoDup_seq].
  intros ? ?. lia.
Qed.

Lemma NoDup_scan_order {pixel : Type} (image : Image pixel) :
  NoDup (scan_order image).
Proof.
  unfold scan_order. apply NoDup_bind.
  - intros y1 y2 c _ _ (x1 & -> & _)%list_elem_of_fmap (x2 & [= _ ->] & _)%list_elem_of_fmap.
    done.
  - intros y _. apply NoDup_fmap_2; [|apply NoDup_range]. by intros ? ? [= ->].
  - apply NoDup_range.
Qed.

(** ** Pass 1 *)

Lemma elem_of_collect_labels (neighbor : Z * Z) (ld : list (Z * list (Z * Z)))
    (equivalence : gset Z) (l : Z) :
  l ∈ collect_labels neighbor ld equivalence
  ↔ l ∈ equivalence ∨ ∃ pixels, (l, pixels) ∈ ld ∧ neighbor ∈ pixels.
Proof.
  unfold collect_labels. revert equivalence.
  induction ld as [|[k pixels] ld IH]; intros equivalence; simpl.
  - split; [by left|]. intros [?|(? & ?%elem_of_nil & _)]; done.
  - rewrite IH. case_bool_decide as Hin.
    + rewrite elem_of_union, elem_of_singleton. split.
      * intros [[?| ->]|(ps & ? & ?)]; [by left| |].
        -- right. exists pixels. split; [left|done].
        -- right. exists ps. split; [by right|done].
      * intros [?|(ps & [[= -> ->]|?]%elem_of_cons & ?)].
        -- left. by left.
        -- left. by right.
        -- right. by exists ps.
    + split.
      * intros [?|(ps & ? & ?)]; [by left|]. right. exists ps. split; [by right|done].
      * intros [?|(ps & [[= -> ->]|?]%elem_of_cons & ?)]; [by left|done|].
        right. by exists ps.
Qed.

Lemma elem_of_check_neighborhood (c : Z * Z) (ld : list (Z * list (Z * Z))) (l : Z) :
  l ∈ check_neighborhood c ld
  ↔ ∃ d pixels, d ∈ directions ∧ (l, pixels) ∈ ld ∧ shift c d ∈ pixels.
Proof.
  unfold check_neighborhood.
  assert (∀ ds (e : gset Z),
    l ∈ foldl (fun eq direction => collect_labels (shift c direction) ld eq) e ds
    ↔ l ∈ e ∨ ∃ d pixels, d ∈ ds ∧ (l, pixels) ∈ ld ∧ shift c d ∈ pixels) as Hgen.
  { induction ds as [|d ds IH]; intros e; simpl.
    - split; [by left|]. intros [?|(? & ? & ?%elem_of_nil & _)]; done.
    - rewrite IH, elem_of_collect_labels. split.
      + intros [[?|(ps & ? & ?)]|(d' & ps & ? & ? & ?)]; [by left| |].
        * right. exists d, ps. split; [left|done].
        * right. exists d', ps. split; [by right|done].
      + intros [?|(d' & ps & [->|?]%elem_of_cons & ? & ?)].
        * left. by left.
        * left. right. by exists ps.
        * right. by exists d', ps. }
  rewrite Hgen. split; [|by right]. intros [?%elem_of_empty|?]; done.
Qed.

Lemma check_neighborhood_keys (c : Z * Z) (ld : list (Z * list (Z * Z))) (l : Z) :
  l ∈ check_neighborhood c ld → l ∈ dict_keys ld.
Proof.
  intros (d & pixels & _ & Hin & _)%elem_of_check_neighborhood.
  apply list_elem_of_fmap. by exists (l, pixels).
Qed.

Lemma max_key_ge (ld : list (Z * list (Z * Z))) (k : Z) :
  k ∈ dict_keys ld → k ≤ max_key ld.
Proof.
  unfold max_key. intros Hk.
  destruct (py_max id (dict_keys ld)) as [m|] eqn:Hmax.
  - apply py_max_first in Hmax as (l1 & l2 & Hl & H1 & H2). simpl.
    rewrite Hl in Hk. apply elem_of_app in Hk as [Hk|[->|Hk]%elem_of_cons].
    + specialize (H1 _ Hk). unfold id in H1. lia.
    + done.
    + exact (H2 _ Hk).
  - apply py_max_None in Hmax. rewrite Hmax in Hk. by apply elem_of_nil in Hk.
Qed.

Lemma all_pixels_app (d1 d2 : list (Z * list (Z * Z))) :
  all_pixels (d1 ++ d2) = all_pixels d1 ++ all_pixels d2.
Proof. apply bind_app. Qed.

Lemma all_pixels_cons (k : Z) (pixels : list (Z * Z)) (d : list (Z * list (Z * Z))) :
  all_pixels ((k, pixels) :: d) = pixels ++ all_pixels d.
Proof. done. Qed.

Lemma elem_of_all_pixels (d : list (Z * list (Z * Z))) (c : Z * Z) :
  c ∈ all_pixels d ↔ ∃ k pixels, (k, pixels) ∈ d ∧ c ∈ pixels.
Proof.
  unfold all_pixels. rewrite list_elem_of_bind. split.
  - intros ([k pixels] & ? & ?). by exists k, pixels.
  - intros (k & pixels & ? & ?). by exists (k, pixels).
Qed.

Lemma add_pixel_keys (ld : list (Z * list (Z * Z))) (L : Z) (c : Z * Z) :
  dict_keys (add_pixel ld L c)
  = if decide (L ∈ dict_keys ld) then dict_keys ld else dict_keys ld ++ [L].
Proof. unfold add_pixel. destruct (dict_get ld L); apply dict_keys_set. Qed.

Lemma add_pixel_all_pixels (ld : list (Z * list (Z * Z))) (L : Z) (c : Z * Z) :
  all_pixels (add_pixel ld L c) ≡ₚ all_pixels ld ++ [c].
Proof.
  unfold add_pixel. destruct (dict_get ld L) as [pixels|] eqn:Hget.
  - apply dict_get_Some_split in Hget as (d1 & d2 & -> & Hd1).
    rewrite dict_set_split by done.
    rewrite !all_pixels_app, !all_pixels_cons, <- !app_assoc.
    do 2 f_equiv. apply Permutation_app_comm.
  - apply dict_get_None in Hget. rewrite dict_set_fresh by done.
    by rewrite all_pixels_app.
Qed.

Lemma add_pixel_get_ne (ld : list (Z * list (Z * Z))) (L L' : Z) (c : Z * Z) :
  L ≠ L' → dict_get (add_pixel ld L c) L' = dict_get ld L'.
Proof. intros. unfold add_pixel. destruct (dict_get ld L); by apply dict_get_set_ne. Qed.

Lemma add_pixel_get_fresh (ld : list (Z * list (Z * Z))) (L : Z) (c : Z * Z) :
  L ∉ dict_keys ld → dict_get (add_pixel ld L c) L = Some [c].
Proof.
  intros HL%dict_get_None. unfold add_pixel. rewrite HL. apply dict_get_set_eq.
Qed.

(** The label that [find_label] gives: either the least label found around
    the pixel, with the labels found recorded, or a label not yet in use. *)
Lemma find_label_spec (c : Z * Z) (ld : list (Z * list (Z * Z))) (el : list (gset Z)) :
  (∀ k, k ∈ dict_keys ld → 1 ≤ k) →
  ∃ L el',
    (find_label c ld el = (L, el'))
    ∧ 1 ≤ L
    ∧ ((L ∈ check_neighborhood c ld ∧ el' = el ++ [check_neighborhood c ld])
       ∨ ((L ∉ dict_keys ld)
          ∧ (∀ k, k ∈ dict_keys ld → k < L)
          ∧ el' = el
          ∧ check_neighborhood c ld = ∅)).
Proof.
  intros Hpos. destruct ld as [|entry ld'] eqn:Hld.
  - exists 1, el. split; [done|]. split; [lia|]. right.
    split; [by intros ?%elem_of_nil|].
    split; [by intros ? ?%elem_of_nil|]. done.
  - rewrite <- Hld in *.
    assert (find_label c ld el
            = match set_min (check_neighborhood c ld) with
              | Some m => (m, el ++ [check_neighborhood c ld])
              | None => (max_key ld + 1, el)
              end) as -> by (by rewrite Hld).
    destruct (set_min (check_neighborhood c ld)) as [m|] eqn:Hmin.
    + apply set_min_elem in Hmin. eexists _, _. split; [done|]. split.
      * by apply Hpos, check_neighborhood_keys with c.
      * by left.
    + assert (∀ k, k ∈ dict_keys ld → k < max_key ld + 1) as Hmax.
      { intros k Hk%max_key_ge. lia. }
      eexists _, _. split; [done|]. split.
      * assert (entry.1 ∈ dict_keys ld) as Hin by (rewrite Hld; left).
        specialize (Hpos _ Hin). specialize (Hmax _ Hin). lia.
      * right. split; [|split; [done|]].
        -- intros Hin%Hmax. lia.
        -- split; [done|]. by apply set_min_None.
Qed.

Section pass1.
Context {pixel : Type} `{EqDecision pixel}.
Context (image : Image pixel) (background_color : pixel).

Lemma pass1_inv_nil : pass1_inv image background_color [] ([], []).
Proof.
  split; [constructor|]. split; [by intros ? ?%elem_of_nil|].
  split; [done|]. by intros ? ? ?%elem_of_nil.
Qed.

Lemma pass1_inv_step (seen : list (Z * Z))
    (st : list (Z * list (Z * Z)) * list (gset Z)) (c : Z * Z) :
  pass1_inv image background_color seen st →
  pass1_inv image background_color (seen ++ [c])
    (label_pixel image background_color st c).
Proof.
  destruct st as [ld el]. intros (Hnodup & Hpos & Hperm & Hrec). simpl in *.
  unfold label_pixel. case_decide as Hbg.
  - split; [done|]. split; [done|]. split; [|done]. simpl.
    rewrite filter_app, filter_cons_False, filter_nil, app_nil_r; [done|].
    by intros [].
  - simpl. destruct (find_label_spec c ld el Hpos) as (L & el' & -> & HL & Hcase).
    assert (all_pixels (add_pixel ld L c)
            ≡ₚ filter (fun c => getpixel image c ≠ background_color) (seen ++ [c]))
      as Hperm'.
    { rewrite add_pixel_all_pixels, filter_app, Hperm.
      by rewrite (filter_cons_True _ c), filter_nil. }
    destruct Hcase as [[Hin ->]|(Hfresh & _ & -> & _)].
    + pose proof (check_neighborhood_keys _ _ _ Hin) as Hkey.
      split; simpl; rewrite add_pixel_keys, decide_True by done; [done|].
      split; [done|]. split; [done|].
      intros s l [Hs| ->%list_elem_of_singleton]%elem_of_app Hl; [by eapply Hrec|].
      by eapply check_neighborhood_keys.
    + split; simpl; rewrite add_pixel_keys, decide_False by done.
      * apply NoDup_app. split; [done|]. split; [|apply NoDup_singleton].
        intros k Hk ->%list_elem_of_singleton. done.
      * split.
        -- intros k [Hk| ->%list_elem_of_singleton]%elem_of_app; [auto|done].
        -- split; [done|]. intros s l Hs Hl. apply elem_of_app. left.
           by eapply Hrec.
Qed.

Lemma pass1_inv_fold (l seen : list (Z * Z))
    (st : list (Z * list (Z * Z)) * list (gset Z)) :
  pass1_inv image background_color seen st →
  pass1_inv image background_color (seen ++ l)
    (foldl (label_pixel image background_color) st l).
Proof.
  revert seen st. induction l as [|c l IH]; intros seen st Hinv; simpl.
  - by rewrite app_nil_r.
  - replace (seen ++ c :: l) with ((seen ++ [c]) ++ l) by (by rewrite <- app_assoc).
    by apply IH, pass1_inv_step.
Qed.

Lemma first_pass_inv :
  pass1_inv image background_color (scan_order image)
    (first_pass image background_color).
Proof. apply (pass1_inv_fold _ []), pass1_inv_nil. Qed.
End pass1.

Lemma length_range (n : nat) : length (range n) = n.
Proof. unfold range. by rewrite length_fmap, length_seq. Qed.

Lemma foldl_ext_in {A B : Type} (f g : A → B → A) (l : list B) (a : A) :
  (∀ a' x, x ∈ l → f a' x = g a' x) → foldl f a l = foldl g a l.
Proof.
  revert a. induction l as [|x l IH]; intros a Hfg; simpl; [done|].
  rewrite Hfg by left. apply IH. intros a' y Hy. apply Hfg. by right.
Qed.

(** ** WP3 on a uniform image, and determinism *)

Section uniform.
Context {pixel : Type} `{EqDecision pixel}.

Lemma first_pass_uniform (image : Image pixel) (background_color : pixel) :
  (∀ c, in_image image c → getpixel image c = background_color) →
  first_pass image background_color = ([], []).
Proof.
  intros Hbg. unfold first_pass.
  assert (∀ l st, (∀ c, c ∈ l → in_image image c) →
                  foldl (label_pixel image background_color) st l = st) as Hfold.
  { induction l as [|c l IH]; intros st Hl; simpl; [done|].
    unfold label_pixel at 2. rewrite decide_True by (apply Hbg, Hl; left).
    apply IH. intros c' Hc'. apply Hl. by right. }
  apply Hfold. intros c. apply elem_of_scan_order.
Qed.

(** C9. When every pixel of the image has the value given as background,
    [find_sprites] returns no sprite and a label map of [height] rows of
    [width] zeros. *)
Theorem find_sprites_uniform (image : Image pixel) (background_color : pixel) :
  (∀ c, in_image image c → getpixel image c = background_color) →
  find_sprites image (Some background_color)
  = Ok ([], replicate (img_height image) (replicate (img_width image) 0)).
Proof.
  intros Hbg. unfold find_sprites, create_labelled_dict. simpl.
  rewrite first_pass_uniform by done. simpl. do 2 f_equal.
  unfold create_label_map, cell_label. simpl.
  rewrite (const_fmap _ _ (replicate (img_width image) 0)), length_range; [done|].
  intros _ y _. by rewrite (const_fmap _ _ 0), length_range.
Qed.

(** C10. The outcome of [find_sprites] with an explicit background is a
    function of the width, the height and the pixel values inside the
    canvas: two image objects that agree on these give the same sprites and
    the same label map, or raise the same exception. *)
Theorem find_sprites_deterministic (image1 image2 : Image pixel)
    (background_color : pixel) :
  img_width image1 = img_width image2 →
  img_height image1 = img_height image2 →
  (∀ c, in_image image1 c → getpixel image1 c = getpixel image2 c) →
  find_sprites image1 (Some background_color)
  = find_sprites image2 (Some background_color).
Proof.
  intros Hw Hh Hpix.
  assert (scan_order image1 = scan_order image2) as Hscan.
  { unfold scan_order. by rewrite Hw, Hh. }
  assert (first_pass image1 background_color = first_pass image2 background_color)
    as Hpass.
  { unfold first_pass. rewrite <- Hscan. apply foldl_ext_in.
    intros st c Hc%elem_of_scan_order. unfold label_pixel. by rewrite Hpix. }
  unfold find_sprites, create_labelled_dict, create_label_map. simpl.
  by rewrite Hpass, Hw, Hh.
Qed.
End uniform.

Lemma find_sprites_uniform_witness :
  find_sprites all_fours (Some 4) = Ok ([], [[0; 0]; [0; 0]]).
Proof.
  apply (find_sprites_uniform all_fours 4).
  intros [x y] [Hx Hy]. simpl in *.
  assert (x = 0 ∨ x = 1) as [-> | ->] by lia;
    assert (y = 0 ∨ y = 1) as [-> | ->] by lia; reflexivity.
Defined.

Lemma find_sprites_deterministic_witness :
  find_sprites pair_of_pixels (Some 0) = find_sprites pair_of_nines (Some 0).
Proof.
  apply (find_sprites_deterministic pair_of_pixels pair_of_nines 0).
  - reflexivity.
  - reflexivity.
  - intros [x y] [Hx Hy]. simpl in *.
    assert (x = 0 ∨ x = 1) as [-> | ->] by lia;
      assert (y = 0) as -> by lia; reflexivity.
Defined.

(** ** Pass 2 *)

Lemma for_each_cons {A S : Type} (body : S → A → result S) (x : A) (xs : list A)
    (st : S) :
  for_each body (x :: xs) st
  = match body st x with
    | Ok st' => for_each body xs st'
    | Raise e => Raise e
    end.
Proof. done. Qed.

Lemma for_each_inv {A S : Type} (P : S → Prop) (body : S → A → result S)
    (xs : list A) (st st' : S) :
  (∀ s x s', x ∈ xs → P s → body s x = Ok s' → P s') →
  P st → for_each body xs st = Ok st' → P st'.
Proof.
  revert st. induction xs as [|x xs IH]; intros st Hbody Hst.
  - by intros [= <-].
  - rewrite for_each_cons. destruct (body st x) as [s1|e] eqn:Hx; [|done].
    apply IH.
    + intros s y s' Hy. apply Hbody. by right.
    + apply (Hbody st x); [left|done..].
Qed.

(** The last loop of [update_label] raises nothing but [KeyError]. *)
Lemma merge_label_cases (equivalence_dict : list (Z * Z))
    (ld : list (Z * list (Z * Z))) (k : Z) :
  (∃ ld', merge_label equivalence_dict ld k = Ok ld'
          ∧ is_Some (dict_get equivalence_dict k))
  ∨ ∃ key, merge_label equivalence_dict ld k = Raise (KeyError key).
Proof.
  unfold merge_label. destruct (dict_get equivalence_dict k) as [r|]; [|right; by eexists].
  case_decide; [left; by eexists|].
  destruct (dict_get ld r); [|right; by eexists].
  destruct (dict_get ld k); [left|right]; by eexists.
Qed.

Lemma merge_labels_unbound (equivalence_dict : list (Z * Z)) (L : Z)
    (ks : list Z) (ld : list (Z * list (Z * Z))) :
  dict_get equivalence_dict L = None → L ∈ ks →
  ∃ key, for_each (merge_label equivalence_dict) ks ld = Raise (KeyError key).
Proof.
  intros HL. revert ld. induction ks as [|k ks IH]; intros ld Hin.
  - by apply elem_of_nil in Hin.
  - rewrite for_each_cons.
    destruct (merge_label_cases equivalence_dict ld k)
      as [(ld' & -> & Hsome)|(key & ->)]; [|by exists key].
    apply elem_of_cons in Hin as [->|Hin]; [|by apply IH].
    rewrite HL in Hsome. by destruct Hsome.
Qed.

Lemma record_set_inv (L label : Z) (st : list (gset Z) * list (Z * nat)) (j : nat) :
  records_inv L st → records_inv L (record_set label st j).
Proof.
  destruct st as [store ed]. intros (Hstore & Hed & Hbound). unfold record_set.
  simpl in *. destruct (store !! j) as [sets|] eqn:Hj; [|done].
  case_bool_decide as Hin; [|done].
  assert (label ≠ L) as Hne by (intros ->; by eapply Hstore).
  destruct (dict_get ed label) as [i|] eqn:Hget.
  - split; [|split; [done|]]; simpl.
    + intros j' s [(-> & <- & Hlt)|[_ Hs]]%list_lookup_insert_Some; [|by eapply Hstore].
      destruct (store !! j') as [s'|] eqn:Hs'; simpl.
      * apply not_elem_of_union. split; [by eapply Hstore|by eapply Hstore].
      * apply not_elem_of_union. split; [set_solver|by eapply Hstore].
    + intros k i' (s & Hs & Hk)%Hbound. destruct (decide (i = i')) as [->|Hii].
      * exists (s ∪ sets). rewrite Hs. simpl. split; [|set_solver].
        apply list_lookup_insert_eq. by eapply lookup_lt_Some.
      * exists s. by rewrite list_lookup_insert_ne.
  - apply dict_get_None in Hget. rewrite dict_set_fresh by done.
    split; [done|]. simpl. split.
    + unfold dict_keys. rewrite fmap_app, not_elem_of_app. split; [done|].
      simpl. by intros ->%list_elem_of_singleton.
    + intros k i [?|[= -> ->]%list_elem_of_singleton]%elem_of_app; [auto|].
      by exists sets.
Qed.

Lemma record_label_inv (L : Z) (st : list (gset Z) * list (Z * nat)) (label : Z) :
  records_inv L st → records_inv L (record_label st label).
Proof.
  unfold record_label. generalize (seq 0 (length st.1)). intros js. revert st.
  induction js as [|j js IH]; intros st Hst; simpl; [done|].
  by apply IH, record_set_inv.
Qed.

Lemma record_labels_inv (L : Z) (labels : list Z)
    (st : list (gset Z) * list (Z * nat)) :
  records_inv L st → records_inv L (foldl record_label st labels).
Proof.
  revert st. induction labels as [|label labels IH]; intros st Hst; simpl; [done|].
  by apply IH, record_label_inv.
Qed.

(** The second loop of [update_label] takes the minimum of a non-empty set
    for each bound label, and binds no other label. *)
Lemma reduce_entries (L : Z) (store : list (gset Z)) (positions : list (Z * nat))
    (acc : list (Z * Z)) :
  (∀ k i, (k, i) ∈ positions → ∃ s, store !! i = Some s ∧ k ∈ s) →
  L ∉ dict_keys positions →
  dict_get acc L = None →
  ∃ equivalence_dict,
    for_each (reduce_entry store) positions acc = Ok equivalence_dict
    ∧ dict_get equivalence_dict L = None.
Proof.
  revert acc. induction positions as [|[k i] positions IH]; intros acc Hbound HL Hacc.
  - by exists acc.
  - rewrite for_each_cons. unfold reduce_entry at 1. simpl.
    destruct (Hbound k i) as (s & -> & Hk); [left|]. simpl.
    destruct (set_min_is_Some s k Hk) as [m ->].
    simpl in HL. apply not_elem_of_cons in HL as [Hne HL].
    apply IH; [|done|].
    + intros k' i' Hin. apply Hbound. by right.
    + by rewrite dict_get_set_ne.
Qed.

Lemma update_label_unrecorded (ld : list (Z * list (Z * Z))) (el : list (gset Z))
    (L : Z) :
  L ∈ dict_keys ld → (∀ s, s ∈ el → L ∉ s) →
  ∃ key, update_label ld el = Raise (KeyError key).
Proof.
  intros Hkey Hrec. unfold update_label.
  assert (records_inv L (el, [])) as Hinit.
  { split; [|split]; simpl.
    - intros j s Hs. by eapply Hrec, list_elem_of_lookup_2.
    - by intros ?%elem_of_nil.
    - by intros ? ? ?%elem_of_nil. }
  apply (record_labels_inv L (dict_keys ld)) in Hinit.
  destruct (foldl record_label (el, []) (dict_keys ld)) as [store positions].
  destruct Hinit as (_ & HL & Hbound). simpl in *.
  destruct (reduce_entries L store positions [] Hbound HL eq_refl)
    as (equivalence_dict & -> & Hunbound).
  by apply merge_labels_unbound with L.
Qed.

(** ** A component of one pixel *)

Lemma direction_opposite (p q d : Z * Z) :
  d ∈ directions → shift q d = p → ∃ d', d' ∈ directions ∧ shift p d' = q.
Proof.
  intros Hd <-. exists (- d.1, - d.2). split.
  - unfold directions in *.
    repeat (apply elem_of_cons in Hd as [->|Hd]); simpl;
      [set_solver.. | by apply elem_of_nil in Hd].
  - destruct q as [x y]. unfold shift. simpl. f_equal; lia.
Qed.

Section isolated_pixel.
Context {pixel : Type} `{EqDecision pixel}.
Context (image : Image pixel) (background_color : pixel) (p : Z * Z).
Hypothesis Hisolated : isolated image background_color p.

(** No foreground pixel of the image has [p] among its neighbours. *)
Lemma isolated_no_neighbour (q d : Z * Z) :
  in_image image q → getpixel image q ≠ background_color →
  d ∈ directions → shift q d ≠ p.
Proof.
  intros Hq Hfg Hd Hshift.
  destruct (direction_opposite p q d Hd Hshift) as (d' & Hd' & <-).
  destruct Hisolated as (_ & _ & Hbg). by apply Hfg, Hbg.
Qed.

(** Once [p] holds a label of its own that no record mentions, the rest of
    the scan leaves it so. *)
Lemma isolated_label_kept (L : Z) (post seen : list (Z * Z))
    (st : list (Z * list (Z * Z)) * list (gset Z)) :
  (∀ q, q ∈ post → in_image image q) →
  pass1_inv image background_color seen st →
  dict_get st.1 L = Some [p] →
  (∀ s, s ∈ st.2 → L ∉ s) →
  let st' := foldl (label_pixel image background_color) st post in
  dict_get st'.1 L = Some [p] ∧ (∀ s, s ∈ st'.2 → L ∉ s).
Proof.
  revert seen st. induction post as [|q post IH]; intros seen st Hpost Hinv Hget Hrec.
  - done.
  - simpl. apply (IH (seen ++ [q])).
    + intros q' Hq'. apply Hpost. by right.
    + by apply pass1_inv_step.
    + unfold label_pixel. case_decide as Hbg; [done|].
      destruct Hinv as (Hnodup & Hpos & _ & _).
      destruct (find_label_spec q st.1 st.2 Hpos) as (L' & el' & -> & _ & Hcase).
      simpl. rewrite add_pixel_get_ne; [done|]. intros ->.
      destruct Hcase as [[Hin _]|(Hfresh & _)].
      * apply elem_of_check_neighborhood in Hin as (d & pixels & Hd & Hin & Hshift).
        apply elem_of_dict_get in Hin; [|done].
        rewrite Hget in Hin. injection Hin as <-.
        apply list_elem_of_singleton in Hshift.
        eapply isolated_no_neighbour; [|done..]. apply Hpost. left.
      * by eapply Hfresh, dict_get_Some_key.
    + unfold label_pixel. case_decide as Hbg; [done|].
      destruct Hinv as (Hnodup & Hpos & _ & _).
      destruct (find_label_spec q st.1 st.2 Hpos) as (L' & el' & -> & _ & Hcase).
      simpl. destruct Hcase as [[_ ->]|(_ & _ & -> & _)]; [|done].
      intros s [Hs| ->%list_elem_of_singleton]%elem_of_app; [auto|].
      intros (d & pixels & Hd & Hin & Hshift)%elem_of_check_neighborhood.
      apply elem_of_dict_get in Hin; [|done].
      rewrite Hget in Hin. injection Hin as <-.
      apply list_elem_of_singleton in Hshift.
      eapply isolated_no_neighbour; [|done..]. apply Hpost. left.
Qed.
End isolated_pixel.

Section isolated_pixel_raises.
Context {pixel : Type} `{EqDecision pixel}.
Context (image : Image pixel) (background_color : pixel) (p : Z * Z).
Hypothesis Hisolated : isolated image background_color p.

(** After pass 1 the pixel [p] is alone under its label and no record
    mentions that label. *)
Lemma first_pass_isolated :
  ∃ L, dict_get (first_pass image background_color).1 L = Some [p]
       ∧ ∀ s, s ∈ (first_pass image background_color).2 → L ∉ s.
Proof.
  pose proof Hisolated as (Hp & Hfg & Hbg).
  pose proof (proj2 (elem_of_scan_order image p) Hp) as Hin.
  apply list_elem_of_split in Hin as (pre & post & Hscan).
  assert (∀ q, q ∈ pre ++ p :: post → in_image image q) as Hrange.
  { intros q. rewrite <- Hscan. apply elem_of_scan_order. }
  unfold first_pass. rewrite Hscan, foldl_app. simpl.
  pose proof (pass1_inv_fold image background_color pre [] ([], [])
                (pass1_inv_nil image background_color)) as Hinv.
  simpl in Hinv.
  set (st1 := foldl (label_pixel image background_color) ([], []) pre) in *.
  pose proof Hinv as (Hnodup & Hpos & Hperm & Hrec).
  destruct (find_label_spec p st1.1 st1.2 Hpos) as (L & el' & Hlabel & _ & Hcase).
  assert (label_pixel image background_color st1 p = (add_pixel st1.1 L p, el'))
    as Hstep.
  { unfold label_pixel. rewrite decide_False by done. by rewrite Hlabel. }
  destruct Hcase as [[Hnb _]|(Hfresh & _ & -> & _)].
  - exfalso.
    apply elem_of_check_neighborhood in Hnb as (d & pixels & Hd & Hentry & Hshift).
    assert (shift p d ∈ all_pixels st1.1) as Hall.
    { apply elem_of_all_pixels. by exists L, pixels. }
    rewrite Hperm in Hall. apply list_elem_of_filter in Hall as [Hfg' Hseen].
    apply Hfg', Hbg; [done|]. apply Hrange, elem_of_app. by left.
  - exists L.
    apply (isolated_label_kept image background_color p Hisolated L post
             (pre ++ [p])).
    + intros q Hq. apply Hrange, elem_of_app. right. by right.
    + by apply pass1_inv_step.
    + rewrite Hstep. simpl. by apply add_pixel_get_fresh.
    + rewrite Hstep. simpl. intros s Hs Hin. by eapply Hfresh, Hrec.
Qed.

(** C3. When some foreground pixel has no foreground pixel among its eight
    neighbours, pass 1 leaves it alone under a label that no equivalence
    record holds, and [find_sprites] raises [KeyError]: pass 2 looks a label
    up in a dictionary that does not have it, and nothing is returned. *)
Theorem find_sprites_isolated_pixel :
  (∃ L, dict_get (first_pass image background_color).1 L = Some [p]
        ∧ ∀ s, s ∈ (first_pass image background_color).2 → L ∉ s)
  ∧ ∃ key, find_sprites image (Some background_color) = Raise (KeyError key).
Proof.
  split; [apply first_pass_isolated|].
  destruct first_pass_isolated as (L & Hget & Hrec).
  unfold find_sprites, create_labelled_dict. simpl.
  destruct (first_pass image background_color) as [ld el]. simpl in *.
  destruct (update_label_unrecorded ld el L) as [key ->]; [|done|by exists key].
  by eapply dict_get_Some_key.
Qed.
End isolated_pixel_raises.

Lemma find_sprites_isolated_pixel_witness :
  (∃ L, dict_get (first_pass two_dots 0).1 L = Some [(2, 2)]
        ∧ ∀ s, s ∈ (first_pass two_dots 0).2 → L ∉ s)
  ∧ ∃ key, find_sprites two_dots (Some 0) = Raise (KeyError key).
Proof.
  apply (find_sprites_isolated_pixel two_dots 0 (2, 2)).
  split; [|split].
  - vm_compute. repeat split; discriminate.
  - discriminate.
  - intros d Hd. unfold directions in Hd.
    repeat (apply elem_of_cons in Hd as [->|Hd]);
      [try reflexivity; (intros [[? ?] [? ?]]; simpl in *; lia).. |].
    by apply elem_of_nil in Hd.
Defined.

(** ** Pass 2 keeps the pixels *)

Lemma merge_label_Ok (equivalence_dict : list (Z * Z))
    (ld ld' : list (Z * list (Z * Z))) (k : Z) :
  merge_label equivalence_dict ld k = Ok ld' →
  ld' = ld
  ∨ ∃ r target pixels,
      r ≠ k ∧ dict_get ld r = Some target ∧ dict_get ld k = Some pixels
      ∧ ld' = dict_del (dict_set ld r (target ++ pixels)) k.
Proof.
  unfold merge_label. destruct (dict_get equivalence_dict k) as [r|]; [|done].
  case_decide as Hr; [intros [= <-]; by left|].
  destruct (dict_get ld r) as [target|] eqn:Hget_r; [|done].
  destruct (dict_get ld k) as [pixels|] eqn:Hget_k; [|done].
  intros [= <-]. right. by exists r, target, pixels.
Qed.

Lemma merge_entry_keeps (ld : list (Z * list (Z * Z))) (r k : Z)
    (target pixels : list (Z * Z)) :
  r ≠ k → dict_get ld r = Some target → dict_get ld k = Some pixels →
  NoDup (dict_keys ld) →
  NoDup (dict_keys (dict_del (dict_set ld r (target ++ pixels)) k))
  ∧ (∀ x, x ∈ dict_keys (dict_del (dict_set ld r (target ++ pixels)) k) →
          x ∈ dict_keys ld)
  ∧ all_pixels (dict_del (dict_set ld r (target ++ pixels)) k) ≡ₚ all_pixels ld.
Proof.
  intros Hne Hr Hk Hnodup.
  assert (dict_get (dict_set ld r (target ++ pixels)) k = Some pixels) as Hk'
    by (by rewrite dict_get_set_ne).
  assert (dict_keys (dict_set ld r (target ++ pixels)) = dict_keys ld) as Hkeys.
  { rewrite dict_keys_set, decide_True; [done|]. by eapply dict_get_Some_key. }
  assert (all_pixels (dict_set ld r (target ++ pixels)) ≡ₚ all_pixels ld ++ pixels)
    as Hall.
  { apply dict_get_Some_split in Hr as (d1 & d2 & -> & Hd1).
    rewrite dict_set_split by done.
    rewrite !all_pixels_app, !all_pixels_cons, <- !app_assoc.
    do 2 f_equiv. apply Permutation_app_comm. }
  apply dict_keys_del in Hk' as (e1 & e2 & Hsplit & ->).
  assert (dict_keys ld = dict_keys e1 ++ k :: dict_keys e2) as Hld.
  { rewrite <- Hkeys, Hsplit. unfold dict_keys. by rewrite fmap_app. }
  assert (dict_keys (e1 ++ e2) = dict_keys e1 ++ dict_keys e2) as ->.
  { unfold dict_keys. by rewrite fmap_app. }
  rewrite Hld in Hnodup |- *. rewrite Hsplit in Hall.
  split; [|split].
  - apply NoDup_app in Hnodup as (H1 & Hdisj & [_ H2]%NoDup_cons).
    apply NoDup_app. split; [done|]. split; [|done].
    intros x Hx Hx2. apply (Hdisj x Hx). by right.
  - intros x [?|?]%elem_of_app; apply elem_of_app; [by left|right; by right].
  - rewrite all_pixels_app, all_pixels_cons in Hall.
    rewrite all_pixels_app. apply (Permutation_app_inv_r pixels).
    rewrite <- Hall, <- !app_assoc. f_equiv. apply Permutation_app_comm.
Qed.

Lemma update_label_keeps (ld ld' : list (Z * list (Z * Z))) (el : list (gset Z)) :
  NoDup (dict_keys ld) → update_label ld el = Ok ld' →
  NoDup (dict_keys ld')
  ∧ (∀ k, k ∈ dict_keys ld' → k ∈ dict_keys ld)
  ∧ all_pixels ld' ≡ₚ all_pixels ld.
Proof.
  intros Hnodup. unfold update_label.
  destruct (foldl record_label (el, []) (dict_keys ld)) as [store positions].
  destruct (for_each (reduce_entry store) positions []) as [equivalence_dict|e];
    [|done].
  simpl. apply (for_each_inv (fun d => NoDup (dict_keys d)
    ∧ (∀ k, k ∈ dict_keys d → k ∈ dict_keys ld) ∧ all_pixels d ≡ₚ all_pixels ld)).
  - intros d k d' _ (Hd1 & Hd2 & Hd3)
      [->|(r & target & pixels & Hne & Hr & Hk & ->)]%merge_label_Ok; [done|].
    destruct (merge_entry_keeps d r k target pixels) as (H1 & H2 & H3); [done..|].
    split; [done|]. split; [auto|]. by rewrite H3.
  - done.
Qed.

(** ** The sprites and the label map *)

Lemma build_sprite_keys (sprites sprites' : list (Z * Sprite)) (k : Z)
    (pixels : list (Z * Z)) :
  build_sprite sprites (k, pixels) = Ok sprites' → k ∉ dict_keys sprites →
  dict_keys sprites' = dict_keys sprites ++ [k].
Proof.
  unfold build_sprite.
  destruct (py_min fst pixels), (py_max fst pixels), (py_min snd pixels),
    (py_max snd pixels); try done.
  destruct (Sprite_init _ _ _ _ _) as [sprite|]; [|done]. simpl.
  intros [= <-] Hk. by rewrite dict_keys_set, decide_False.
Qed.

Lemma build_sprites_keys (ld : list (Z * list (Z * Z)))
    (acc sprites : list (Z * Sprite)) :
  NoDup (dict_keys acc ++ dict_keys ld) →
  for_each build_sprite ld acc = Ok sprites →
  dict_keys sprites = dict_keys acc ++ dict_keys ld.
Proof.
  revert acc. induction ld as [|[k pixels] ld IH]; intros acc Hnodup.
  - intros [= <-]. simpl. by rewrite app_nil_r.
  - rewrite for_each_cons.
    destruct (build_sprite acc (k, pixels)) as [acc'|] eqn:Hbuild; [|done].
    simpl in Hnodup. pose proof Hnodup as (_ & Hdisj & _)%NoDup_app.
    apply build_sprite_keys in Hbuild; [|intros Hk; apply (Hdisj k Hk); left].
    intros Hrest. apply IH in Hrest.
    + rewrite Hrest, Hbuild, <- app_assoc. done.
    + rewrite Hbuild, <- app_assoc. done.
Qed.

Lemma lookup_range (n i : nat) :
  range n !! i = if decide (i < n)%nat then Some (Z.of_nat i) else None.
Proof.
  unfold range. rewrite list_lookup_fmap. case_decide.
  - by rewrite lookup_seq_lt.
  - rewrite lookup_seq_ge; [done|lia].
Qed.

Lemma map_cell_create_label_map {pixel : Type} (ld : list (Z * list (Z * Z)))
    (image : Image pixel) (c : Z * Z) :
  map_cell (create_label_map ld image) c
  = if decide (in_image image c) then Some (cell_label ld c) else None.
Proof.
  unfold map_cell, create_label_map, in_image. destruct c as [x y]. simpl.
  case_decide as Hnonneg.
  - rewrite list_lookup_fmap, lookup_range. case_decide as Hy; simpl.
    + rewrite list_lookup_fmap, lookup_range. case_decide as Hx; simpl.
      * rewrite decide_True by lia. by rewrite !Z2Nat.id by lia.
      * rewrite decide_False by lia. done.
    + rewrite decide_False by lia. done.
  - rewrite decide_False by lia. done.
Qed.

Lemma cell_label_snoc (ld : list (Z * list (Z * Z))) (entry : Z * list (Z * Z))
    (c : Z * Z) :
  cell_label (ld ++ [entry]) c
  = if bool_decide (c ∈ entry.2) then entry.1 else cell_label ld c.
Proof. unfold cell_label. by rewrite foldl_app. Qed.

(** A cell holds the label of the last list that has its coordinate, and 0
    when no list has it. *)
Lemma cell_label_spec (ld : list (Z * list (Z * Z))) (c : Z * Z) :
  (cell_label ld c = 0 ∧ ∀ k pixels, (k, pixels) ∈ ld → c ∉ pixels)
  ∨ ∃ k pixels, (k, pixels) ∈ ld ∧ c ∈ pixels ∧ cell_label ld c = k.
Proof.
  induction ld as [|[k pixels] ld IH] using rev_ind.
  - left. split; [done|]. by intros ? ? ?%elem_of_nil.
  - rewrite cell_label_snoc. simpl. case_bool_decide as Hin.
    + right. exists k, pixels. split; [|done]. apply elem_of_app. right. left.
    + destruct IH as [[H0 Hnone]|(k' & pixels' & Hentry & Hc & Hcell)].
      * left. split; [done|].
        intros k' pixels' [?|[= -> ->]%list_elem_of_singleton]%elem_of_app;
          [by eapply Hnone|done].
      * right. exists k', pixels'. split; [|done]. apply elem_of_app. by left.
Qed.

(** With pixel lists that share no coordinate, a coordinate is in one entry
    at most. *)
Lemma pixels_unique (ld : list (Z * list (Z * Z))) (e1 e2 : Z * list (Z * Z))
    (c : Z * Z) :
  NoDup (all_pixels ld) → e1 ∈ ld → e2 ∈ ld → c ∈ e1.2 → c ∈ e2.2 → e1 = e2.
Proof.
  induction ld as [|[k pixels] ld IH]; [by intros _ ?%elem_of_nil|].
  rewrite all_pixels_cons. intros (Hpix & Hdisj & Hrest)%NoDup_app.
  assert (∀ e, e ∈ ld → c ∈ e.2 → c ∈ all_pixels ld) as Hall.
  { intros [k' ps] ? ?. apply elem_of_all_pixels. by exists k', ps. }
  intros [->|H1]%elem_of_cons [->|H2]%elem_of_cons Hc1 Hc2; simpl in *.
  - done.
  - exfalso. by eapply Hdisj, Hall.
  - exfalso. by eapply Hdisj, Hall.
  - by apply IH.
Qed.

Section label_map.
Context {pixel : Type} `{EqDecision pixel}.

(** What pass 1 and pass 2 together guarantee of the components, when pass 2
    returns. *)
Lemma create_labelled_dict_components (image : Image pixel) (background_color : pixel)
    (ld : list (Z * list (Z * Z))) :
  create_labelled_dict image background_color = Ok ld →
  NoDup (dict_keys ld)
  ∧ (∀ k, k ∈ dict_keys ld → 1 ≤ k)
  ∧ NoDup (all_pixels ld)
  ∧ (∀ c, c ∈ all_pixels ld ↔
          in_image image c ∧ getpixel image c ≠ background_color).
Proof.
  unfold create_labelled_dict.
  pose proof (first_pass_inv image background_color) as (Hnodup & Hpos & Hperm & _).
  destruct (first_pass image background_color) as [ld0 el]. simpl in *.
  intros (Hnodup' & Hsub & Hperm')%update_label_keeps; [|done].
  rewrite Hperm in Hperm'.
  split; [done|]. split; [auto|]. split.
  - rewrite Hperm'. apply NoDup_filter, NoDup_scan_order.
  - intros c. rewrite Hperm', list_elem_of_filter, elem_of_scan_order. tauto.
Qed.

(** C5. In the label map that [find_sprites] returns, every cell holds 0 or
    the label of one of the returned sprites, and the cells that hold a label
    are exactly the coordinates of that label's pixel list; no coordinate is
    in the lists of two labels. *)
Theorem label_map_matches_components (image : Image pixel)
    (background_color : option pixel) (sprites : list (Z * Sprite))
    (label_map : list (list Z)) :
  find_sprites image background_color = Ok (sprites, label_map) →
  ∃ bg ld,
    match background_color with
    | Some c => bg = c
    | None => find_most_common_color (as_object image) = Ok bg
    end
    ∧ create_labelled_dict image bg = Ok ld
    ∧ dict_keys sprites = dict_keys ld
    ∧ (∀ c, in_image image c →
            ∃ v, map_cell label_map c = Some v ∧ (v = 0 ∨ v ∈ dict_keys sprites))
    ∧ (∀ L pixels, dict_get ld L = Some pixels →
         L ≠ 0 ∧ ∀ c, c ∈ pixels ↔ map_cell label_map c = Some L)
    ∧ (∀ L1 L2 pixels1 pixels2 c,
         dict_get ld L1 = Some pixels1 → dict_get ld L2 = Some pixels2 →
         c ∈ pixels1 → c ∈ pixels2 → L1 = L2).
Proof.
  unfold find_sprites. intros Hrun.
  assert (∃ bg, match background_color with
                | Some c => bg = c
                | None => find_most_common_color (as_object image) = Ok bg
                end
                ∧ (ld ← create_labelled_dict image bg;
                   sprites ← for_each build_sprite ld [];
                   Ok (sprites, create_label_map ld image))
                  = Ok (sprites, label_map)) as (bg & Hbg & Hrun').
  { destruct background_color as [c|]; [by exists c|].
    destruct (find_most_common_color (as_object image)) as [bg|]; [|done].
    by exists bg. }
  clear Hrun. exists bg.
  destruct (create_labelled_dict image bg) as [ld|] eqn:Hld; [|done].
  simpl in Hrun'.
  destruct (for_each build_sprite ld []) as [sprites'|] eqn:Hsprites; [|done].
  simpl in Hrun'. injection Hrun' as -> <-.
  apply create_labelled_dict_components in Hld as (Hnodup & Hpos & Hpix & Hall).
  apply build_sprites_keys in Hsprites; [|done]. simpl in Hsprites.
  exists ld. split; [done|]. split; [done|]. split; [done|]. split; [|split].
  - intros c Hc. rewrite map_cell_create_label_map, decide_True by done.
    eexists. split; [done|].
    destruct (cell_label_spec ld c) as [[-> _]|(k & ps & Hentry & _ & ->)]; [by left|].
    right. rewrite Hsprites. apply list_elem_of_fmap. by exists (k, ps).
  - intros L pixels Hget. split.
    { apply dict_get_Some_key, Hpos in Hget. lia. }
    intros c. rewrite map_cell_create_label_map.
    pose proof (dict_get_elem_of _ _ _ Hget) as Hentry. split.
    + intros Hc.
      assert (in_image image c) as Hin.
      { apply Hall, elem_of_all_pixels. by exists L, pixels. }
      rewrite decide_True by done. f_equal.
      destruct (cell_label_spec ld c) as [[_ Hnone]|(k & ps & Hentry' & Hc' & ->)].
      * by destruct (Hnone L pixels).
      * by injection (pixels_unique ld (k, ps) (L, pixels) c Hpix Hentry' Hentry Hc' Hc).
    + case_decide; [|done]. intros [= Hcell].
      destruct (cell_label_spec ld c) as [[H0 _]|(k & ps & Hentry' & Hc' & Hk)].
      * apply dict_get_Some_key, Hpos in Hget. lia.
      * rewrite Hcell in Hk. subst k.
        apply elem_of_dict_get in Hentry'; [|done]. by simplify_eq.
  - intros L1 L2 pixels1 pixels2 c H1%dict_get_elem_of H2%dict_get_elem_of Hc1 Hc2.
    by injection (pixels_unique ld _ _ c Hpix H1 H2 Hc1 Hc2).
Qed.
End label_map.

Lemma label_map_matches_components_witness :
  ∃ bg ld,
    bg = 0
    ∧ create_labelled_dict pair_of_pixels bg = Ok ld
    ∧ dict_keys [(1, mkSprite 1 (0, 0) (1, 0) 2 1)] = dict_keys ld
    ∧ (∀ c, in_image pair_of_pixels c →
            ∃ v, map_cell [[1; 1]] c = Some v
                 ∧ (v = 0 ∨ v ∈ dict_keys [(1, mkSprite 1 (0, 0) (1, 0) 2 1)]))
    ∧ (∀ L pixels, dict_get ld L = Some pixels →
         L ≠ 0 ∧ ∀ c, c ∈ pixels ↔ map_cell [[1; 1]] c = Some L)
    ∧ (∀ L1 L2 pixels1 pixels2 c,
         dict_get ld L1 = Some pixels1 → dict_get ld L2 = Some pixels2 →
         c ∈ pixels1 → c ∈ pixels2 → L1 = L2).
Proof.
  apply (label_map_matches_components pair_of_pixels (Some 0)
           [(1, mkSprite 1 (0, 0) (1, 0) 2 1)] [[1; 1]]).
  vm_compute. reflexivity.
Defined.

(** ** Grayscale images: the tie-break of [find_most_common_color] *)

Lemma histogram_nonneg (pixels : list Z) (v : Z) : 0 ≤ histogram pixels v.
Proof. unfold histogram. lia. Qed.

Lemma histogram_pos (pixels : list Z) (v : Z) : histogram pixels v ≠ 0 ↔ v ∈ pixels.
Proof.
  unfold histogram. split.
  - destruct (filter (fun u => u = v) pixels) as [|u us] eqn:Hf; [done|]. intros _.
    assert (u ∈ filter (fun u => u = v) pixels) as Hu by (rewrite Hf; left).
    by apply list_elem_of_filter in Hu as [-> ?].
  - intros Hv.
    assert (v ∈ filter (fun u => u = v) pixels) as Hin
      by (by apply list_elem_of_filter).
    destruct (filter (fun u => u = v) pixels); [by apply elem_of_nil in Hin|].
    simpl. lia.
Qed.

Lemma elem_of_histogram_entries (pixels values : list Z) (t : Z * Z) :
  t ∈ histogram_entries pixels values
  ↔ t.1 = histogram pixels t.2 ∧ t.2 ∈ pixels ∧ t.2 ∈ values.
Proof.
  unfold histogram_entries. rewrite list_elem_of_filter, list_elem_of_fmap. split.
  - intros (Hne & i & -> & Hi). simpl in *. by rewrite <- histogram_pos.
  - intros (H1 & H2 & H3). split.
    + rewrite H1. by apply histogram_pos.
    + exists t.2. split; [|done]. destruct t; simpl in *. by subst.
Qed.

Lemma histogram_entries_cons (pixels values : list Z) (i : Z) :
  histogram_entries pixels (i :: values)
  = if decide (histogram pixels i ≠ 0)
    then (histogram pixels i, i) :: histogram_entries pixels values
    else histogram_entries pixels values.
Proof. unfold histogram_entries. rewrite fmap_cons, filter_cons. done. Qed.

Lemma histogram_entries_NoDup (pixels values : list Z) :
  NoDup values → NoDup (histogram_entries pixels values).*2.
Proof.
  induction 1 as [|i values Hi Hnodup IH].
  - constructor.
  - rewrite histogram_entries_cons. case_decide; [|done].
    rewrite fmap_cons. apply NoDup_cons. split; [|done]. simpl.
    intros (t & -> & Ht)%list_elem_of_fmap.
    by apply elem_of_histogram_entries in Ht as (_ & _ & ?).
Qed.

Lemma histogram_entries_length (pixels values : list Z) :
  NoDup values → (length (histogram_entries pixels values) ≤ length pixels)%nat.
Proof.
  intros Hnodup. rewrite <- (length_fmap snd). apply submseteq_length.
  apply NoDup_submseteq; [by apply histogram_entries_NoDup|].
  intros v (t & -> & Ht)%list_elem_of_fmap.
  by apply elem_of_histogram_entries in Ht as (_ & ? & _).
Qed.

Lemma histogram_entries_ascending (pixels values : list Z) :
  StronglySorted Z.lt values →
  StronglySorted (fun a b => a.2 < b.2) (histogram_entries pixels values).
Proof.
  induction 1 as [|i values Hsorted IH Hi].
  - constructor.
  - rewrite histogram_entries_cons. case_decide; [|done].
    constructor; [done|]. apply Forall_forall. intros t Ht. simpl.
    apply elem_of_histogram_entries in Ht as (_ & _ & Ht).
    by eapply Forall_forall in Hi.
Qed.

Lemma range_ascending (n : nat) : StronglySorted Z.lt (range n).
Proof.
  unfold range. generalize 0%nat. induction n as [|n IH]; intros j; simpl.
  - constructor.
  - constructor; [apply IH|]. apply Forall_forall.
    intros z (k & -> & Hk%elem_of_seq)%list_elem_of_fmap. lia.
Qed.

Lemma length_scan_order {pixel : Type} (image : Image pixel) :
  length (scan_order image) = (img_height image * img_width image)%nat.
Proof.
  unfold scan_order. rewrite <- (length_range (img_height image)) at 2.
  induction (range (img_height image)) as [|y ys IH]; csimpl; [done|].
  by rewrite length_app, length_fmap, length_range, IH.
Qed.

(** On a grayscale image with values in 0..255 the function returns a value
    of highest count, and among those the smallest one. *)
Lemma gray_most_common_smallest (rows : list (list Z)) :
  let pixels := image_pixels (gray_image rows) in
  pixels ≠ [] → (∀ v, v ∈ pixels → 0 ≤ v < 256) →
  ∃ c, find_most_common_color (as_object (gray_image rows)) = Ok c
       ∧ (∀ v, histogram pixels v ≤ histogram pixels c)
       ∧ (∀ v, histogram pixels v = histogram pixels c → c ≤ v).
Proof.
  intros pixels Hne Hbyte.
  assert (∀ v, v ∈ pixels → (histogram pixels v, v) ∈ histogram_entries pixels (range 256))
    as Hlisted.
  { intros v Hv. apply elem_of_histogram_entries. simpl.
    split; [done|]. split; [done|]. apply elem_of_range. by apply Hbyte. }
  assert (find_most_common_color (as_object (gray_image rows))
          = match py_max fst (histogram_entries pixels (range 256)) with
            | Some tup => Ok tup.2
            | None => Raise (ValueError "max() arg is an empty sequence")
            end) as ->.
  { unfold find_most_common_color. simpl.
    change (gray_getcolors _ ?m) with (gray_getcolors pixels m).
    unfold gray_getcolors.
    pose proof (histogram_entries_length pixels (range 256) (NoDup_range 256)) as Hlen.
    assert (length pixels
            = (length rows * length (default [] (head rows)))%nat) as Hpix.
    { unfold pixels, image_pixels. by rewrite length_fmap, length_scan_order. }
    destruct (Z.gtb_spec (Z.of_nat (length (histogram_entries pixels (range 256))))
                (Z.of_nat (length (default [] (head rows))) * Z.of_nat (length rows)));
      [lia|]. simpl. by destruct (py_max fst _). }
  destruct (py_max fst (histogram_entries pixels (range 256))) as [[n c]|] eqn:Hmax.
  - apply py_max_first in Hmax as (before & after & Hsplit & Hbefore & Hafter).
    assert ((n, c) ∈ histogram_entries pixels (range 256)) as Hc.
    { rewrite Hsplit. apply elem_of_app. right. left. }
    apply elem_of_histogram_entries in Hc as (Hn & Hcpix & _). simpl in *.
    assert (∀ v, v ∈ pixels →
                 histogram pixels v ≤ n ∧ (histogram pixels v = n → c ≤ v)) as Hall.
    { intros v Hv. pose proof (Hlisted v Hv) as Hin. rewrite Hsplit in Hin.
      apply elem_of_app in Hin as [Hin|[[= Hv1 ->]|Hin]%elem_of_cons].
      - specialize (Hbefore _ Hin). simpl in Hbefore. lia.
      - lia.
      - specialize (Hafter _ Hin). simpl in Hafter. split; [done|]. intros _.
        pose proof (histogram_entries_ascending pixels (range 256)
                      (range_ascending 256)) as Hsorted.
        rewrite Hsplit in Hsorted.
        apply StronglySorted_app_1_r, StronglySorted_cons in Hsorted as [Hlt _].
        eapply Forall_forall in Hlt; [|done]. simpl in Hlt. lia. }
    exists c. split; [done|]. subst n. split.
    + intros v. destruct (decide (v ∈ pixels)) as [Hv|Hv]; [by apply Hall|].
      assert (histogram pixels v = 0) as ->.
      { destruct (decide (histogram pixels v = 0)) as [|Hv0]; [done|].
        by apply histogram_pos in Hv0. }
      apply histogram_nonneg.
    + intros v Hv. apply Hall; [|done]. apply histogram_pos. rewrite Hv.
      by apply histogram_pos.
  - exfalso. apply py_max_None in Hmax. destruct pixels as [|v vs] eqn:Hp; [done|].
    assert (v ∈ v :: vs) as Hv by left. apply Hlisted in Hv.
    rewrite Hmax in Hv. by apply elem_of_nil in Hv.
Qed.

(** * Further properties of the labelling *)

(** ** The neighbourhood *)

Lemma adjacent_sym (p q : Z * Z) : adjacent p q → adjacent q p.
Proof. unfold adjacent. intros (? & ? & ?). split; [done|]. lia. Qed.

Lemma adjacent_directions (p q : Z * Z) :
  adjacent p q ↔ ∃ d, d ∈ directions ∧ shift p d = q.
Proof.
  destruct p as [px py], q as [qx qy]. unfold adjacent, shift. simpl. split.
  - intros (Hne & Hx & Hy). exists (qx - px, qy - py). split.
    + assert (qx - px = -1 ∨ qx - px = 0 ∨ qx - px = 1) as Hdx by lia.
      assert (qy - py = -1 ∨ qy - py = 0 ∨ qy - py = 1) as Hdy by lia.
      unfold directions.
      destruct Hdx as [Hdx|[Hdx|Hdx]], Hdy as [Hdy|[Hdy|Hdy]];
        rewrite Hdx, Hdy; try set_solver.
      exfalso. apply Hne. f_equal; lia.
    + simpl. f_equal; lia.
  - intros (d & Hd & [= <- <-]). unfold directions in Hd.
    repeat (apply elem_of_cons in Hd as [->|Hd]); simpl;
      try (split; [intros [=]; lia | lia]).
    by apply elem_of_nil in Hd.
Qed.

(** [check_neighborhood] returns the labels whose pixel list holds one of
    the eight coordinates around the pixel, and no other label; the pixel's
    own coordinate does not count. *)
Theorem check_neighborhood_adjacent (c : Z * Z) (ld : list (Z * list (Z * Z)))
    (l : Z) :
  l ∈ check_neighborhood c ld
  ↔ ∃ pixels q, (l, pixels) ∈ ld ∧ q ∈ pixels ∧ adjacent c q.
Proof.
  rewrite elem_of_check_neighborhood. split.
  - intros (d & pixels & Hd & Hentry & Hshift). exists pixels, (shift c d).
    split; [done|]. split; [done|]. apply adjacent_directions. by exists d.
  - intros (pixels & q & Hentry & Hq & (d & Hd & <-)%adjacent_directions).
    by exists d, pixels.
Qed.

Lemma set_min_least (s : gset Z) (m x : Z) : set_min s = Some m → x ∈ s → m ≤ x.
Proof.
  intros (l1 & l2 & Hl & H1 & H2)%py_min_first Hx%elem_of_elements.
  rewrite Hl in Hx. unfold id in *.
  apply elem_of_app in Hx as [Hx|[->|Hx]%elem_of_cons].
  - specialize (H1 _ Hx). lia.
  - done.
  - by apply H2.
Qed.

(** When some label is found around the pixel, [find_label] returns the
    least label found and appends the set of labels found to the list of
    records. *)
Theorem find_label_least (c : Z * Z) (ld : list (Z * list (Z * Z)))
    (el : list (gset Z)) (l : Z) :
  l ∈ check_neighborhood c ld →
  ∃ m, find_label c ld el = (m, el ++ [check_neighborhood c ld])
       ∧ m ∈ check_neighborhood c ld
       ∧ ∀ l', l' ∈ check_neighborhood c ld → m ≤ l'.
Proof.
  intros Hl. destruct (set_min_is_Some _ _ Hl) as [m Hm].
  assert (ld ≠ []) as Hne.
  { intros ->. by apply elem_of_check_neighborhood in Hl
      as (? & ? & _ & ?%elem_of_nil & _). }
  exists m. split; [|split].
  - unfold find_label. destruct ld; [done|]. by rewrite Hm.
  - by apply set_min_elem.
  - intros l' Hl'. by eapply set_min_least.
Qed.

Lemma find_label_least_witness :
  ∃ m, find_label (1, 1) [(3, [(0, 0)]); (2, [(2, 0)])] []
       = (m, [] ++ [check_neighborhood (1, 1) [(3, [(0, 0)]); (2, [(2, 0)])]])
       ∧ m ∈ check_neighborhood (1, 1) [(3, [(0, 0)]); (2, [(2, 0)])]
       ∧ ∀ l', l' ∈ check_neighborhood (1, 1) [(3, [(0, 0)]); (2, [(2, 0)])] → m ≤ l'.
Proof.
  apply (find_label_least (1, 1) [(3, [(0, 0)]); (2, [(2, 0)])] [] 3).
  vm_compute. reflexivity.
Defined.

(** When no label is found around the pixel, [find_label] returns a label
    larger than every label of the dictionary (1 for the empty dictionary)
    and leaves the list of records as it is. *)
Theorem find_label_fresh (c : Z * Z) (ld : list (Z * list (Z * Z)))
    (el : list (gset Z)) :
  check_neighborhood c ld = ∅ →
  ∃ L, find_label c ld el = (L, el)
       ∧ (ld = [] → L = 1)
       ∧ (∀ k, k ∈ dict_keys ld → k < L)
       ∧ (ld ≠ [] → L - 1 ∈ dict_keys ld).
Proof.
  intros Hempty. destruct ld as [|entry ld'] eqn:Hld.
  - exists 1. split; [done|]. split; [done|].
    split; [by intros ? ?%elem_of_nil|done].
  - rewrite <- Hld in *. exists (max_key ld + 1).
    assert (set_min (check_neighborhood c ld) = None) as Hmin by (by rewrite Hempty).
    split; [|split; [|split]].
    + unfold find_label. rewrite Hld at 1. by rewrite Hmin.
    + by rewrite Hld.
    + intros k Hk%max_key_ge. lia.
    + intros _. replace (max_key ld + 1 - 1) with (max_key ld) by lia.
      unfold max_key. destruct (py_max id (dict_keys ld)) as [m|] eqn:Hmax.
      * apply py_max_first in Hmax as (l1 & l2 & -> & _). simpl.
        apply elem_of_app. right. left.
      * apply py_max_None in Hmax. by rewrite Hld in Hmax.
Qed.

Lemma find_label_fresh_witness :
  ∃ L, find_label (5, 5) [(3, [(0, 0)]); (2, [(2, 0)])] [] = (L, [])
       ∧ ([(3, [(0, 0)]); (2, [(2, 0)])] = [] → L = 1)
       ∧ (∀ k, k ∈ dict_keys [(3, [(0, 0)]); (2, [(2, 0)])] → k < L)
       ∧ ([(3, [(0, 0)]); (2, [(2, 0)])] ≠ []
          → L - 1 ∈ dict_keys [(3, [(0, 0)]); (2, [(2, 0)])]).
Proof.
  apply (find_label_fresh (5, 5) [(3, [(0, 0)]); (2, [(2, 0)])] []).
  vm_compute. reflexivity.
Defined.

(** ** Pass 1: the labels and the pixel lists *)

Lemma add_pixel_cases (ld : list (Z * list (Z * Z))) (L : Z) (c : Z * Z) :
  (∃ d1 d2 pixels,
     (L ∉ dict_keys d1) ∧ ld = d1 ++ (L, pixels) :: d2
     ∧ add_pixel ld L c = d1 ++ (L, pixels ++ [c]) :: d2)
  ∨ ((L ∉ dict_keys ld) ∧ add_pixel ld L c = ld ++ [(L, [c])]).
Proof.
  unfold add_pixel. destruct (dict_get ld L) as [pixels|] eqn:Hget.
  - left. apply dict_get_Some_split in Hget as (d1 & d2 & -> & Hd1).
    exists d1, d2, pixels. by rewrite dict_set_split.
  - right. apply dict_get_None in Hget. by rewrite dict_set_fresh.
Qed.

Lemma labelled_add_pixel (ld : list (Z * list (Z * Z))) (L l : Z) (c x : Z * Z) :
  labelled (add_pixel ld L c) x l ↔ labelled ld x l ∨ (x = c ∧ l = L).
Proof.
  unfold labelled.
  destruct (add_pixel_cases ld L c) as [(d1 & d2 & ps & _ & -> & ->)|[_ ->]].
  - split.
    + intros (pixels & [Hin|[[= -> ->]|Hin]%elem_of_cons]%elem_of_app & Hx).
      * left. exists pixels. split; [|done]. apply elem_of_app. by left.
      * apply elem_of_app in Hx as [Hx| ->%list_elem_of_singleton]; [|by right].
        left. exists ps. split; [|done]. apply elem_of_app. right. left.
      * left. exists pixels. split; [|done]. apply elem_of_app. right. by right.
    + intros [(pixels & [Hin|[[= -> ->]|Hin]%elem_of_cons]%elem_of_app & Hx)|[-> ->]].
      * exists pixels. split; [|done]. apply elem_of_app. by left.
      * exists (ps ++ [c]). split; [apply elem_of_app; right; left|].
        apply elem_of_app. by left.
      * exists pixels. split; [|done]. apply elem_of_app. right. by right.
      * exists (ps ++ [c]). split; [apply elem_of_app; right; left|].
        apply elem_of_app. right. left.
  - split.
    + intros (pixels & [Hin|[= -> ->]%list_elem_of_singleton]%elem_of_app & Hx).
      * left. by exists pixels.
      * right. by apply list_elem_of_singleton in Hx.
    + intros [(pixels & Hin & Hx)|[-> ->]].
      * exists pixels. split; [|done]. apply elem_of_app. by left.
      * exists [c]. split; [apply elem_of_app; right; left|left].
Qed.

Lemma labelled_key (ld : list (Z * list (Z * Z))) (x : Z * Z) (l : Z) :
  labelled ld x l → l ∈ dict_keys ld.
Proof. intros (pixels & Hin & _). apply list_elem_of_fmap. by exists (l, pixels). Qed.

Lemma labelled_all_pixels (ld : list (Z * list (Z * Z))) (x : Z * Z) :
  x ∈ all_pixels ld ↔ ∃ l, labelled ld x l.
Proof. apply elem_of_all_pixels. Qed.

Lemma find_label_fresh_value (c : Z * Z) (ld : list (Z * list (Z * Z)))
    (el : list (gset Z)) (n : nat) :
  dict_keys ld = Z.of_nat <$> seq 1 n →
  (find_label c ld el).1 ∈ dict_keys ld
  ∨ (find_label c ld el).1 = Z.of_nat (S n).
Proof.
  intros Hkeys. destruct ld as [|entry ld'] eqn:Hld.
  - right. destruct n; [done|]. discriminate Hkeys.
  - rewrite <- Hld in *.
    assert (find_label c ld el
            = match set_min (check_neighborhood c ld) with
              | Some m => (m, el ++ [check_neighborhood c ld])
              | None => (max_key ld + 1, el)
              end) as -> by (by rewrite Hld).
    destruct (set_min (check_neighborhood c ld)) as [m|] eqn:Hmin; simpl.
    + left. by eapply check_neighborhood_keys, set_min_elem.
    + right. assert (max_key ld = Z.of_nat n) as ->; [|lia].
      unfold max_key. destruct (py_max id (dict_keys ld)) as [m|] eqn:Hmax.
      * pose proof Hmax as (l1 & l2 & Hsplit & _)%py_max_first. simpl.
        assert (m ∈ dict_keys ld) as Hm
          by (rewrite Hsplit; apply elem_of_app; right; left).
        assert (∀ k, k ∈ dict_keys ld → k ≤ m) as Hle.
        { intros k Hk%max_key_ge. unfold max_key in Hk. by rewrite Hmax in Hk. }
        rewrite Hkeys in Hm, Hle.
        apply list_elem_of_fmap in Hm as (i & -> & Hi%elem_of_seq).
        assert (n ≠ 0)%nat as Hn by lia.
        specialize (Hle (Z.of_nat n)).
        assert (Z.of_nat n ≤ Z.of_nat i); [|lia].
        apply Hle, list_elem_of_fmap. exists n. split; [done|].
        apply elem_of_seq. lia.
      * apply py_max_None in Hmax. by rewrite Hld in Hmax.
Qed.

Section pass1_shape.
Context {pixel : Type} `{EqDecision pixel}.
Context (image : Image pixel) (background_color : pixel).

Lemma label_pixel_shape (st : list (Z * list (Z * Z)) * list (gset Z)) (c : Z * Z) :
  dict_keys st.1 = Z.of_nat <$> seq 1 (length st.1) →
  (∀ k pixels, (k, pixels) ∈ st.1 → pixels ≠ []) →
  let st' := label_pixel image background_color st c in
  dict_keys st'.1 = Z.of_nat <$> seq 1 (length st'.1)
  ∧ (∀ k pixels, (k, pixels) ∈ st'.1 → pixels ≠ []).
Proof.
  intros Hkeys Hne. unfold label_pixel. case_decide; [done|].
  pose proof (find_label_fresh_value c st.1 st.2 _ Hkeys) as Hlabel.
  destruct (find_label c st.1 st.2) as [L el']. simpl in *.
  destruct (add_pixel_cases st.1 L c) as [(d1 & d2 & ps & _ & Hld & ->)|[HL ->]].
  - split.
    + rewrite Hld in Hkeys. unfold dict_keys in *.
      rewrite !fmap_app, !fmap_cons, !length_app in *. done.
    + intros k pixels [Hin|[[= -> ->]|Hin]%elem_of_cons]%elem_of_app.
      * eapply Hne. rewrite Hld. apply elem_of_app. by left.
      * by destruct ps.
      * eapply Hne. rewrite Hld. apply elem_of_app. right. by right.
  - destruct Hlabel as [?| ->]; [done|]. split.
    + unfold dict_keys in *. rewrite fmap_app, length_app, Hkeys. simpl.
      rewrite Nat.add_1_r, seq_S, fmap_app. done.
    + intros k pixels [Hin|[= -> ->]%list_elem_of_singleton]%elem_of_app;
        [by eapply Hne|done].
Qed.

Lemma first_pass_shape :
  dict_keys (first_pass image background_color).1
  = Z.of_nat <$> seq 1 (length (first_pass image background_color).1)
  ∧ (∀ k pixels, (k, pixels) ∈ (first_pass image background_color).1 → pixels ≠ []).
Proof.
  unfold first_pass. generalize (scan_order image). intros l.
  assert (∀ st : list (Z * list (Z * Z)) * list (gset Z),
    dict_keys st.1 = Z.of_nat <$> seq 1 (length st.1) →
    (∀ k pixels, (k, pixels) ∈ st.1 → pixels ≠ []) →
    let st' := foldl (label_pixel image background_color) st l in
    dict_keys st'.1 = Z.of_nat <$> seq 1 (length st'.1)
    ∧ (∀ k pixels, (k, pixels) ∈ st'.1 → pixels ≠ [])) as Hfold.
  { induction l as [|c l IH]; intros st Hkeys Hne; simpl; [done|].
    destruct (label_pixel_shape st c Hkeys Hne). by apply IH. }
  apply Hfold; [done|]. by intros ? ? ?%elem_of_nil.
Qed.

(** Pass 1 numbers the labels 1, 2, ..., n in the order in which it creates
    them, and gives every label at least one pixel. *)
Theorem first_pass_labels_consecutive :
  dict_keys (first_pass image background_color).1
  = Z.of_nat <$> seq 1 (length (first_pass image background_color).1)
  ∧ (∀ k pixels, dict_get (first_pass image background_color).1 k = Some pixels →
                 pixels ≠ []).
Proof.
  destruct first_pass_shape as [Hkeys Hne]. split; [done|].
  intros k pixels Hget%dict_get_elem_of. by eapply Hne.
Qed.

(** After pass 1 the pixel lists hold the foreground coordinates of the
    canvas, each one once, and nothing else. *)
Theorem first_pass_partition :
  NoDup (all_pixels (first_pass image background_color).1)
  ∧ ∀ c, (∃ l, labelled (first_pass image background_color).1 c l)
         ↔ foreground image background_color c.
Proof.
  pose proof (first_pass_inv image background_color) as (_ & _ & Hperm & _).
  split.
  - rewrite Hperm. apply NoDup_filter, NoDup_scan_order.
  - intros c. rewrite <- labelled_all_pixels, Hperm, list_elem_of_filter,
      elem_of_scan_order. unfold foreground. tauto.
Qed.
End pass1_shape.

(** ** Pass 1: every adjacency is recorded *)

Lemma check_neighborhood_labelled (c : Z * Z) (ld : list (Z * list (Z * Z))) (l : Z) :
  l ∈ check_neighborhood c ld ↔ ∃ q, labelled ld q l ∧ adjacent c q.
Proof.
  rewrite elem_of_check_neighborhood. split.
  - intros (d & pixels & Hd & Hentry & Hshift). exists (shift c d).
    split; [by exists pixels|]. apply adjacent_directions. by exists d.
  - intros (q & (pixels & Hentry & Hq) & (d & Hd & <-)%adjacent_directions).
    by exists d, pixels.
Qed.

Section pass1_adjacency.
Context {pixel : Type} `{EqDecision pixel}.
Context (image : Image pixel) (background_color : pixel).

Lemma label_pixel_adjacency (seen : list (Z * Z))
    (st : list (Z * list (Z * Z)) * list (gset Z)) (q : Z * Z) :
  pass1_inv image background_color seen st →
  records_adjacency image background_color seen st →
  records_adjacency image background_color (seen ++ [q])
    (label_pixel image background_color st q).
Proof.
  destruct st as [ld el]. intros (_ & Hpos & Hperm & _) Hadj. simpl in *.
  unfold label_pixel. case_decide as Hbg.
  - intros a b [Ha| ->%list_elem_of_singleton]%elem_of_app
      [Hb| ->%list_elem_of_singleton]%elem_of_app Hfa Hfb Hab;
      try (by destruct Hfa as [_ []]); try (by destruct Hfb as [_ []]).
    by apply Hadj.
  - simpl. destruct (find_label_spec q ld el Hpos) as (L & el' & -> & _ & Hcase).
    simpl.
    assert (∀ a, a ∈ seen → foreground image background_color a →
                 ∃ la, labelled ld a la) as Hold.
    { intros a Ha [_ Hfa]. apply labelled_all_pixels. rewrite Hperm.
      by apply list_elem_of_filter. }
    assert (∀ a, a ∈ seen → foreground image background_color a → adjacent q a →
                 ∃ la, check_neighborhood q ld ∈ el' ∧ labelled ld a la
                       ∧ la ∈ check_neighborhood q ld
                       ∧ L ∈ check_neighborhood q ld) as Hnew.
    { intros a Ha Hfa Hqa. destruct (Hold a Ha Hfa) as [la Hla]. exists la.
      assert (la ∈ check_neighborhood q ld) as Hin.
      { apply check_neighborhood_labelled. by exists a. }
      destruct Hcase as [[HL ->]|(_ & _ & _ & Hempty)].
      - split; [apply elem_of_app; right; left|done].
      - rewrite Hempty in Hin. by apply elem_of_empty in Hin. }
    assert (∀ s, s ∈ el → s ∈ el') as Hel.
    { intros s Hs. destruct Hcase as [[_ ->]|(_ & _ & -> & _)]; [|done].
      apply elem_of_app. by left. }
    intros a b [Ha| ->%list_elem_of_singleton]%elem_of_app
      [Hb| ->%list_elem_of_singleton]%elem_of_app Hfa Hfb Hab.
    + destruct (Hadj a b Ha Hb Hfa Hfb Hab) as (s & la & lb & Hs & Hla & Hlb & ? & ?).
      exists s, la, lb. simpl in *. split; [auto|].
      split; [apply labelled_add_pixel; by left|].
      split; [apply labelled_add_pixel; by left|done].
    + destruct (Hnew a Ha Hfa (adjacent_sym _ _ Hab)) as (la & HE & Hla & Hin & HL).
      exists (check_neighborhood q ld), la, L. split; [done|].
      split; [apply labelled_add_pixel; by left|].
      split; [apply labelled_add_pixel; by right|done].
    + destruct (Hnew b Hb Hfb Hab) as (lb & HE & Hlb & Hin & HL).
      exists (check_neighborhood q ld), L, lb. split; [done|].
      split; [apply labelled_add_pixel; by right|].
      split; [apply labelled_add_pixel; by left|done].
    + by destruct Hab as [[] _].
Qed.

Lemma first_pass_adjacency :
  records_adjacency image background_color (scan_order image)
    (first_pass image background_color).
Proof.
  unfold first_pass.
  assert (∀ l seen st,
    pass1_inv image background_color seen st →
    records_adjacency image background_color seen st →
    records_adjacency image background_color (seen ++ l)
      (foldl (label_pixel image background_color) st l)) as Hfold.
  { induction l as [|c l IH]; intros seen st Hinv Hadj; simpl.
    - by rewrite app_nil_r.
    - replace (seen ++ c :: l) with ((seen ++ [c]) ++ l) by (by rewrite <- app_assoc).
      apply IH; [by apply pass1_inv_step|by apply label_pixel_adjacency]. }
  apply (Hfold _ [] ([], [])); [apply pass1_inv_nil|].
  by intros a b ?%elem_of_nil.
Qed.

(** Pass 1 records every adjacency: two foreground pixels that touch by an
    edge or a corner end under labels that occur together in one of the
    equivalence records. *)
Theorem first_pass_records_adjacency (a b : Z * Z) :
  foreground image background_color a →
  foreground image background_color b →
  adjacent a b →
  ∃ s la lb pa pb,
    s ∈ (first_pass image background_color).2
    ∧ dict_get (first_pass image background_color).1 la = Some pa ∧ a ∈ pa
    ∧ dict_get (first_pass image background_color).1 lb = Some pb ∧ b ∈ pb
    ∧ la ∈ s ∧ lb ∈ s.
Proof.
  intros Hfa Hfb Hab.
  pose proof (first_pass_inv image background_color) as (Hnodup & _).
  destruct (first_pass_adjacency a b) as (s & la & lb & Hs & Hla & Hlb & ? & ?);
    [by apply elem_of_scan_order, Hfa|by apply elem_of_scan_order, Hfb|done..|].
  destruct Hla as (pa & Hpa & Ha), Hlb as (pb & Hpb & Hb).
  exists s, la, lb, pa, pb. split; [done|].
  split; [by apply elem_of_dict_get|]. split; [done|].
  split; [by apply elem_of_dict_get|]. done.
Qed.
End pass1_adjacency.

Lemma first_pass_records_adjacency_witness :
  ∃ s la lb pa pb,
    s ∈ (first_pass zigzag 0).2
    ∧ dict_get (first_pass zigzag 0).1 la = Some pa ∧ (2, 1) ∈ pa
    ∧ dict_get (first_pass zigzag 0).1 lb = Some pb ∧ (3, 2) ∈ pb
    ∧ la ∈ s ∧ lb ∈ s.
Proof.
  apply (first_pass_records_adjacency zigzag 0 (2, 1) (3, 2)).
  - split; [vm_compute; repeat split; discriminate|discriminate].
  - split; [vm_compute; repeat split; discriminate|discriminate].
  - split; [discriminate|]. simpl. lia.
Defined.

(** ** Pass 1 joins connected pixels only *)

Section connectivity.
Context {pixel : Type} `{EqDecision pixel}.
Context (image : Image pixel) (background_color : pixel).

Lemma connected_step (a b : Z * Z) :
  foreground image background_color a → foreground image background_color b →
  adjacent a b → connected image background_color a b.
Proof. intros. by apply rtc_once. Qed.

Lemma connected_sym (a b : Z * Z) :
  connected image background_color a b → connected image background_color b a.
Proof.
  induction 1 as [|a c b (Ha & Hc & Hac) _ IH]; [done|].
  eapply rtc_r; [done|]. split; [done|]. split; [done|]. by apply adjacent_sym.
Qed.

Lemma connected_trans (a b c : Z * Z) :
  connected image background_color a b → connected image background_color b c →
  connected image background_color a c.
Proof. apply rtc_trans. Qed.

Lemma label_pixel_sound (seen : list (Z * Z))
    (st : list (Z * list (Z * Z)) * list (gset Z)) (q : Z * Z) :
  pass1_inv image background_color seen st →
  (∀ c, c ∈ seen → in_image image c) →
  in_image image q →
  pass1_sound image background_color st →
  pass1_sound image background_color (label_pixel image background_color st q).
Proof.
  destruct st as [ld el].
  intros (_ & Hpos & Hperm & Hrec) Hseen Hq [Hwithin Hshared].
  simpl in *. unfold label_pixel. case_decide as Hbg; [done|].
  simpl. destruct (find_label_spec q ld el Hpos) as (L & el' & -> & _ & Hcase).
  simpl.
  assert (∀ x l, labelled ld x l → foreground image background_color x) as Hfg.
  { intros x l Hx.
    assert (x ∈ all_pixels ld) as Hin by (apply labelled_all_pixels; by exists l).
    rewrite Hperm in Hin. apply list_elem_of_filter in Hin as [? ?%Hseen].
    done. }
  assert (∀ l x, l ∈ check_neighborhood q ld → labelled ld x l →
                 connected image background_color q x) as Hround.
  { intros l x (n & Hn & Hqn)%check_neighborhood_labelled Hx.
    eapply connected_trans; [|by apply (Hwithin l n x)].
    apply connected_step; [done|by eapply Hfg|done]. }
  assert (∀ l, l ∈ check_neighborhood q ld → ∃ n, labelled ld n l) as Hsome.
  { intros l (n & Hn & _)%check_neighborhood_labelled. by exists n. }
  destruct Hcase as [[HL ->]|(Hfresh & _ & -> & _)].
  - split; simpl.
    + intros l a b [Ha|[-> ->]]%labelled_add_pixel [Hb|[-> HlL]]%labelled_add_pixel.
      * by apply (Hwithin l).
      * subst l. by apply connected_sym, (Hround L).
      * by apply (Hround L).
      * done.
    + intros s l1 l2 [Hs| ->%list_elem_of_singleton]%elem_of_app Hl1 Hl2 a b
        [Ha|[-> ->]]%labelled_add_pixel [Hb|[-> ->]]%labelled_add_pixel.
      * by apply (Hshared s l1 l2).
      * destruct (Hsome L HL) as [n Hn].
        eapply connected_trans; [by apply (Hshared s l1 L Hs Hl1 Hl2 a n)|].
        by apply connected_sym, (Hround L).
      * destruct (Hsome L HL) as [n Hn].
        eapply connected_trans; [by apply (Hround L n)|].
        by apply (Hshared s L l2 Hs Hl1 Hl2 n b).
      * done.
      * eapply connected_trans; [by apply connected_sym, (Hround l1)|].
        by apply (Hround l2).
      * by apply connected_sym, (Hround l1).
      * by apply (Hround l2).
      * done.
  - assert (∀ x, ¬ labelled ld x L) as Hnone.
    { intros x Hx%labelled_key. done. }
    split; simpl.
    + intros l a b [Ha|[-> ->]]%labelled_add_pixel [Hb|[-> HlL]]%labelled_add_pixel.
      * by apply (Hwithin l).
      * subst l. by destruct (Hnone a).
      * by destruct (Hnone b).
      * done.
    + intros s l1 l2 Hs Hl1 Hl2 a b
        [Ha|[-> ->]]%labelled_add_pixel [Hb|[-> ->]]%labelled_add_pixel.
      * by apply (Hshared s l1 l2).
      * destruct Hfresh. by eapply Hrec.
      * destruct Hfresh. by eapply Hrec.
      * done.
Qed.

Lemma first_pass_sound_inv :
  pass1_sound image background_color (first_pass image background_color).
Proof.
  unfold first_pass.
  assert (∀ l seen st,
    (∀ c, c ∈ l → in_image image c) →
    (∀ c, c ∈ seen → in_image image c) →
    pass1_inv image background_color seen st →
    pass1_sound image background_color st →
    pass1_sound image background_color
      (foldl (label_pixel image background_color) st l)) as Hfold.
  { induction l as [|c l IH]; intros seen st Hl Hseen Hinv Hsound; simpl; [done|].
    apply (IH (seen ++ [c])).
    - intros c' Hc'. apply Hl. by right.
    - intros c' [?| ->%list_elem_of_singleton]%elem_of_app; [auto|]. apply Hl. left.
    - by apply pass1_inv_step.
    - eapply label_pixel_sound; [done|done| |done]. apply Hl. left. }
  apply (Hfold _ [] ([], [])).
  - intros c. apply elem_of_scan_order.
  - by intros c ?%elem_of_nil.
  - apply pass1_inv_nil.
  - split; simpl.
    + by intros l a b (? & ?%elem_of_nil & _).
    + by intros s l1 l2 ?%elem_of_nil.
Qed.
End connectivity.

(** ** Pass 2: what is raised, and what is merged *)

Lemma elem_of_dict_set {V : Type} (d : list (Z * V)) (k k' : Z) (v v' : V) :
  (k', v') ∈ dict_set d k v → (k', v') = (k, v) ∨ (k', v') ∈ d.
Proof.
  induction d as [|[k0 v0] d IH]; simpl.
  - intros ?%list_elem_of_singleton. by left.
  - case_decide.
    + intros [?|?]%elem_of_cons; [by left|]. right. by right.
    + intros [->|[?|?]%IH]%elem_of_cons; [right; left|by left|].
      right. by right.
Qed.

Lemma record_set_ok (P : gset Z → Prop) (label : Z)
    (st : list (gset Z) * list (Z * nat)) (j : nat) :
  (∀ s1 s2, P s1 → P s2 → label ∈ s1 → label ∈ s2 → P (s1 ∪ s2)) →
  records_ok P st → records_ok P (record_set label st j).
Proof.
  destruct st as [store ed]. intros Hunion [Hstore Hbound]. unfold record_set.
  simpl in *. destruct (store !! j) as [sets|] eqn:Hj; [|done].
  case_bool_decide as Hin; [|done].
  destruct (dict_get ed label) as [i|] eqn:Hget.
  - destruct (Hbound label i) as (si & Hsi & Hlabel); [by apply dict_get_elem_of|].
    rewrite Hsi. simpl. split; simpl.
    + intros j' s [(-> & <- & Hlt)|[_ Hs]]%list_lookup_insert_Some; [|by eapply Hstore].
      apply Hunion; [by eapply Hstore|by eapply Hstore|done..].
    + intros k i' (s & Hs & Hk)%Hbound. destruct (decide (i = i')) as [->|Hii].
      * exists (si ∪ sets). split.
        -- apply list_lookup_insert_eq. by eapply lookup_lt_Some.
        -- rewrite Hsi in Hs. injection Hs as ->. set_solver.
      * exists s. by rewrite list_lookup_insert_ne.
  - apply dict_get_None in Hget. rewrite dict_set_fresh by done.
    split; [done|]. simpl.
    intros k i [?|[= -> ->]%list_elem_of_singleton]%elem_of_app; [auto|].
    by exists sets.
Qed.

Lemma record_labels_ok (P : gset Z → Prop) (labels : list Z)
    (st : list (gset Z) * list (Z * nat)) :
  (∀ label s1 s2, label ∈ labels → P s1 → P s2 → label ∈ s1 → label ∈ s2 →
                  P (s1 ∪ s2)) →
  records_ok P st → records_ok P (foldl record_label st labels).
Proof.
  revert st. induction labels as [|label labels IH]; intros st Hunion Hst; simpl;
    [done|].
  apply IH; [intros l s1 s2 Hl; apply Hunion; by right|].
  unfold record_label. generalize (seq 0 (length st.1)). intros js. revert st Hst.
  induction js as [|j js IHjs]; intros st Hst; simpl; [done|].
  apply IHjs, record_set_ok; [|done]. intros s1 s2. apply Hunion. left.
Qed.

(** The second loop of [update_label] raises nothing: every bound set holds
    its label.  It maps each label to a member of the set bound to it. *)
Lemma reduce_entries_ok (store : list (gset Z)) (positions : list (Z * nat))
    (acc : list (Z * Z)) (Q : Z → Z → Prop) :
  (∀ k i, (k, i) ∈ positions → ∃ s, store !! i = Some s ∧ k ∈ s) →
  (∀ k i s m, (k, i) ∈ positions → store !! i = Some s → k ∈ s →
              set_min s = Some m → Q k m) →
  (∀ k m, (k, m) ∈ acc → Q k m) →
  ∃ equivalence_dict,
    for_each (reduce_entry store) positions acc = Ok equivalence_dict
    ∧ ∀ k m, (k, m) ∈ equivalence_dict → Q k m.
Proof.
  revert acc. induction positions as [|[k i] positions IH]; intros acc Hbound HQ Hacc.
  - by exists acc.
  - rewrite for_each_cons. unfold reduce_entry at 1. simpl.
    destruct (Hbound k i) as (s & Hs & Hk); [left|]. rewrite Hs. simpl.
    destruct (set_min_is_Some s k Hk) as [m Hm]. rewrite Hm.
    apply IH.
    + intros k' i' Hin. apply Hbound. by right.
    + intros k' i' s' m' Hin. apply HQ. by right.
    + intros k' m' [[= -> ->]|?]%elem_of_dict_set; [|auto].
      apply (HQ k i s m); [left|done..].
Qed.

Lemma merge_labels_cases (equivalence_dict : list (Z * Z)) (ks : list Z)
    (ld : list (Z * list (Z * Z))) :
  (∃ ld', for_each (merge_label equivalence_dict) ks ld = Ok ld')
  ∨ ∃ key, for_each (merge_label equivalence_dict) ks ld = Raise (KeyError key).
Proof.
  revert ld. induction ks as [|k ks IH]; intros ld.
  - left. by exists ld.
  - rewrite for_each_cons.
    destruct (merge_label_cases equivalence_dict ld k)
      as [(ld' & -> & _)|(key & ->)]; [apply IH|right; by exists key].
Qed.

Lemma update_label_cases (ld : list (Z * list (Z * Z)))
    (el : list (gset Z)) :
  (∃ ld', update_label ld el = Ok ld')
  ∨ ∃ key, update_label ld el = Raise (KeyError key).
Proof.
  unfold update_label.
  assert (records_ok (fun _ => True) (el, [])) as Hinit.
  { split; [done|]. by intros ? ? ?%elem_of_nil. }
  apply (record_labels_ok _ (dict_keys ld)) in Hinit; [|done].
  destruct (foldl record_label (el, []) (dict_keys ld)) as [store positions].
  destruct Hinit as [_ Hbound]. simpl in *.
  destruct (reduce_entries_ok store positions [] (fun _ _ => True) Hbound)
    as (equivalence_dict & -> & _); [done..|].
  apply merge_labels_cases.
Qed.

(** [update_label] returns a dictionary or raises [KeyError]; whatever the
    dictionary and the records are, it raises no other exception. *)
Theorem update_label_raises_only_KeyError (ld : list (Z * list (Z * Z)))
    (el : list (gset Z)) :
  (∃ ld', update_label ld el = Ok ld')
  ∨ ∃ key, update_label ld el = Raise (KeyError key).
Proof. apply update_label_cases. Qed.

Lemma elem_of_dict_del {V : Type} (d : list (Z * V)) (k : Z) (e : Z * V) :
  e ∈ dict_del d k → e ∈ d.
Proof.
  induction d as [|[k0 v0] d IH]; simpl; [done|].
  case_decide; [by right|]. intros [->|?]%elem_of_cons; [left|right; auto].
Qed.

Lemma merge_label_Ok_bound (equivalence_dict : list (Z * Z))
    (ld ld' : list (Z * list (Z * Z))) (k : Z) :
  merge_label equivalence_dict ld k = Ok ld' →
  ld' = ld
  ∨ ∃ r target pixels,
      dict_get equivalence_dict k = Some r ∧ r ≠ k
      ∧ dict_get ld r = Some target ∧ dict_get ld k = Some pixels
      ∧ ld' = dict_del (dict_set ld r (target ++ pixels)) k.
Proof.
  unfold merge_label. destruct (dict_get equivalence_dict k) as [r|]; [|done].
  case_decide as Hr; [intros [= <-]; by left|].
  destruct (dict_get ld r) as [target|] eqn:Hget_r; [|done].
  destruct (dict_get ld k) as [pixels|] eqn:Hget_k; [|done].
  intros [= <-]. right. by exists r, target, pixels.
Qed.

Lemma update_label_linked (ld ld' : list (Z * list (Z * Z))) (el : list (gset Z))
    (k : Z) (pixels : list (Z * Z)) (a : Z * Z) :
  update_label ld el = Ok ld' →
  (k, pixels) ∈ ld' → a ∈ pixels →
  ∃ l, labelled ld a l ∧ linked el l k ∧ k ≤ l.
Proof.
  unfold update_label.
  set (P := fun s : gset Z => ∀ l1 l2, l1 ∈ s → l2 ∈ s → linked el l1 l2).
  assert (records_ok P (el, [])) as Hinit.
  { split; [|by intros ? ? ?%elem_of_nil]. simpl.
    intros j s Hs%list_elem_of_lookup_2 l1 l2 Hl1 Hl2.
    apply rtc_once. by exists s. }
  apply (record_labels_ok _ (dict_keys ld)) in Hinit.
  2:{ intros label s1 s2 _ H1 H2 Hs1 Hs2 l1 l2
        [Hl1|Hl1]%elem_of_union [Hl2|Hl2]%elem_of_union.
      - by apply H1.
      - eapply rtc_trans; [by apply (H1 l1 label)|by apply (H2 label l2)].
      - eapply rtc_trans; [by apply (H2 l1 label)|by apply (H1 label l2)].
      - by apply H2. }
  destruct (foldl record_label (el, []) (dict_keys ld)) as [store positions].
  destruct Hinit as [Hstore Hbound]. simpl in *.
  destruct (reduce_entries_ok store positions []
              (fun label m => linked el label m ∧ m ≤ label) Hbound)
    as (equivalence_dict & -> & Hdict).
  { intros k' i s m _ Hs Hk Hm. split.
    - apply (Hstore i s Hs); [done|by apply set_min_elem].
    - by eapply set_min_least. }
  { by intros ? ? ?%elem_of_nil. }
  simpl. intros Hmerge.
  set (I := fun d : list (Z * list (Z * Z)) =>
              ∀ k pixels a, (k, pixels) ∈ d → a ∈ pixels →
                            ∃ l, labelled ld a l ∧ linked el l k ∧ k ≤ l).
  assert (I ld') as Hfinal; [|by apply Hfinal].
  eapply (for_each_inv I); [| |exact Hmerge].
  - intros d k0 d' _ Hd
      [->|(r & target & ps0 & Hr & Hne & Hget_r & Hget_k & ->)]%merge_label_Ok_bound;
      [done|].
    intros k' ps x [[= -> ->]|Hin]%elem_of_dict_del%elem_of_dict_set Hx;
      [|by eapply Hd].
    apply elem_of_app in Hx as [Hx|Hx].
    + eapply Hd; [by apply dict_get_elem_of|done].
    + destruct (Hd k0 ps0 x) as (l & Hl & Hlk & Hle); [by apply dict_get_elem_of|done|].
      destruct (Hdict k0 r) as [Hlink Hle']; [by apply dict_get_elem_of|].
      exists l. split; [done|]. split; [by eapply rtc_trans|lia].
  - intros k0 ps x Hin Hx. exists k0. split; [by exists ps|done].
Qed.

(** [update_label] merges along the records only, and towards smaller
    labels: a coordinate that ends in the list of label [k] started in the
    list of a label that is at least [k] and is joined to [k] by a chain of
    records. *)
Theorem update_label_links (ld ld' : list (Z * list (Z * Z))) (el : list (gset Z))
    (k : Z) (pixels : list (Z * Z)) (a : Z * Z) :
  update_label ld el = Ok ld' →
  (k, pixels) ∈ ld' → a ∈ pixels →
  ∃ l, labelled ld a l ∧ linked el l k ∧ k ≤ l.
Proof. apply update_label_linked. Qed.

Lemma update_label_links_witness :
  ∃ l, labelled [(1, [(0, 0); (0, 1); (1, 2)]); (2, [(4, 0); (4, 1); (3, 2)]);
                 (3, [(2, 1)])] (2, 1) l
       ∧ linked [{[1]}; {[2]}; {[1; 3]}; {[2; 3]}] l 1
       ∧ 1 ≤ l.
Proof.
  apply (update_label_links
           [(1, [(0, 0); (0, 1); (1, 2)]); (2, [(4, 0); (4, 1); (3, 2)]);
            (3, [(2, 1)])]
           [(1, [(0, 0); (0, 1); (1, 2); (2, 1)]); (2, [(4, 0); (4, 1); (3, 2)])]
           [{[1]}; {[2]}; {[1; 3]}; {[2; 3]}]
           1 [(0, 0); (0, 1); (1, 2); (2, 1)] (2, 1)).
  - vm_compute. reflexivity.
  - left.
  - set_solver.
Defined.

(** ** The components that [find_sprites] returns are connected *)

Lemma linked_sym (el : list (gset Z)) (l1 l2 : Z) : linked el l1 l2 → linked el l2 l1.
Proof.
  induction 1 as [|l1 l' l2 (s & Hs & H1 & H')  _ IH]; [done|].
  eapply rtc_r; [done|]. by exists s.
Qed.

Section sound.
Context {pixel : Type} `{EqDecision pixel}.
Context (image : Image pixel).

Lemma linked_label_connected (background_color : pixel) (l1 l2 : Z) :
  linked (first_pass image background_color).2 l1 l2 →
  label_connected image background_color (first_pass image background_color).1 l1 l2.
Proof.
  pose proof (first_pass_sound_inv image background_color) as [Hwithin Hshared].
  pose proof (first_pass_inv image background_color) as (_ & _ & _ & Hrec).
  pose proof (first_pass_shape image background_color) as [_ Hne].
  induction 1 as [l|l1 l' l2 (s & Hs & H1 & H') _ IH]; [apply Hwithin|].
  intros a b Ha Hb.
  assert (∃ n, labelled (first_pass image background_color).1 n l') as [n Hn].
  { pose proof (Hrec s l' Hs H') as ([k ps] & Hk & Hin)%list_elem_of_fmap.
    simpl in Hk. subst k. destruct ps as [|n rest]; [by destruct (Hne l' [])|].
    exists n, (n :: rest). split; [done|left]. }
  eapply connected_trans; [by apply (Hshared s l1 l' Hs H1 H' a n)|by apply IH].
Qed.

(** When [find_sprites] returns, its parts are the resolved background, the
    dictionary of components, the sprites built from it and its label map. *)
Lemma find_sprites_Ok_inv (background_color : option pixel)
    (sprites : list (Z * Sprite)) (label_map : list (list Z)) :
  find_sprites image background_color = Ok (sprites, label_map) →
  ∃ bg ld,
    match background_color with
    | Some c => bg = c
    | None => find_most_common_color (as_object image) = Ok bg
    end
    ∧ create_labelled_dict image bg = Ok ld
    ∧ for_each build_sprite ld [] = Ok sprites
    ∧ label_map = create_label_map ld image.
Proof.
  unfold find_sprites. intros Hrun.
  assert (∃ bg, match background_color with
                | Some c => bg = c
                | None => find_most_common_color (as_object image) = Ok bg
                end
                ∧ (ld ← create_labelled_dict image bg;
                   sprites ← for_each build_sprite ld [];
                   Ok (sprites, create_label_map ld image))
                  = Ok (sprites, label_map)) as (bg & Hbg & Hrun').
  { destruct background_color as [c|]; [by exists c|].
    destruct (find_most_common_color (as_object image)) as [bg|]; [|done].
    by exists bg. }
  exists bg. destruct (create_labelled_dict image bg) as [ld|] eqn:Hld; [|done].
  simpl in Hrun'.
  destruct (for_each build_sprite ld []) as [sprites'|] eqn:Hbuild; [|done].
  simpl in Hrun'. injection Hrun' as -> <-. by exists ld.
Qed.

(** The cells of the label map that hold a label are the coordinates of that
    label's list. *)
Lemma label_map_cells (background_color : pixel) (ld : list (Z * list (Z * Z)))
    (L : Z) (c : Z * Z) :
  create_labelled_dict image background_color = Ok ld →
  L ≠ 0 →
  map_cell (create_label_map ld image) c = Some L ↔ labelled ld c L.
Proof.
  intros (Hnodup & Hpos & Hpix & Hall)%create_labelled_dict_components HL.
  rewrite map_cell_create_label_map. split.
  - case_decide; [|done]. intros [= Hcell].
    destruct (cell_label_spec ld c) as [[H0 _]|(k & ps & Hentry & Hc & Hk)]; [lia|].
    exists ps. by rewrite <- Hcell, Hk.
  - intros (ps & Hentry & Hc).
    assert (in_image image c) as Hin.
    { apply Hall, elem_of_all_pixels. by exists L, ps. }
    rewrite decide_True by done. f_equal.
    destruct (cell_label_spec ld c) as [[_ Hnone]|(k & ps' & Hentry' & Hc' & ->)].
    + by destruct (Hnone L ps).
    + by injection (pixels_unique ld (k, ps') (L, ps) c Hpix Hentry' Hentry Hc' Hc).
Qed.

(** Two cells to which [find_sprites] gives the same label are joined by a
    chain of adjacent foreground pixels: no sprite spans two regions. *)
Theorem find_sprites_sound (background_color : option pixel)
    (sprites : list (Z * Sprite)) (label_map : list (list Z)) :
  find_sprites image background_color = Ok (sprites, label_map) →
  ∃ bg,
    match background_color with
    | Some c => bg = c
    | None => find_most_common_color (as_object image) = Ok bg
    end
    ∧ ∀ a b L, L ≠ 0 → map_cell label_map a = Some L → map_cell label_map b = Some L →
               connected image bg a b.
Proof.
  intros (bg & ld & Hbg & Hld & _ & ->)%find_sprites_Ok_inv.
  exists bg. split; [done|]. intros a b L HL Ha Hb.
  apply (label_map_cells bg ld L a Hld HL) in Ha as (pa & Hpa & Ha).
  apply (label_map_cells bg ld L b Hld HL) in Hb as (pb & Hpb & Hb).
  unfold create_labelled_dict in Hld.
  pose proof (linked_label_connected bg) as Hconn.
  destruct (first_pass image bg) as [ld0 el0]. simpl in *.
  destruct (update_label_linked ld0 ld el0 L pa a Hld Hpa Ha)
    as (la & Hla & Hlink_a & _).
  destruct (update_label_linked ld0 ld el0 L pb b Hld Hpb Hb)
    as (lb & Hlb & Hlink_b & _).
  apply (Hconn la lb); [|done..].
  eapply rtc_trans; [done|by apply linked_sym].
Qed.
End sound.

Lemma find_sprites_sound_witness :
  ∃ bg, bg = 0
    ∧ ∀ a b L, L ≠ 0 →
        map_cell [[1; 0; 0; 0; 2]; [1; 0; 1; 0; 2]; [0; 1; 0; 2; 0]] a = Some L →
        map_cell [[1; 0; 0; 0; 2]; [1; 0; 1; 0; 2]; [0; 1; 0; 2; 0]] b = Some L →
        connected zigzag bg a b.
Proof.
  apply (find_sprites_sound zigzag (Some 0)
           [(1, mkSprite 1 (0, 0) (2, 2) 3 3); (2, mkSprite 2 (3, 0) (4, 2) 2 3)]).
  vm_compute. reflexivity.
Defined.

(** ** The bounding boxes *)

Lemma py_min_spec {A : Type} (key : A → Z) (l : list A) (x : A) :
  py_min key l = Some x → x ∈ l ∧ ∀ y, y ∈ l → key x ≤ key y.
Proof.
  intros (l1 & l2 & -> & H1 & H2)%py_min_first. split.
  - apply elem_of_app. right. left.
  - intros y [Hy|[->|Hy]%elem_of_cons]%elem_of_app; [|done|auto].
    specialize (H1 _ Hy). lia.
Qed.

Lemma py_max_spec {A : Type} (key : A → Z) (l : list A) (x : A) :
  py_max key l = Some x → x ∈ l ∧ ∀ y, y ∈ l → key y ≤ key x.
Proof.
  intros (l1 & l2 & -> & H1 & H2)%py_max_first. split.
  - apply elem_of_app. right. left.
  - intros y [Hy|[->|Hy]%elem_of_cons]%elem_of_app; [|done|auto].
    specialize (H1 _ Hy). lia.
Qed.

Lemma tight_box_ext (P Q : Z * Z → Prop) (s : Sprite) :
  (∀ c, P c ↔ Q c) → tight_box P s → tight_box Q s.
Proof.
  intros HPQ (Hin & (c1 & ? & ?) & (c2 & ? & ?) & (c3 & ? & ?) & (c4 & ? & ?) & ? & ?).
  split; [intros c Hc%HPQ; auto|].
  split; [exists c1; by rewrite <- HPQ|]. split; [exists c2; by rewrite <- HPQ|].
  split; [exists c3; by rewrite <- HPQ|]. split; [exists c4; by rewrite <- HPQ|].
  done.
Qed.

(** On a non-empty list of coordinates that are not negative, with a label
    that is not negative, the sprite is built and its box is tight. *)
Lemma build_sprite_spec (acc : list (Z * Sprite)) (L : Z) (pixels : list (Z * Z)) :
  pixels ≠ [] → 0 ≤ L → (∀ c, c ∈ pixels → 0 ≤ c.1 ∧ 0 ≤ c.2) →
  ∃ s, build_sprite acc (L, pixels) = Ok (dict_set acc L s)
       ∧ label s = L ∧ tight_box (fun c => c ∈ pixels) s.
Proof.
  intros Hne HL Hpos. unfold build_sprite.
  destruct (py_min fst pixels) as [p1|] eqn:H1; [|by apply py_min_None in H1].
  destruct (py_max fst pixels) as [p2|] eqn:H2; [|by apply py_max_None in H2].
  destruct (py_min snd pixels) as [p3|] eqn:H3; [|by apply py_min_None in H3].
  destruct (py_max snd pixels) as [p4|] eqn:H4; [|by apply py_max_None in H4].
  apply py_min_spec in H1 as [Hp1 Hx1], H3 as [Hp3 Hy1].
  apply py_max_spec in H2 as [Hp2 Hx2], H4 as [Hp4 Hy2].
  pose proof (Hpos _ Hp1) as [? _]. pose proof (Hpos _ Hp2) as [? _].
  pose proof (Hpos _ Hp3) as [_ ?]. pose proof (Hpos _ Hp4) as [_ ?].
  pose proof (Hx1 _ Hp2). pose proof (Hy1 _ Hp4).
  unfold Sprite_init.
  repeat (rewrite (proj2 (Z.leb_le _ _)) by done). simpl.
  eexists. split; [done|]. split; [done|]. unfold tight_box. simpl.
  split; [intros c Hc; specialize (Hx1 c Hc); specialize (Hx2 c Hc);
          specialize (Hy1 c Hc); specialize (Hy2 c Hc); lia|].
  split; [by exists p1|]. split; [by exists p2|].
  split; [by exists p3|]. split; [by exists p4|]. done.
Qed.

Lemma build_sprites_spec (ld : list (Z * list (Z * Z))) (acc : list (Z * Sprite)) :
  (∀ L pixels, (L, pixels) ∈ ld →
     pixels ≠ [] ∧ 0 ≤ L ∧ ∀ c, c ∈ pixels → 0 ≤ c.1 ∧ 0 ≤ c.2) →
  ∃ sprites,
    for_each build_sprite ld acc = Ok sprites
    ∧ ∀ L s, (L, s) ∈ sprites →
        (L, s) ∈ acc
        ∨ ∃ pixels, (L, pixels) ∈ ld ∧ label s = L
                    ∧ tight_box (fun c => c ∈ pixels) s.
Proof.
  revert acc. induction ld as [|[L pixels] ld IH]; intros acc Hld.
  - exists acc. split; [done|]. intros L s ?. by left.
  - rewrite for_each_cons.
    destruct (Hld L pixels) as (Hne & HL & Hpos); [left|].
    destruct (build_sprite_spec acc L pixels Hne HL Hpos) as (s & -> & Hs).
    destruct (IH (dict_set acc L s)) as (sprites & -> & Hsprites).
    { intros L' ps Hin. apply Hld. by right. }
    exists sprites. split; [done|].
    intros L' s' [[[= -> ->]|Hacc]%elem_of_dict_set|(ps & Hin & Hbox)]%Hsprites.
    + right. exists pixels. split; [left|done].
    + by left.
    + right. exists ps. split; [by right|done].
Qed.

Lemma update_label_nonempty (ld ld' : list (Z * list (Z * Z))) (el : list (gset Z)) :
  (∀ k pixels, (k, pixels) ∈ ld → pixels ≠ []) →
  update_label ld el = Ok ld' →
  ∀ k pixels, (k, pixels) ∈ ld' → pixels ≠ [].
Proof.
  intros Hne. unfold update_label.
  destruct (foldl record_label (el, []) (dict_keys ld)) as [store positions].
  destruct (for_each (reduce_entry store) positions []) as [equivalence_dict|];
    [|done].
  simpl. apply (for_each_inv (fun d => ∀ k pixels, (k, pixels) ∈ d → pixels ≠ []));
    [|done].
  intros d k d' _ Hd
    [->|(r & target & ps & _ & Hget_r & _ & ->)]%merge_label_Ok; [done|].
  intros k' pixels [[= -> ->]|Hin]%elem_of_dict_del%elem_of_dict_set; [|by eapply Hd].
  apply dict_get_elem_of, Hd in Hget_r. by destruct target.
Qed.

Section boxes.
Context {pixel : Type} `{EqDecision pixel}.
Context (image : Image pixel).

Lemma create_labelled_dict_entries (background_color : pixel)
    (ld : list (Z * list (Z * Z))) :
  create_labelled_dict image background_color = Ok ld →
  ∀ L pixels, (L, pixels) ∈ ld →
    pixels ≠ [] ∧ 0 ≤ L ∧ ∀ c, c ∈ pixels → 0 ≤ c.1 ∧ 0 ≤ c.2.
Proof.
  intros Hld L pixels Hin.
  pose proof (create_labelled_dict_components _ _ _ Hld) as (_ & Hpos & _ & Hall).
  split; [|split].
  - unfold create_labelled_dict in Hld.
    pose proof (first_pass_shape image background_color) as [_ Hne].
    destruct (first_pass image background_color) as [ld0 el0].
    by eapply (update_label_nonempty ld0 ld el0).
  - assert (1 ≤ L); [|lia]. apply Hpos, list_elem_of_fmap. by exists (L, pixels).
  - intros c Hc.
    assert (in_image image c) as [? ?]; [|lia].
    apply Hall, elem_of_all_pixels. by exists L, pixels.
Qed.

(** With an explicit background, [find_sprites] returns its result or raises
    [KeyError]: building the sprites raises nothing, since every component
    has a pixel and no coordinate or label is negative. *)
Theorem find_sprites_raises_only_KeyError (background_color : pixel) :
  (∃ sprites label_map,
     find_sprites image (Some background_color) = Ok (sprites, label_map)
     ∧ ∃ ld, create_labelled_dict image background_color = Ok ld
             ∧ dict_keys sprites = dict_keys ld)
  ∨ ∃ key, find_sprites image (Some background_color) = Raise (KeyError key).
Proof.
  unfold find_sprites. simpl.
  destruct (create_labelled_dict image background_color) as [ld|e] eqn:Hld.
  - left. simpl.
    destruct (build_sprites_spec ld [] (create_labelled_dict_entries _ _ Hld))
      as (sprites & Hbuild & _).
    rewrite Hbuild. simpl. eexists _, _. split; [done|]. exists ld. split; [done|].
    apply build_sprites_keys in Hbuild; [done|].
    by apply create_labelled_dict_components in Hld as [? _].
  - right. simpl. unfold create_labelled_dict in Hld.
    destruct (first_pass image background_color) as [ld0 el0].
    destruct (update_label_cases ld0 el0) as [[ld' Heq]|[key Heq]];
      rewrite Heq in Hld; [done|].
    injection Hld as <-. by exists key.
Qed.

Lemma find_sprites_boxes (background_color : option pixel)
    (sprites : list (Z * Sprite)) (label_map : list (list Z)) (L : Z) (s : Sprite) :
  find_sprites image background_color = Ok (sprites, label_map) →
  (L, s) ∈ sprites →
  label s = L ∧ L ≠ 0
  ∧ tight_box (fun c => map_cell label_map c = Some L) s.
Proof.
  intros (bg & ld & _ & Hld & Hbuild & ->)%find_sprites_Ok_inv Hs.
  destruct (build_sprites_spec ld [] (create_labelled_dict_entries _ _ Hld))
    as (sprites' & Hbuild' & Hspec).
  rewrite Hbuild in Hbuild'. injection Hbuild' as <-.
  destruct (Hspec L s Hs) as [?%elem_of_nil|(pixels & Hin & Hlabel & Hbox)]; [done|].
  pose proof (create_labelled_dict_components _ _ _ Hld) as (Hnodup & Hpos & _).
  assert (L ≠ 0) as HL.
  { assert (1 ≤ L); [|lia]. apply Hpos, list_elem_of_fmap. by exists (L, pixels). }
  split; [done|]. split; [done|].
  eapply tight_box_ext; [|exact Hbox].
  intros c. rewrite (label_map_cells image bg ld L c Hld HL). split.
  - intros Hc. by exists pixels.
  - intros (ps & Hps & Hc). apply elem_of_dict_get in Hin, Hps; [|done..].
    by simplify_eq.
Qed.

(** Every sprite that [find_sprites] returns carries its label, and its box
    is the tightest one around the cells of the label map that hold the
    label. *)
Theorem find_sprites_bounding_box (background_color : option pixel)
    (sprites : list (Z * Sprite)) (label_map : list (list Z)) (L : Z) (s : Sprite) :
  find_sprites image background_color = Ok (sprites, label_map) →
  (L, s) ∈ sprites →
  label s = L ∧ L ≠ 0
  ∧ tight_box (fun c => map_cell label_map c = Some L) s.
Proof. apply find_sprites_boxes. Qed.
End boxes.

Lemma find_sprites_bounding_box_witness :
  label (mkSprite 2 (3, 0) (4, 2) 2 3) = 2 ∧ 2 ≠ 0
  ∧ tight_box
      (fun c => map_cell [[1; 0; 0; 0; 2]; [1; 0; 1; 0; 2]; [0; 1; 0; 2; 0]] c = Some 2)
      (mkSprite 2 (3, 0) (4, 2) 2 3).
Proof.
  apply (find_sprites_bounding_box zigzag (Some 0)
           [(1, mkSprite 1 (0, 0) (2, 2) 3 3); (2, mkSprite 2 (3, 0) (4, 2) 2 3)]).
  - vm_compute. reflexivity.
  - right. left.
Defined.

(** ** Pass 2 keeps every pixel *)

(** When [update_label] returns, on a dictionary given as Python has it (no
    label twice), the labels that are left are labels of the dictionary, in
    no case twice, and the pixel lists hold the same coordinates as before,
    each as often as before. *)
Theorem update_label_preserves_pixels (ld ld' : list (Z * list (Z * Z)))
    (el : list (gset Z)) :
  NoDup (dict_keys ld) → update_label ld el = Ok ld' →
  NoDup (dict_keys ld')
  ∧ (∀ k, k ∈ dict_keys ld' → k ∈ dict_keys ld)
  ∧ all_pixels ld' ≡ₚ all_pixels ld.
Proof. apply update_label_keeps. Qed.

Lemma update_label_preserves_pixels_witness :
  NoDup (dict_keys [(1, [(0, 0); (0, 1); (1, 2); (2, 1)]); (2, [(4, 0); (4, 1); (3, 2)])])
  ∧ (∀ k, k ∈ dict_keys [(1, [(0, 0); (0, 1); (1, 2); (2, 1)]);
                          (2, [(4, 0); (4, 1); (3, 2)])] →
          k ∈ dict_keys [(1, [(0, 0); (0, 1); (1, 2)]); (2, [(4, 0); (4, 1); (3, 2)]);
                         (3, [(2, 1)])])
  ∧ all_pixels [(1, [(0, 0); (0, 1); (1, 2); (2, 1)]); (2, [(4, 0); (4, 1); (3, 2)])]
    ≡ₚ all_pixels [(1, [(0, 0); (0, 1); (1, 2)]); (2, [(4, 0); (4, 1); (3, 2)]);
                   (3, [(2, 1)])].
Proof.
  apply (update_label_preserves_pixels _ _ [{[1]}; {[2]}; {[1; 3]}; {[2; 3]}]).
  - apply (bool_decide_unpack _). vm_compute. exact I.
  - vm_compute. reflexivity.
Defined.

(** ** The label map of any dictionary *)

Lemma cell_label_last (d1 d2 : list (Z * list (Z * Z))) (k : Z)
    (pixels : list (Z * Z)) (c : Z * Z) :
  c ∈ pixels → (∀ e, e ∈ d2 → c ∉ e.2) →
  cell_label (d1 ++ (k, pixels) :: d2) c = k.
Proof.
  intros Hc Hd2. unfold cell_label. rewrite foldl_app. simpl.
  rewrite bool_decide_eq_true_2 by done. generalize k. clear Hc.
  induction d2 as [|e d2 IH]; intros v; simpl; [done|].
  rewrite bool_decide_eq_false_2 by (apply Hd2; left).
  apply IH. intros e' He'. apply Hd2. by right.
Qed.

(** [create_label_map] returns [height] rows of [width] cells.  A cell holds
    the label of the last entry of the dictionary whose list has the cell's
    coordinate, and 0 when no list has it; outside the canvas there is no
    cell. *)
Theorem create_label_map_cells {pixel : Type} (ld : list (Z * list (Z * Z)))
    (image : Image pixel) :
  length (create_label_map ld image) = img_height image
  ∧ (∀ row, row ∈ create_label_map ld image → length row = img_width image)
  ∧ ∀ c,
      (¬ in_image image c → map_cell (create_label_map ld image) c = None)
      ∧ (in_image image c → (∀ e, e ∈ ld → c ∉ e.2) →
         map_cell (create_label_map ld image) c = Some 0)
      ∧ (in_image image c → ∀ d1 d2 k pixels,
           ld = d1 ++ (k, pixels) :: d2 → c ∈ pixels → (∀ e, e ∈ d2 → c ∉ e.2) →
           map_cell (create_label_map ld image) c = Some k).
Proof.
  split; [|split].
  - unfold create_label_map. by rewrite length_fmap, length_range.
  - unfold create_label_map. intros row (y & -> & _)%list_elem_of_fmap.
    by rewrite length_fmap, length_range.
  - intros c. rewrite map_cell_create_label_map. split; [|split].
    + intros Hout. by rewrite decide_False.
    + intros Hin Hnone. rewrite decide_True by done. f_equal.
      destruct (cell_label_spec ld c) as [[H0 _]|(k & ps & Hentry & Hc & _)]; [done|].
      by destruct (Hnone (k, ps)).
    + intros Hin d1 d2 k pixels -> Hc Hd2. rewrite decide_True by done.
      f_equal. by apply cell_label_last.
Qed.

(** ** WP1 on an image without pixels *)

(** On a grayscale image without pixels [find_most_common_color] raises the
    [ValueError] of [max] on an empty list, and so does [find_sprites] when
    no background is given; with a background given [find_sprites] returns
    no sprite. *)
Theorem find_most_common_color_no_pixels (rows : list (list Z)) :
  image_pixels (gray_image rows) = [] →
  find_most_common_color (as_object (gray_image rows))
  = Raise (ValueError "max() arg is an empty sequence")
  ∧ find_sprites (gray_image rows) None
    = Raise (ValueError "max() arg is an empty sequence")
  ∧ ∀ background_color,
      ∃ label_map, find_sprites (gray_image rows) (Some background_color)
                   = Ok ([], label_map).
Proof.
  intros Hpixels.
  assert (find_most_common_color (as_object (gray_image rows))
          = Raise (ValueError "max() arg is an empty sequence")) as Hcolor.
  { unfold find_most_common_color. simpl.
    change (gray_getcolors _ ?m) with (gray_getcolors (image_pixels (gray_image rows)) m).
    rewrite Hpixels. unfold gray_getcolors.
    assert (histogram_entries [] (range 256) = []) as ->.
    { destruct (histogram_entries [] (range 256)) as [|t ts] eqn:Hentries; [done|].
      assert (t ∈ histogram_entries [] (range 256)) as Ht by (rewrite Hentries; left).
      by apply elem_of_histogram_entries in Ht as (_ & ?%elem_of_nil & _). }
    simpl. destruct (Z.gtb_spec (Z.of_nat 0)
      (Z.of_nat (length (default [] (head rows))) * Z.of_nat (length rows)));
      [lia|done]. }
  split; [done|]. split.
  - unfold find_sprites. by rewrite Hcolor.
  - intros bg. unfold find_sprites, create_labelled_dict, first_pass. simpl.
    assert (scan_order (gray_image rows) = []) as ->.
    { unfold image_pixels in Hpixels. by apply fmap_nil_inv in Hpixels. }
    simpl. by eexists.
Qed.

Lemma find_most_common_color_no_pixels_witness :
  find_most_common_color (as_object no_rows)
  = Raise (ValueError "max() arg is an empty sequence")
  ∧ find_sprites no_rows None = Raise (ValueError "max() arg is an empty sequence")
  ∧ ∀ background_color,
      ∃ label_map, find_sprites no_rows (Some background_color) = Ok ([], label_map).
Proof. apply (find_most_common_color_no_pixels []). reflexivity. Defined.

Lemma gray_most_common_smallest_witness :
  ∃ c, find_most_common_color (as_object five_then_three) = Ok c
       ∧ (∀ v, histogram [5; 3] v ≤ histogram [5; 3] c)
       ∧ (∀ v, histogram [5; 3] v = histogram [5; 3] c → c ≤ v).
Proof.
  apply (gray_most_common_smallest [[5; 3]]).
  - discriminate.
  - intros v Hv. change (v ∈ [5; 3]) in Hv.
    apply elem_of_cons in Hv as [->|Hv]; [lia|].
    apply list_elem_of_singleton in Hv as ->. lia.
Defined.

(** * WP4: the picture of the labels *)

Lemma sampled_byte_color (rgb : Z * Z * Z) :
  sampled rgb → byte_color (opaque rgb) = true.
Proof.
  destruct rgb as [[r g] b]. unfold sampled, opaque, byte_color, byte.
  intros [(Hr & Hg & Hb) _].
  rewrite !andb_true_iff, !Z.leb_le, !Z.ltb_lt. lia.
Qed.


Lemma forallb_intro {A : Type} (f : A → bool) (l : list A) :
  (∀ x, x ∈ l → f x = true) → forallb f l = true.
Proof.
  induction l as [|a l IH]; simpl; [done|]. intros Hall.
  rewrite (Hall a) by left. simpl. apply IH. intros x Hx. apply Hall. by right.
Qed.

Lemma rectangular_rows (label_map : list (list Z)) (n : nat) :
  (∀ row, row ∈ label_map → length row = n) → rectangular label_map = true.
Proof.
  intros Hrows. unfold rectangular. apply forallb_intro. intros row Hrow.
  apply Nat.eqb_eq. rewrite (Hrows row Hrow).
  destruct label_map as [|row0 rows]; [by apply elem_of_nil in Hrow|].
  simpl. symmetry. apply Hrows. left.
Qed.

Lemma store_Some (color c : Z * Z * Z * Z) :
  store color = Some c → c = color ∧ byte_color color = true.
Proof. unfold store. destruct (byte_color color); [by intros [= <-]|done]. Qed.

Lemma store_None (color : Z * Z * Z * Z) :
  store color = None → byte_color color = false.
Proof. unfold store. by destruct (byte_color color). Qed.

Section paint.
Context (sample : nat → Z * Z * Z) (background : Z * Z * Z * Z).

Lemma color_table_nil : color_table sample [] ([], 0%nat).
Proof.
  split; [constructor|]. split; [|done]. intros k. split.
  - by intros ?%elem_of_nil.
  - by intros [_ ?%elem_of_nil].
Qed.

Lemma color_table_sample (seen : list Z) (st : list (Z * (Z * Z * Z * Z)) * nat)
    (k : Z) (v : Z * Z * Z * Z) :
  color_table sample seen st → dict_get st.1 k = Some v →
  ∃ n, v = opaque (sample n).
Proof.
  intros (_ & _ & _ & Hvalues) Hk%dict_get_elem_of.
  assert (v ∈ st.1.*2) as Hv by (apply list_elem_of_fmap; by exists (k, v)).
  rewrite Hvalues in Hv. apply list_elem_of_fmap in Hv as (n & -> & _). by exists n.
Qed.

Lemma paint_cell_Some (seen : list Z) (st st' : list (Z * (Z * Z * Z * Z)) * nat)
    (label : Z) (color : Z * Z * Z * Z) :
  color_table sample seen st →
  paint_cell sample background st label = Some (st', color) →
  color_table sample (seen ++ [label]) st'
  ∧ (∀ k v, dict_get st.1 k = Some v → dict_get st'.1 k = Some v)
  ∧ cell_color background st'.1 label color
  ∧ byte_color color = true.
Proof.
  destruct st as [lc n]. unfold color_table. simpl.
  intros (Hnodup & Hkeys & Hn & Hvalues).
  assert (∀ k, k ≠ 0 ∧ k ∈ seen ++ [label] ↔ (k ≠ 0 ∧ k ∈ seen) ∨ (k ≠ 0 ∧ k = label))
    as Hseen.
  { intros k. rewrite elem_of_app, list_elem_of_singleton. tauto. }
  unfold paint_cell, cell_color. simpl. case_decide as H0.
  - destruct (store background) as [c|] eqn:Hstore; [|done].
    apply store_Some in Hstore as [-> Hbyte]. simpl. intros [= <- <-]. simpl.
    split; [|done]. split; [done|]. split; [|done].
    intros k. rewrite Hseen, Hkeys. subst label. tauto.
  - destruct (dict_get lc label) as [found|] eqn:Hlabel.
    + destruct (store found) as [c|] eqn:Hstore; [|done].
      apply store_Some in Hstore as [-> Hbyte]. simpl. intros [= <- <-]. simpl.
      split; [|done]. split; [done|]. split; [|done].
      intros k. rewrite Hseen, Hkeys.
      split; [tauto|]. intros [?|[_ ->]]; [done|].
      apply Hkeys. by eapply dict_get_Some_key.
    + destruct (store (opaque (sample n))) as [c|] eqn:Hstore; [|done].
      apply store_Some in Hstore as [-> Hbyte]. simpl. intros [= <- <-]. simpl.
      split; [|split; [|split; [apply dict_get_set_eq|done]]].
      * apply dict_get_None in Hlabel. rewrite dict_set_fresh by done.
        unfold dict_keys in *. rewrite !fmap_app, length_app. simpl.
        split; [|split; [|split]].
        -- apply NoDup_app. split; [done|]. split; [|apply NoDup_singleton].
           by intros k Hk ->%list_elem_of_singleton.
        -- intros k. rewrite Hseen, elem_of_app, Hkeys, list_elem_of_singleton.
           split; [intros [?| ->]; [by left|by right]|].
           intros [?|[? ->]]; [by left|by right].
        -- lia.
        -- rewrite Nat.add_1_r, seq_S, fmap_app, <- Hvalues, Hn. done.
      * intros k v Hk. rewrite dict_get_set_ne; [done|].
        intros <-. by rewrite Hk in Hlabel.
Qed.

Lemma paint_cell_None (seen : list Z) (st : list (Z * (Z * Z * Z * Z)) * nat)
    (label : Z) :
  color_table sample seen st →
  paint_cell sample background st label = None →
  (label = 0 ∧ byte_color background = false)
  ∨ ∃ n, byte_color (opaque (sample n)) = false.
Proof.
  intros Htable. unfold paint_cell. case_decide as H0.
  - destruct (store background) eqn:Hstore; [done|]. intros _. left.
    split; [done|]. by apply store_None.
  - destruct (dict_get st.1 label) as [found|] eqn:Hlabel.
    + destruct (store found) eqn:Hstore; [done|]. intros _. right.
      destruct (color_table_sample _ _ _ _ Htable Hlabel) as [n ->].
      exists n. by apply store_None.
    + simpl. destruct (store (opaque (sample st.2))) eqn:Hstore; [done|].
      intros _. right. exists st.2. by apply store_None.
Qed.

Lemma paint_row_snoc (st : list (Z * (Z * Z * Z * Z)) * nat) (row : list Z)
    (label : Z) :
  paint_row sample background st (row ++ [label])
  = (acc ← paint_row sample background st row;
     cell ← paint_cell sample background acc.1 label;
     Some (cell.1, acc.2 ++ [cell.2])).
Proof. unfold paint_row. by rewrite foldl_app. Qed.

Lemma paint_row_spec (seen : list Z) (st : list (Z * (Z * Z * Z * Z)) * nat)
    (row : list Z) :
  color_table sample seen st →
  match paint_row sample background st row with
  | Some painted =>
      color_table sample (seen ++ row) painted.1
      ∧ (∀ k v, dict_get st.1 k = Some v → dict_get painted.1.1 k = Some v)
      ∧ Forall2 (cell_color background painted.1.1) row painted.2
      ∧ Forall (fun color => byte_color color = true) painted.2
  | None =>
      (0 ∈ row ∧ byte_color background = false)
      ∨ ∃ n, byte_color (opaque (sample n)) = false
  end.
Proof.
  intros Hst. induction row as [|label row IH] using rev_ind.
  - simpl. rewrite app_nil_r. split; [done|]. split; [done|].
    split; constructor.
  - rewrite paint_row_snoc.
    destruct (paint_row sample background st row) as [[st1 colors]|]; simpl in *.
    + destruct IH as (Htable & Hmono & Hcells & Hbytes).
      destruct (paint_cell sample background st1 label) as [[st' color]|] eqn:Hcell;
        simpl.
      * destruct (paint_cell_Some _ _ _ _ _ Htable Hcell)
          as (Htable' & Hmono' & Hcolor & Hbyte).
        split; [by rewrite app_assoc|]. split; [by auto|]. split.
        -- apply Forall2_app; [|by repeat constructor].
           eapply Forall2_impl; [done|]. intros l c. unfold cell_color.
           case_decide; auto.
        -- apply Forall_app. split; [done|]. by repeat constructor.
      * destruct (paint_cell_None _ _ _ Htable Hcell) as [[-> Hbg]|?]; [|by right].
        left. split; [|done]. apply elem_of_app. right. left.
    + destruct IH as [[Hrow Hbg]|?]; [|by right].
      left. split; [|done]. apply elem_of_app. by left.
Qed.

Lemma paint_snoc (label_map : list (list Z)) (row : list Z) :
  paint sample background (label_map ++ [row])
  = (acc ← paint sample background label_map;
     painted ← paint_row sample background acc.1 row;
     Some (painted.1, acc.2 ++ [painted.2])).
Proof. unfold paint. by rewrite foldl_app. Qed.

Lemma paint_spec (label_map : list (list Z)) :
  match paint sample background label_map with
  | Some painted =>
      color_table sample (mjoin label_map) painted.1
      ∧ Forall2 (Forall2 (cell_color background painted.1.1)) label_map painted.2
      ∧ Forall (Forall (fun color => byte_color color = true)) painted.2
  | None =>
      (occurs label_map 0 ∧ byte_color background = false)
      ∨ ∃ n, byte_color (opaque (sample n)) = false
  end.
Proof.
  induction label_map as [|row label_map IH] using rev_ind.
  - split; [apply color_table_nil|]. split; constructor.
  - rewrite paint_snoc.
    destruct (paint sample background label_map) as [[st1 array]|]; simpl in *.
    + destruct IH as (Htable & Hcells & Hbytes).
      pose proof (paint_row_spec _ _ row Htable) as Hrow.
      destruct (paint_row sample background st1 row) as [[st' colors]|]; simpl in *.
      * destruct Hrow as (Htable' & Hmono & Hcolors & Hbytes').
        split; [|split].
        -- rewrite join_app. simpl. by rewrite app_nil_r.
        -- apply Forall2_app; [|by repeat constructor].
           eapply Forall2_impl; [done|]. intros r cs Hr.
           eapply Forall2_impl; [done|]. intros l c. unfold cell_color.
           case_decide; auto.
        -- apply Forall_app. split; [done|]. by repeat constructor.
      * destruct Hrow as [[Hzero Hbg]|?]; [|by right].
        left. split; [|done]. exists row. split; [|done].
        apply elem_of_app. right. left.
    + destruct IH as [[(r & Hr & Hzero) Hbg]|?]; [|by right].
      left. split; [|done]. exists r. split; [|done]. apply elem_of_app. by left.
Qed.
End paint.

Lemma draw_sprites_spec (label_color : list (Z * (Z * Z * Z * Z)))
    (sprites : list (Z * Sprite))
    (acc : list ((Z * Z) * (Z * Z) * (Z * Z * Z * Z))) :
  match draw_sprites label_color sprites acc with
  | inl lines =>
      (∀ e, e ∈ sprites → e.1 ∈ dict_keys label_color)
      ∧ length lines = (length acc + 4 * length sprites)%nat
      ∧ ∃ fills,
          Forall2 (fun e fill => dict_get label_color e.1 = Some fill) sprites fills
          ∧ lines = acc ++ mjoin (zip_with (fun e fill => outline e.2 fill) sprites fills)
  | inr key => key ∈ dict_keys sprites ∧ key ∉ dict_keys label_color
  end.
Proof.
  revert acc. induction sprites as [|[label sprite] sprites IH]; intros acc; simpl.
  - split; [by intros ? ?%elem_of_nil|]. split; [lia|]. exists [].
    split; [constructor|]. simpl. by rewrite app_nil_r.
  - destruct (dict_get label_color label) as [fill|] eqn:Hfill.
    + specialize (IH (acc ++ outline sprite fill)).
      destruct (draw_sprites label_color sprites (acc ++ outline sprite fill)).
      * destruct IH as (Hkeys & Hlen & fills & Hfills & ->). split; [|split].
        -- intros e [->|He]%elem_of_cons; [|auto]. by eapply dict_get_Some_key.
        -- rewrite Hlen, length_app. simpl. lia.
        -- exists (fill :: fills). split; [by constructor|].
           simpl. by rewrite <- !app_assoc.
      * destruct IH as [Hkey Hmissing]. split; [by right|done].
    + split; [left|]. by apply dict_get_None.
Qed.

Lemma elem_of_occurs (label_map : list (list Z)) (label : Z) :
  label ∈ mjoin label_map ↔ occurs label_map label.
Proof.
  rewrite list_elem_of_join. unfold occurs. split.
  - intros (row & ? & ?). by exists row.
  - intros (row & ? & ?). by exists row.
Qed.


(** The array that [create_sprite_labels_image] hands to Pillow, when it
    gets that far.  Every colour in it is made of bytes.  A cell whose label
    is 0 has the background colour, made opaque when it has three channels.
    The others have the colour that [label_color] holds for their label: two
    cells with one label have one colour.  [label_color] has one entry for
    each label of the map other than 0, and the colour of the entry number
    [n] is the sample number [n] with alpha 255.  The lines asked for a
    sprite are its outline in the colour of its label. *)
Theorem create_sprite_labels_image_array (sample : nat → Z * Z * Z)
    (sprites : list (Z * Sprite)) (label_map : list (list Z))
    (background_color : color_arg) (array : list (list (Z * Z * Z * Z)))
    (lines : list ((Z * Z) * (Z * Z) * (Z * Z * Z * Z))) :
  create_sprite_labels_image sample sprites label_map background_color
  = Rendered array lines →
  ∃ label_color fills,
    NoDup (dict_keys label_color)
    ∧ (∀ k, k ∈ dict_keys label_color ↔ k ≠ 0 ∧ occurs label_map k)
    ∧ label_color.*2 = (fun n => opaque (sample n)) <$> seq 0 (length label_color)
    ∧ Forall2 (Forall2 (cell_color (with_alpha background_color) label_color))
        label_map array
    ∧ Forall (Forall (fun color => byte_color color = true)) array
    ∧ Forall2 (fun e fill => dict_get label_color e.1 = Some fill) sprites fills
    ∧ lines = mjoin (zip_with (fun e fill => outline e.2 fill) sprites fills).
Proof.
  unfold create_sprite_labels_image. destruct label_map as [|row rows] eqn:Hmap; [done|].
  rewrite <- Hmap. clear Hmap.
  destruct (rectangular label_map); [|done].
  pose proof (paint_spec sample (with_alpha background_color) label_map) as Hpaint.
  destruct (paint sample (with_alpha background_color) label_map)
    as [[[label_color n] arr]|]; [|done]. simpl in *.
  destruct Hpaint as ((Hnodup & Hkeys & _ & Hvalues) & Hcells & Hbytes).
  pose proof (draw_sprites_spec label_color sprites []) as Hdraw.
  destruct (draw_sprites label_color sprites []) as [ls|key]; [|done].
  intros [= <- <-]. destruct Hdraw as (_ & _ & fills & Hfills & ->).
  exists label_color, fills. split; [done|]. split; [|done].
  intros k. by rewrite <- elem_of_occurs.
Qed.

Lemma create_sprite_labels_image_array_witness :
  ∃ label_color fills,
    NoDup (dict_keys label_color)
    ∧ (∀ k, k ∈ dict_keys label_color ↔ k ≠ 0 ∧ occurs [[1; 1; 0]] k)
    ∧ label_color.*2
      = (fun n => opaque ((fun _ => (10, 20, 30)) n)) <$> seq 0 (length label_color)
    ∧ Forall2 (Forall2 (cell_color (with_alpha (RGB 255 255 255)) label_color))
        [[1; 1; 0]] [[(10, 20, 30, 255); (10, 20, 30, 255); (255, 255, 255, 255)]]
    ∧ Forall (Forall (fun color => byte_color color = true))
        [[(10, 20, 30, 255); (10, 20, 30, 255); (255, 255, 255, 255)]]
    ∧ Forall2 (fun e fill => dict_get label_color e.1 = Some fill)
        [(1, mkSprite 1 (0, 0) (1, 0) 2 1)] fills
    ∧ [((0, 0), (1, 0), (10, 20, 30, 255)); ((0, 0), (0, 0), (10, 20, 30, 255));
       ((1, 0), (1, 0), (10, 20, 30, 255)); ((1, 0), (0, 0), (10, 20, 30, 255))]
      = mjoin (zip_with (fun e fill => outline e.2 fill)
                 [(1, mkSprite 1 (0, 0) (1, 0) 2 1)] fills).
Proof.
  apply (create_sprite_labels_image_array (fun _ => (10, 20, 30))
           [(1, mkSprite 1 (0, 0) (1, 0) 2 1)] [[1; 1; 0]] (RGB 255 255 255)).
  vm_compute. reflexivity.
Defined.

(** The lines drawn for a sprite that the constructor made are the four
    sides of its box: the corners computed from the width and the height are
    [(x2, y1)] and [(x1, y2)]. *)
Theorem outline_of_Sprite_init (lbl x1 y1 x2 y2 : Z) (s : Sprite)
    (fill : Z * Z * Z * Z) :
  Sprite_init lbl x1 y1 x2 y2 = Ok s →
  outline s fill
  = [((x1, y1), (x2, y1), fill); ((x1, y1), (x1, y2), fill);
     ((x2, y2), (x2, y1), fill); ((x2, y2), (x1, y2), fill)].
Proof.
  unfold Sprite_init. destruct (_ && _); [|done]. intros [= <-].
  unfold outline, shift. simpl.
  replace (x1 + (x2 - x1 + 1 - 1)) with x2 by lia.
  replace (y1 + (y2 - y1 + 1 - 1)) with y2 by lia.
  by rewrite !Z.add_0_r.
Qed.

Lemma outline_of_Sprite_init_witness :
  outline (mkSprite 2 (3, 0) (4, 2) 2 3) (1, 2, 3, 255)
  = [((3, 0), (4, 0), (1, 2, 3, 255)); ((3, 0), (3, 2), (1, 2, 3, 255));
     ((4, 2), (4, 0), (1, 2, 3, 255)); ((4, 2), (3, 2), (1, 2, 3, 255))].
Proof. apply (outline_of_Sprite_init 2 3 0 4 2). reflexivity. Defined.

Lemma map_cell_occurs (label_map : list (list Z)) (c : Z * Z) (L : Z) :
  map_cell label_map c = Some L → occurs label_map L.
Proof.
  unfold map_cell. case_decide; [|done].
  destruct (label_map !! Z.to_nat c.2) as [row|] eqn:Hrow; [|done]. simpl.
  intros Hcell. exists row. split; by eapply list_elem_of_lookup_2.
Qed.

(** What [find_sprites] returns can be drawn.  On an image with at least one
    row and one column, with a background colour made of bytes and samples
    as [random.sample(range(0, 255), 3)] gives them,
    [create_sprite_labels_image] raises nothing on the sprites and the label
    map of [find_sprites]: it hands Pillow [height] rows of [width] byte
    colours and asks for four lines for each sprite. *)
Theorem find_sprites_renders {pixel : Type} `{EqDecision pixel}
    (image : Image pixel) (background_color : option pixel)
    (sprites : list (Z * Sprite)) (label_map : list (list Z))
    (sample : nat → Z * Z * Z) (fill_color : color_arg) :
  find_sprites image background_color = Ok (sprites, label_map) →
  img_height image ≠ 0%nat → img_width image ≠ 0%nat →
  (∀ n, sampled (sample n)) →
  byte_color (with_alpha fill_color) = true →
  ∃ array lines,
    create_sprite_labels_image sample sprites label_map fill_color
    = Rendered array lines
    ∧ length array = img_height image
    ∧ Forall (fun colors => length colors = img_width image
                            ∧ Forall (fun color => byte_color color = true) colors)
        array
    ∧ length lines = (4 * length sprites)%nat.
Proof.
  intros Hrun Hheight _ Hsample Hfill.
  pose proof (find_sprites_boxes image background_color sprites label_map) as Hboxes.
  specialize (fun L s => Hboxes L s Hrun).
  apply find_sprites_Ok_inv in Hrun as (bg & ld & _ & _ & _ & Hmap).
  assert (length label_map = img_height image) as Hrows.
  { rewrite Hmap. unfold create_label_map. by rewrite length_fmap, length_range. }
  assert (∀ row, row ∈ label_map → length row = img_width image) as Hwidth.
  { intros row. rewrite Hmap. unfold create_label_map.
    intros (y & -> & _)%list_elem_of_fmap. by rewrite length_fmap, length_range. }
  clear Hmap. unfold create_sprite_labels_image.
  destruct label_map as [|row rows] eqn:Hmap; [done|].
  rewrite <- Hmap in *. clear Hmap.
  rewrite (rectangular_rows label_map _ Hwidth).
  pose proof (paint_spec sample (with_alpha fill_color) label_map) as Hpaint.
  destruct (paint sample (with_alpha fill_color) label_map)
    as [[[label_color n] array]|]; simpl in *.
  - destruct Hpaint as ((_ & Hkeys & _) & Hcells & Hbytes).
    pose proof (draw_sprites_spec label_color sprites []) as Hdraw.
    destruct (draw_sprites label_color sprites []) as [lines|key].
    + destruct Hdraw as (_ & Hlen & _). exists array, lines. split; [done|].
      split; [by rewrite <- (Forall2_length _ _ _ Hcells)|]. split; [|done].
      apply Forall_forall. intros colors Hcolors. split.
      * apply list_elem_of_lookup_1 in Hcolors as [i Hi].
        destruct (Forall2_lookup_r _ _ _ _ _ Hcells Hi) as (r & Hr & Hrc).
        rewrite <- (Forall2_length _ _ _ Hrc). apply Hwidth.
        by eapply list_elem_of_lookup_2.
      * by eapply Forall_forall in Hbytes.
    + exfalso. destruct Hdraw as [([L s] & -> & Hin)%list_elem_of_fmap Hmissing].
      simpl in *. apply Hmissing, Hkeys.
      destruct (Hboxes L s Hin) as (_ & HL & _ & (c & Hc & _) & _).
      split; [done|]. by eapply elem_of_occurs, map_cell_occurs.
  - exfalso. destruct Hpaint as [[_ Hbg]|[n Hn]].
    + by rewrite Hfill in Hbg.
    + by rewrite (sampled_byte_color _ (Hsample n)) in Hn.
Qed.

Lemma find_sprites_renders_witness :
  ∃ array lines,
    create_sprite_labels_image (fun _ => (10, 20, 30))
      [(1, mkSprite 1 (0, 0) (1, 0) 2 1)] [[1; 1]] (RGB 255 255 255)
    = Rendered array lines
    ∧ length array = img_height pair_of_pixels
    ∧ Forall (fun colors => length colors = img_width pair_of_pixels
                            ∧ Forall (fun color => byte_color color = true) colors)
        array
    ∧ length lines = 4%nat.
Proof.
  apply (find_sprites_renders pair_of_pixels (Some 0)
           [(1, mkSprite 1 (0, 0) (1, 0) 2 1)] [[1; 1]]).
  - vm_compute. reflexivity.
  - discriminate.
  - discriminate.
  - intros n. unfold sampled. lia.
  - reflexivity.
Defined.

(** * When does [find_sprites] return? *)

(** ** The first loop of [update_label], label by label *)

Lemma record_sets_unbound (label : Z) (store : list (gset Z)) (ed : list (Z * nat))
    (js : list nat) :
  (∀ j s, j ∈ js → store !! j = Some s → label ∉ s) →
  foldl (record_set label) (store, ed) js = (store, ed).
Proof.
  induction js as [|j js IH]; intros Hjs; cbn [foldl]; [done|].
  assert (record_set label (store, ed) j = (store, ed)) as ->.
  { unfold record_set. destruct (store !! j) as [s|] eqn:Hs; [|done].
    rewrite bool_decide_eq_false_2; [done|]. apply (Hjs j); [left|done]. }
  apply IH. intros j' s Hj'. apply Hjs. by right.
Qed.

Lemma absorb_spec (label : Z) (W : gset Z) (later : list (gset Z)) (x : Z) :
  x ∈ absorb label W later
  ↔ x ∈ W ∨ ∃ s, s ∈ later ∧ label ∈ s ∧ x ∈ s.
Proof.
  unfold absorb. revert W. induction later as [|s later IH]; intros W; simpl.
  - split; [by left|]. intros [?|(? & ?%elem_of_nil & _)]; done.
  - rewrite IH. case_bool_decide as Hin.
    + rewrite elem_of_union. split.
      * intros [[?|?]|(s' & ? & ? & ?)]; [by left| |].
        -- right. exists s. split; [left|done].
        -- right. exists s'. split; [by right|done].
      * intros [?|(s' & [->|?]%elem_of_cons & ? & ?)].
        -- left. by left.
        -- left. by right.
        -- right. by exists s'.
    + split.
      * intros [?|(s' & ? & ? & ?)]; [by left|]. right. exists s'.
        split; [by right|done].
      * intros [?|(s' & [->|?]%elem_of_cons & ? & ?)]; [by left|done|].
        right. by exists s'.
Qed.

Lemma insert_middle {A : Type} (l1 l2 : list A) (x y : A) :
  <[length l1 := y]> (l1 ++ x :: l2) = l1 ++ y :: l2.
Proof. rewrite insert_app_r_alt by lia. by rewrite Nat.sub_diag. Qed.

Lemma record_sets_later (label : Z) (pre post1 post2 : list (gset Z)) (W : gset Z)
    (ed : list (Z * nat)) :
  dict_get ed label = Some (length pre) →
  foldl (record_set label) (pre ++ W :: post1 ++ post2, ed)
    (seq (S (length pre + length post1)) (length post2))
  = (pre ++ absorb label W post2 :: post1 ++ post2, ed).
Proof.
  intros Hbound. revert post1 W. induction post2 as [|s post2 IH]; intros post1 W.
  - done.
  - cbn [length seq foldl].
    assert (record_set label (pre ++ W :: post1 ++ s :: post2, ed)
              (S (length pre + length post1))
            = (pre ++ (if bool_decide (label ∈ s) then W ∪ s else W)
                   :: post1 ++ s :: post2, ed)) as ->.
    { unfold record_set.
      assert ((pre ++ W :: post1 ++ s :: post2) !! S (length pre + length post1)
              = Some s) as ->.
      { rewrite lookup_app_r by lia.
        replace (S (length pre + length post1) - length pre)%nat
          with (S (length post1)) by lia.
        simpl. rewrite lookup_app_r by lia. by rewrite Nat.sub_diag. }
      case_bool_decide; [|done]. rewrite Hbound.
      rewrite list_lookup_middle by done. simpl.
      by rewrite insert_middle. }
    replace (pre ++ (if bool_decide (label ∈ s) then W ∪ s else W)
                 :: post1 ++ s :: post2)
      with (pre ++ (if bool_decide (label ∈ s) then W ∪ s else W)
                :: (post1 ++ [s]) ++ post2) by (by rewrite <- app_assoc).
    replace (S (S (length pre + length post1)))
      with (S (length pre + length (post1 ++ [s])))
      by (rewrite length_app; simpl; lia).
    rewrite IH. unfold absorb. simpl. by rewrite <- app_assoc.
Qed.

(** The whole inner loop for a label not processed before: nothing changes
    when no set holds the label; otherwise the label is bound to the first
    set that holds it, and that set absorbs the later ones that hold it. *)
Lemma record_label_bound (label : Z) (pre post : list (gset Z)) (s0 : gset Z)
    (ed : list (Z * nat)) :
  label ∉ dict_keys ed →
  (∀ s, s ∈ pre → label ∉ s) → label ∈ s0 →
  record_label (pre ++ s0 :: post, ed) label
  = (pre ++ absorb label s0 post :: post, ed ++ [(label, length pre)]).
Proof.
  intros Hfresh Hpre Hs0. unfold record_label. cbn [fst].
  rewrite length_app. cbn [length].
  replace (length pre + S (length post))%nat
    with (length pre + (1 + length post))%nat by lia.
  rewrite seq_app, foldl_app, record_sets_unbound.
  2:{ intros j s Hj%elem_of_seq Hs. rewrite lookup_app_l in Hs by lia.
      by eapply Hpre, list_elem_of_lookup_2. }
  rewrite Nat.add_0_l, seq_app, foldl_app. cbn [seq foldl].
  assert (record_set label (pre ++ s0 :: post, ed) (length pre)
          = (pre ++ s0 :: post, ed ++ [(label, length pre)])) as ->.
  { unfold record_set. rewrite list_lookup_middle by done.
    rewrite bool_decide_eq_true_2 by done.
    rewrite (proj2 (dict_get_None ed label)) by done.
    by rewrite dict_set_fresh. }
  pose proof (record_sets_later label pre [] post s0 (ed ++ [(label, length pre)]))
    as Hlater.
  cbn [length app] in Hlater. rewrite Nat.add_0_r in Hlater. rewrite Nat.add_1_r.
  apply Hlater.
  rewrite <- (dict_set_fresh ed label) by done. apply dict_get_set_eq.
Qed.

Lemma app_snoc_inv {A : Type} (l l1 l2 : list A) (x y : A) :
  l ++ [x] = l1 ++ y :: l2 →
  (l2 = [] ∧ x = y ∧ l = l1) ∨ (∃ l2', l2 = l2' ++ [x] ∧ l = l1 ++ y :: l2').
Proof.
  destruct l2 as [|z l2' _] using rev_ind.
  - intros [-> ->]%app_inj_tail. by left.
  - rewrite app_comm_cons, app_assoc. intros [-> ->]%app_inj_tail.
    right. by exists l2'.
Qed.

(** One label more: the invariant of the first loop is kept when [label] is
    bound to the set at [fc], the first that holds it, and that set becomes
    [W], made of itself and of the later sets that hold [label]. *)
Lemma nested_step (store : list (gset Z)) (ed : list (Z * nat)) (label : Z)
    (fc : nat) (s0 W : gset Z) :
  records_nested (store, ed) →
  label ∉ dict_keys ed →
  store !! fc = Some s0 → label ∈ s0 →
  (∀ j s, (j < fc)%nat → store !! j = Some s → label ∉ s) →
  s0 ⊆ W →
  (∀ j s, (fc < j)%nat → store !! j = Some s → label ∈ s → s ⊆ W) →
  (∀ x, x ∈ W →
        x ∈ s0 ∨ ∃ j s, (fc < j)%nat ∧ store !! j = Some s ∧ label ∈ s ∧ x ∈ s) →
  records_nested (<[fc := W]> store, ed ++ [(label, fc)]).
Proof.
  intros (Hnodup & Hbound & Hnest & Horder) Hfresh Hfc Hs0 Hfirst Hw1 Hw2 Hw3.
  simpl in *.
  assert (fc < length store)%nat as Hlt by (by eapply lookup_lt_Some).
  assert (∀ a f, (a, f) ∈ ed → a ∈ W → (fc ≤ f)%nat) as HK.
  { intros a f Ha HaW. destruct (decide (fc ≤ f)%nat) as [|Hlt']; [done|]. exfalso.
    destruct (Hbound a f Ha) as (sf & Hsf & Hasf).
    destruct (Hw3 a HaW) as [Has0|(j & s & Hj & Hjs & Hcs & Has)].
    - destruct (Hnest a f sf fc s0 Ha Hsf Hfc Has0) as [Hsub _].
      apply (Hfirst f sf); [lia|done|]. apply Hsub; [lia|done].
    - destruct (Hnest a f sf j s Ha Hsf Hjs Has) as [Hsub _].
      apply (Hfirst f sf); [lia|done|]. apply Hsub; [lia|done]. }
  split; [|split; [|split]]; simpl.
  - unfold dict_keys. rewrite fmap_app. apply NoDup_app. split; [done|].
    split; [|apply NoDup_singleton]. by intros k Hk ->%list_elem_of_singleton.
  - intros a f [Ha|[= -> ->]%list_elem_of_singleton]%elem_of_app.
    + destruct (Hbound a f Ha) as (sf & Hsf & Hasf).
      destruct (decide (f = fc)) as [->|Hne].
      * exists W. split; [by apply list_lookup_insert_eq|].
        apply Hw1. rewrite Hfc in Hsf. by injection Hsf as <-.
      * exists sf. by rewrite list_lookup_insert_ne.
    + exists W. split; [by apply list_lookup_insert_eq|by apply Hw1].
  - intros a f sf' j s' [Ha|[= -> ->]%list_elem_of_singleton]%elem_of_app Hsf' Hs' Has'.
    + destruct (Hbound a f Ha) as (sf & Hsf & Hasf).
      destruct (decide (j = fc)) as [->|Hj], (decide (f = fc)) as [->|Hf].
      * split; lia.
      * rewrite list_lookup_insert_eq in Hs' by done. injection Hs' as <-.
        rewrite list_lookup_insert_ne in Hsf' by done.
        rewrite Hsf in Hsf'. injection Hsf' as <-.
        pose proof (HK a f Ha Has'). split; [lia|]. intros _.
        destruct (Hw3 a Has') as [Has0|(i & s & Hi & His & Hcs & Has)].
        -- destruct (Hnest a f sf fc s0 Ha Hsf Hfc Has0) as [_ Hsub].
           etrans; [apply Hsub; lia|done].
        -- destruct (Hnest a f sf i s Ha Hsf His Has) as [Hsub1 Hsub2].
           destruct (decide (i = f)) as [->|Hif].
           { rewrite Hsf in His. injection His as <-. by eapply (Hw2 f). }
           destruct (decide (f < i)%nat).
           ++ apply (Hw2 f sf); [lia|done|]. by apply Hsub1.
           ++ etrans; [apply Hsub2; lia|]. by eapply Hw2.
      * rewrite list_lookup_insert_eq in Hsf' by done. injection Hsf' as <-.
        rewrite list_lookup_insert_ne in Hs' by done.
        destruct (Hnest a fc s0 j s' Ha Hfc Hs' Has') as [Hsub1 Hsub2]. split.
        -- intros Hlt'. etrans; [by apply Hsub1|done].
        -- intros Hlt'. exfalso. apply (Hfirst j s'); [done..|]. by apply Hsub2.
      * rewrite list_lookup_insert_ne in Hsf', Hs' by done.
        by eapply Hnest.
    + rewrite list_lookup_insert_eq in Hsf' by done. injection Hsf' as <-.
      destruct (decide (j = fc)) as [->|Hj]; [split; lia|].
      rewrite list_lookup_insert_ne in Hs' by done. split.
      * intros Hlt'. by eapply Hw2.
      * intros Hlt'. by destruct (Hfirst j s').
  - intros e1 a fa e2 b fb e3 sb Heq Hsb Hasb.
    rewrite app_comm_cons, app_assoc in Heq.
    apply app_snoc_inv in Heq as [(-> & [= <- <-] & Hed)|(e3' & -> & Hed)].
    + rewrite list_lookup_insert_eq in Hsb by done. injection Hsb as <-.
      apply (HK a); [|done]. rewrite Hed. apply elem_of_app. right. left.
    + rewrite <- app_assoc, <- app_comm_cons in Hed.
      destruct (decide (fb = fc)) as [->|Hne].
      * rewrite list_lookup_insert_eq in Hsb by done. injection Hsb as <-.
        apply (HK a); [|done]. rewrite Hed. apply elem_of_app. right. left.
      * rewrite list_lookup_insert_ne in Hsb by done. by eapply Horder.
Qed.

Lemma first_holder (store : list (gset Z)) (label : Z) :
  (∃ s, s ∈ store ∧ label ∈ s) →
  ∃ pre s0 post,
    store = pre ++ s0 :: post ∧ (∀ s, s ∈ pre → label ∉ s) ∧ label ∈ s0.
Proof.
  induction store as [|s store IH]; [by intros (? & ?%elem_of_nil & _)|].
  intros (s' & Hs' & Hl). destruct (decide (label ∈ s)) as [Hin|Hout].
  - exists [], s, store. split; [done|]. split; [by intros ? ?%elem_of_nil|done].
  - destruct IH as (pre & s0 & post & -> & Hpre & Hs0).
    { apply elem_of_cons in Hs' as [->|?]; [done|]. by exists s'. }
    exists (s :: pre), s0, post. split; [done|]. split; [|done].
    intros s'' [->|?]%elem_of_cons; [done|auto].
Qed.

Lemma record_label_cases (st : list (gset Z) * list (Z * nat)) (label : Z) :
  label ∉ dict_keys st.2 →
  ((∀ s, s ∈ st.1 → label ∉ s) ∧ record_label st label = st)
  ∨ ∃ pre s0 post,
      st.1 = pre ++ s0 :: post ∧ (∀ s, s ∈ pre → label ∉ s) ∧ label ∈ s0
      ∧ record_label st label
        = (pre ++ absorb label s0 post :: post, st.2 ++ [(label, length pre)]).
Proof.
  destruct st as [store ed]. simpl. intros Hfresh.
  destruct (decide (Exists (fun s => label ∈ s) store)) as [Hex|Hnone].
  - right. apply Exists_exists in Hex as (s & Hs & Hl).
    destruct (first_holder store label) as (pre & s0 & post & -> & Hpre & Hs0);
      [by exists s|].
    exists pre, s0, post. split; [done|]. split; [done|]. split; [done|].
    by apply record_label_bound.
  - left. rewrite Exists_exists in Hnone.
    assert (∀ s, s ∈ store → label ∉ s) as Hall.
    { intros s Hs Hl. apply Hnone. by exists s. }
    split; [done|]. unfold record_label. apply record_sets_unbound.
    intros j s _ Hs. by eapply Hall, list_elem_of_lookup_2.
Qed.

Lemma record_label_nested (st : list (gset Z) * list (Z * nat)) (label : Z) :
  label ∉ dict_keys st.2 → records_nested st →
  records_nested (record_label st label).
Proof.
  intros Hfresh Hst.
  destruct (record_label_cases st label Hfresh)
    as [[_ ->]|(pre & s0 & post & Hstore & Hpre & Hs0 & ->)]; [done|].
  destruct st as [store ed]. simpl in *. subst store.
  rewrite <- (insert_middle pre post s0 (absorb label s0 post)).
  apply nested_step with s0; try done.
  - apply list_lookup_middle. done.
  - intros j s Hj Hs. rewrite lookup_app_l in Hs by done.
    by eapply Hpre, list_elem_of_lookup_2.
  - intros x Hx. apply absorb_spec. by left.
  - intros j s Hj Hs Hl x Hx. apply absorb_spec. right. exists s.
    split; [|done]. rewrite lookup_app_r in Hs by lia.
    destruct (j - length pre)%nat as [|i] eqn:Hi; [lia|]. simpl in Hs.
    by eapply list_elem_of_lookup_2.
  - intros x [?|(s & Hs & Hl & Hx)]%absorb_spec; [by left|]. right.
    apply list_elem_of_lookup_1 in Hs as [i Hi].
    exists (S (length pre + i)), s. split; [lia|]. split; [|done].
    rewrite lookup_app_r by lia.
    replace (S (length pre + i) - length pre)%nat with (S i) by lia. done.
Qed.

(** The first loop on labels that all occur in some set: each one is bound,
    in the order of the dictionary, and the sets hold old labels only. *)
Lemma record_labels_all_bound (K : list Z) (labels : list Z)
    (st : list (gset Z) * list (Z * nat)) :
  NoDup labels →
  (∀ c, c ∈ labels → c ∉ dict_keys st.2) →
  (∀ c, c ∈ labels → ∃ s, s ∈ st.1 ∧ c ∈ s) →
  (∀ s l, s ∈ st.1 → l ∈ s → l ∈ K) →
  records_nested st →
  records_nested (foldl record_label st labels)
  ∧ dict_keys (foldl record_label st labels).2 = dict_keys st.2 ++ labels
  ∧ (∀ s l, s ∈ (foldl record_label st labels).1 → l ∈ s → l ∈ K).
Proof.
  revert st. induction labels as [|c labels IH];
    intros st Hnodup Hfresh Hheld HK Hst.
  - simpl. by rewrite app_nil_r.
  - apply NoDup_cons in Hnodup as [Hc Hnodup]. cbn [foldl].
    pose proof (record_label_nested st c (Hfresh c ltac:(left)) Hst) as Hst'.
    destruct (record_label_cases st c (Hfresh c ltac:(left)))
      as [[Hnone _]|(pre & s0 & post & Hstore & Hpre & Hs0 & Heq)].
    { destruct (Hheld c) as (s & Hs & Hl); [left|]. by destruct (Hnone s). }
    rewrite Heq in *. destruct st as [store ed]. simpl in *. subst store.
    destruct (IH (pre ++ absorb c s0 post :: post, ed ++ [(c, length pre)]))
      as (Hfinal & Hkeys & HK'); simpl; try done.
    + intros c' Hc'. unfold dict_keys. rewrite fmap_app, not_elem_of_app. split.
      * apply Hfresh. by right.
      * simpl. intros ->%list_elem_of_singleton. done.
    + intros c' Hc'. destruct (Hheld c') as (s & Hs & Hl); [by right|].
      apply elem_of_app in Hs as [Hs|[->|Hs]%elem_of_cons].
      * exists s. split; [|done]. apply elem_of_app. by left.
      * exists (absorb c s0 post). split; [apply elem_of_app; right; left|].
        apply absorb_spec. by left.
      * exists s. split; [|done]. apply elem_of_app. right. by right.
    + intros s l [Hs|[->|Hs]%elem_of_cons]%elem_of_app Hl.
      * apply (HK s); [|done]. apply elem_of_app. by left.
      * apply absorb_spec in Hl as [Hl|(s' & Hs' & _ & Hl)].
        -- apply (HK s0); [|done]. apply elem_of_app. right. left.
        -- apply (HK s'); [|done]. apply elem_of_app. right. by right.
      * apply (HK s); [|done]. apply elem_of_app. right. by right.
    + split; [done|]. split; [|done]. rewrite Hkeys. unfold dict_keys.
      cbn [snd]. rewrite fmap_app, <- app_assoc. done.
Qed.

(** ** The second and the last loop of [update_label] *)

Lemma reduce_entries_get (store : list (gset Z)) (positions : list (Z * nat))
    (acc : list (Z * Z)) :
  (∀ k i, (k, i) ∈ positions → ∃ s, store !! i = Some s ∧ k ∈ s) →
  NoDup (dict_keys positions) →
  ∃ equivalence_dict,
    for_each (reduce_entry store) positions acc = Ok equivalence_dict
    ∧ (∀ k f, (k, f) ∈ positions →
         ∃ s m, store !! f = Some s ∧ set_min s = Some m
                ∧ dict_get equivalence_dict k = Some m)
    ∧ (∀ k, k ∉ dict_keys positions →
            dict_get equivalence_dict k = dict_get acc k).
Proof.
  revert acc. induction positions as [|[k i] positions IH]; intros acc Hbound Hnodup.
  - exists acc. split; [done|]. split; [by intros ? ? ?%elem_of_nil|done].
  - rewrite for_each_cons. unfold reduce_entry at 1. simpl.
    destruct (Hbound k i) as (s & Hs & Hk); [left|]. rewrite Hs. simpl.
    destruct (set_min_is_Some s k Hk) as [m Hm]. rewrite Hm.
    simpl in Hnodup. apply NoDup_cons in Hnodup as [Hfresh Hnodup].
    destruct (IH (dict_set acc k m)) as (eqd & -> & Hget & Hother); [|done|].
    { intros k' i' Hin. apply Hbound. by right. }
    exists eqd. split; [done|]. split.
    + intros k' f [[= -> ->]|Hin]%elem_of_cons; [|by apply Hget].
      exists s, m. split; [done|]. split; [done|].
      rewrite Hother by done. apply dict_get_set_eq.
    + intros k' Hk'. simpl in Hk'. apply not_elem_of_cons in Hk' as [Hne Hk'].
      rewrite Hother by done. by apply dict_get_set_ne.
Qed.

Lemma merge_entry_keys (d : list (Z * list (Z * Z))) (r k : Z)
    (target pixels : list (Z * Z)) :
  r ≠ k → dict_get d r = Some target → dict_get d k = Some pixels →
  NoDup (dict_keys d) →
  ∀ x, x ∈ dict_keys (dict_del (dict_set d r (target ++ pixels)) k)
       ↔ x ∈ dict_keys d ∧ x ≠ k.
Proof.
  intros Hne Hr Hk Hnodup x.
  assert (dict_get (dict_set d r (target ++ pixels)) k = Some pixels) as Hk'
    by (by rewrite dict_get_set_ne).
  assert (dict_keys (dict_set d r (target ++ pixels)) = dict_keys d) as Hkeys.
  { rewrite dict_keys_set, decide_True; [done|]. by eapply dict_get_Some_key. }
  apply dict_keys_del in Hk' as (e1 & e2 & Hsplit & ->).
  rewrite <- Hkeys, Hsplit in Hnodup |- *. unfold dict_keys in *.
  rewrite !fmap_app in *. rewrite fmap_cons in *. cbn [fst] in *.
  apply NoDup_app in Hnodup as (H1 & Hdisj & [Hk2 H2]%NoDup_cons).
  rewrite !elem_of_app, elem_of_cons. split.
  - intros [Hx|Hx]; (split; [tauto|]); intros ->; [|done].
    apply (Hdisj k Hx). left.
  - intros [[?|[?|?]] ?]; [by left|done|by right].
Qed.

(** The last loop raises nothing when every label is bound, every bound
    value is a label of the dictionary, and a value bound to a later label is
    bound to itself. *)
Lemma merge_labels_return (equivalence_dict : list (Z * Z)) (keys : list Z) :
  NoDup keys →
  (∀ k, k ∈ keys → is_Some (dict_get equivalence_dict k)) →
  (∀ l1 k l2 r, keys = l1 ++ k :: l2 → dict_get equivalence_dict k = Some r →
     r ≠ k → r ∈ keys ∧ (r ∈ l1 → dict_get equivalence_dict r = Some r)) →
  ∀ rest processed d,
    keys = processed ++ rest →
    NoDup (dict_keys d) →
    (∀ x, x ∈ dict_keys d
          ↔ (x ∈ processed ∧ dict_get equivalence_dict x = Some x) ∨ x ∈ rest) →
    ∃ ld', for_each (merge_label equivalence_dict) rest d = Ok ld'.
Proof.
  intros Hnodup Hbound Hidem. induction rest as [|k rest IH];
    intros processed d Hkeys Hd Hmem.
  - by exists d.
  - rewrite for_each_cons.
    destruct (Hbound k) as [r Hr].
    { rewrite Hkeys. apply elem_of_app. right. left. }
    assert ((k ∉ processed) ∧ (k ∉ rest)) as [Hkp Hkr].
    { rewrite Hkeys in Hnodup.
      apply NoDup_app in Hnodup as (_ & Hdisj & [? _]%NoDup_cons).
      split; [|done]. intros Hin. apply (Hdisj k Hin). left. }
    assert (keys = (processed ++ [k]) ++ rest) as Hkeys'
      by (by rewrite <- app_assoc).
    unfold merge_label. rewrite Hr. case_decide as Hrk.
    + subst r. apply (IH (processed ++ [k]) d Hkeys' Hd).
      intros x. rewrite Hmem, elem_of_app, elem_of_cons, list_elem_of_singleton.
      split.
      * intros [[? ?]|[->|?]]; [left; split; [by left|done]| |by right].
        left. split; [by right|done].
      * intros [[[?| ->] ?]|?]; [left; by split|right; by left|right; by right].
    + destruct (Hidem processed k rest r Hkeys Hr Hrk) as [Hin Hself].
      assert (r ∈ dict_keys d) as Hrd.
      { apply Hmem. rewrite Hkeys in Hin.
        apply elem_of_app in Hin as [Hin|[->|Hin]%elem_of_cons];
          [left; split; [done|by apply Hself]|done|right; by right]. }
      assert (k ∈ dict_keys d) as Hkd by (apply Hmem; right; left).
      apply dict_get_is_Some in Hrd as [target Htarget].
      apply dict_get_is_Some in Hkd as [pixels Hpixels].
      rewrite Htarget, Hpixels.
      apply (IH (processed ++ [k]) _ Hkeys').
      * by apply merge_entry_keeps.
      * intros x. rewrite (merge_entry_keys d r k target pixels) by done.
        rewrite Hmem, elem_of_app, elem_of_cons, list_elem_of_singleton. split.
        -- intros [[[? ?]|[?|?]] ?]; [left; split; [by left|done]|done|by right].
        -- intros [[[?| ->] Hx]|?].
           ++ split; [left; by split|]. by intros ->.
           ++ rewrite Hr in Hx. by injection Hx as ->.
           ++ split; [right; by right|]. by intros ->.
Qed.

Lemma records_nested_init (el : list (gset Z)) : records_nested (el, []).
Proof.
  split; [constructor|]. split; [by intros ? ? ?%elem_of_nil|].
  split; [by intros ? ? ? ? ? ?%elem_of_nil|].
  intros e1 a fa e2 b fb e3 sb Heq. simpl in Heq. by destruct e1.
Qed.

Lemma fmap_fst_split {B : Type} (l : list (Z * B)) (l1 l2 : list Z) (k : Z) :
  l.*1 = l1 ++ k :: l2 →
  ∃ p1 v p2, l = p1 ++ (k, v) :: p2 ∧ p1.*1 = l1 ∧ p2.*1 = l2.
Proof.
  intros (p1 & p' & Hp1 & Hp' & ->)%fmap_app_inv. symmetry in Hp'.
  apply fmap_cons_inv in Hp' as ([k' v] & p2 & Hk & Hp2 & ->).
  simpl in Hk. subst k'. by exists p1, v, p2.
Qed.

(** [update_label] returns when every label of the dictionary is in some
    record and the records hold labels of the dictionary only. *)
Lemma update_label_returns (ld : list (Z * list (Z * Z))) (el : list (gset Z)) :
  NoDup (dict_keys ld) →
  (∀ s l, s ∈ el → l ∈ s → l ∈ dict_keys ld) →
  (∀ k, k ∈ dict_keys ld → ∃ s, s ∈ el ∧ k ∈ s) →
  ∃ ld', update_label ld el = Ok ld'.
Proof.
  intros Hnodup Hlabels Hheld. unfold update_label.
  destruct (record_labels_all_bound (dict_keys ld) (dict_keys ld) (el, []))
    as ((Hpos & Hbound & Hnest & Horder) & Hkeys & HK); simpl; try done.
  { by intros c _ ?%elem_of_nil. }
  { apply records_nested_init. }
  destruct (foldl record_label (el, []) (dict_keys ld)) as [store positions].
  simpl in *.
  destruct (reduce_entries_get store positions [] Hbound Hpos)
    as (equivalence_dict & -> & Hget & _).
  simpl. apply (merge_labels_return equivalence_dict (dict_keys ld) Hnodup)
    with (processed := []); try done.
  - intros k Hk. rewrite <- Hkeys in Hk.
    apply list_elem_of_fmap in Hk as ([k' f] & -> & Hin).
    destruct (Hget k' f Hin) as (s & m & _ & _ & Heq). simpl. rewrite Heq.
    by eexists.
  - intros l1 k l2 r Hsplit Hr Hrk. rewrite <- Hkeys in Hsplit.
    apply fmap_fst_split in Hsplit as (p1 & fk & p2 & Hpositions & Hp1 & _).
    assert ((k, fk) ∈ positions) as Hk
      by (rewrite Hpositions; apply elem_of_app; right; left).
    destruct (Hget k fk Hk) as (sk & m & Hsk & Hmin & Hr'). rewrite Hr in Hr'.
    injection Hr' as <-. pose proof (set_min_elem _ _ Hmin) as Hrsk.
    split; [by eapply HK, Hrsk; eapply list_elem_of_lookup_2|].
    intros Hrl1. rewrite <- Hp1 in Hrl1.
    apply list_elem_of_fmap in Hrl1 as ([r' fr] & Heq & Hin). simpl in Heq. subst r'.
    apply list_elem_of_split in Hin as (q1 & q2 & ->).
    rewrite <- app_assoc, <- app_comm_cons in Hpositions.
    assert ((r, fr) ∈ positions) as Hrpos
      by (rewrite Hpositions; apply elem_of_app; right; left).
    destruct (Hget r fr Hrpos) as (sr & m & Hsr & Hmin_r & ->). f_equal.
    destruct (Hbound r fr Hrpos) as (sr' & Hsr' & Hrsr).
    rewrite Hsr in Hsr'. injection Hsr' as <-.
    pose proof (Horder q1 r fr q2 k fk p2 sk Hpositions Hsk Hrsk) as Hle.
    pose proof (set_min_least _ _ r Hmin_r Hrsr) as Hmr.
    assert (m ∈ sk) as Hmsk.
    { destruct (decide (fk = fr)) as [->|Hne].
      - rewrite Hsk in Hsr. injection Hsr as ->. by apply set_min_elem.
      - destruct (Hnest r fr sr fk sk Hrpos Hsr Hsk Hrsk) as [_ Hsub].
        apply Hsub; [lia|]. by apply set_min_elem. }
    pose proof (set_min_least _ _ m Hmin Hmsk). lia.
  - intros x. split; [by right|]. by intros [[?%elem_of_nil _]|?].
Qed.

(** [update_label] returns exactly when every label of the dictionary is in
    some record, for a dictionary without a label twice and records that
    hold labels of the dictionary only: the lookup of a label merged away
    before never happens. *)
Theorem update_label_returns_iff (ld : list (Z * list (Z * Z))) (el : list (gset Z)) :
  NoDup (dict_keys ld) →
  (∀ s l, s ∈ el → l ∈ s → l ∈ dict_keys ld) →
  (∃ ld', update_label ld el = Ok ld')
  ↔ ∀ k, k ∈ dict_keys ld → ∃ s, s ∈ el ∧ k ∈ s.
Proof.
  intros Hnodup Hlabels. split; [|by apply update_label_returns].
  intros [ld' Hok] k Hk.
  destruct (decide (Exists (fun s => k ∈ s) el)) as [Hex|Hnone].
  - apply Exists_exists in Hex as (s & ? & ?). by exists s.
  - exfalso. destruct (update_label_unrecorded ld el k Hk) as [key Hraise].
    + intros s Hs Hin. apply Hnone, Exists_exists. by exists s.
    + by rewrite Hok in Hraise.
Qed.

Lemma update_label_returns_iff_witness :
  (∃ ld', update_label [(1, [(0, 0); (1, 0)])] [{[1]}] = Ok ld')
  ↔ ∀ k, k ∈ dict_keys [(1, [(0, 0); (1, 0)])] → ∃ s, s ∈ [({[1]} : gset Z)] ∧ k ∈ s.
Proof.
  apply (update_label_returns_iff [(1, [(0, 0); (1, 0)])] [{[1]}]).
  - apply NoDup_singleton.
  - intros s l ->%list_elem_of_singleton ->%elem_of_singleton. left.
Defined.

(** ** Pass 1 on an image without a lonely pixel *)

Section no_lonely_pixel.
Context {pixel : Type} `{EqDecision pixel}.
Context (image : Image pixel) (background_color : pixel).

Lemma label_pixel_recorded (seen : list (Z * Z))
    (st : list (Z * list (Z * Z)) * list (gset Z)) (q : Z * Z) :
  pass1_inv image background_color seen st →
  recorded_or_alone image background_color seen st →
  recorded_or_alone image background_color (seen ++ [q])
    (label_pixel image background_color st q).
Proof.
  destruct st as [ld el]. intros (_ & Hpos & Hperm & _) Hinv. simpl in *.
  unfold label_pixel. case_decide as Hbg.
  - intros L ps Hin. destruct (Hinv L ps Hin) as [?|(p & -> & Halone)]; [by left|].
    right. exists p. split; [done|].
    intros x [?| ->%list_elem_of_singleton]%elem_of_app Hfg; [auto|].
    by destruct Hfg as [_ []].
  - simpl. destruct (find_label_spec q ld el Hpos) as (L & el' & -> & _ & Hcase).
    simpl.
    assert (∀ x, x ∈ seen → foreground image background_color x →
                 ∃ l, labelled ld x l) as Hold.
    { intros x Hx [_ Hfx]. apply labelled_all_pixels. rewrite Hperm.
      by apply list_elem_of_filter. }
    assert (∀ L' p ps, (L', ps) ∈ ld → p ∈ ps → adjacent p q →
                       L' ∈ check_neighborhood q ld) as Hnear.
    { intros L' p ps Hin Hp Hadj. apply check_neighborhood_labelled.
      exists p. split; [by exists ps|by apply adjacent_sym]. }
    assert (∀ L' ps, (L', ps) ∈ ld →
              (∃ s, s ∈ el ∧ L' ∈ s) ∨ L' ∈ check_neighborhood q ld
              ∨ ∃ p, ps = [p]
                     ∧ ∀ x, x ∈ seen ++ [q] →
                            foreground image background_color x → ¬ adjacent p x)
      as Hold_entry.
    { intros L' ps Hin. destruct (Hinv L' ps Hin) as [?|(p & -> & Halone)]; [by left|].
      destruct (decide (L' ∈ check_neighborhood q ld)) as [?|Hout]; [right; by left|].
      right. right. exists p. split; [done|].
      intros x [?| ->%list_elem_of_singleton]%elem_of_app Hfg; [auto|].
      intros Hadj. apply Hout. apply (Hnear L' p [p]); [done|left|done]. }
    destruct Hcase as [[HL ->]|(Hfresh & _ & -> & Hempty)].
    + intros L' ps Hin.
      destruct (add_pixel_cases ld L q) as [(d1 & d2 & ps0 & _ & Hld & Hadd)|[Hout _]].
      2:{ destruct Hout. by eapply check_neighborhood_keys. }
      rewrite Hadd in Hin.
      assert ((L', ps) ∈ ld ∨ L' = L) as [Hin'| ->].
      { apply elem_of_app in Hin as [?|[[= -> ->]|?]%elem_of_cons]; [left|by right|left];
          rewrite Hld; apply elem_of_app; [by left|right; by right]. }
      * destruct (Hold_entry L' ps Hin') as [(s & Hs & ?)|[?|?]].
        -- left. exists s. split; [apply elem_of_app; by left|done].
        -- left. exists (check_neighborhood q ld).
           split; [apply elem_of_app; right; left|done].
        -- by right.
      * left. exists (check_neighborhood q ld).
        split; [apply elem_of_app; right; left|done].
    + intros L' ps Hin.
      destruct (add_pixel_cases ld L q) as [(d1 & d2 & ps0 & _ & Hld & _)|[_ Hadd]].
      { destruct Hfresh. rewrite Hld. unfold dict_keys. rewrite fmap_app.
        apply elem_of_app. right. left. }
      rewrite Hadd in Hin.
      apply elem_of_app in Hin as [Hin|[= -> ->]%list_elem_of_singleton].
      * destruct (Hold_entry L' ps Hin) as [?|[Hnb|?]]; [by left| |by right].
        rewrite Hempty in Hnb. by apply elem_of_empty in Hnb.
      * right. exists q. split; [done|].
        intros x [Hx| ->%list_elem_of_singleton]%elem_of_app Hfg Hadj.
        -- destruct (Hold x Hx Hfg) as (l & psl & Hl & Hxl).
           assert (l ∈ check_neighborhood q ld) as Hnb.
           { apply (Hnear l x psl); [done..|]. by apply adjacent_sym. }
           rewrite Hempty in Hnb. by apply elem_of_empty in Hnb.
        -- by destruct Hadj as [[] _].
Qed.

Lemma first_pass_recorded :
  recorded_or_alone image background_color (scan_order image)
    (first_pass image background_color).
Proof.
  unfold first_pass.
  assert (∀ l seen st,
    pass1_inv image background_color seen st →
    recorded_or_alone image background_color seen st →
    recorded_or_alone image background_color (seen ++ l)
      (foldl (label_pixel image background_color) st l)) as Hfold.
  { induction l as [|c l IH]; intros seen st Hinv Hrec; simpl.
    - by rewrite app_nil_r.
    - replace (seen ++ c :: l) with ((seen ++ [c]) ++ l) by (by rewrite <- app_assoc).
      apply IH; [by apply pass1_inv_step|by apply label_pixel_recorded]. }
  apply (Hfold _ [] ([], [])); [apply pass1_inv_nil|].
  by intros L ps ?%elem_of_nil.
Qed.

Lemma first_pass_all_recorded :
  (∀ p, ¬ isolated image background_color p) →
  ∀ k, k ∈ dict_keys (first_pass image background_color).1 →
       ∃ s, s ∈ (first_pass image background_color).2 ∧ k ∈ s.
Proof.
  intros Hnone k ([k' ps] & -> & Hin)%list_elem_of_fmap. simpl.
  destruct (first_pass_recorded k' ps Hin) as [?|(p & -> & Halone)]; [done|].
  exfalso. apply (Hnone p).
  pose proof (first_pass_inv image background_color) as (_ & _ & Hperm & _).
  assert (p ∈ all_pixels (first_pass image background_color).1) as Hp.
  { apply elem_of_all_pixels. exists k', [p]. split; [done|left]. }
  rewrite Hperm in Hp. apply list_elem_of_filter in Hp as [Hfg Hp%elem_of_scan_order].
  split; [done|]. split; [done|]. intros d Hd Hin_d.
  destruct (decide (getpixel image (shift p d) = background_color)) as [|Hfg_d];
    [done|].
  destruct (Halone (shift p d)); [by apply elem_of_scan_order|done|].
  apply adjacent_directions. by exists d.
Qed.

(** With an explicit background, [find_sprites] returns if and only if no
    foreground pixel is alone, that is, without a foreground pixel among its
    eight neighbours; otherwise it raises [KeyError]. *)
Theorem find_sprites_returns_iff :
  (∃ sprites label_map,
     find_sprites image (Some background_color) = Ok (sprites, label_map))
  ↔ ∀ p, ¬ isolated image background_color p.
Proof.
  split.
  - intros (sprites & label_map & Hok) p Hp.
    destruct (first_pass_isolated image background_color p Hp) as (L & Hget & Hrec).
    unfold find_sprites, create_labelled_dict in Hok. simpl in Hok.
    destruct (first_pass image background_color) as [ld el]. simpl in *.
    destruct (update_label_unrecorded ld el L) as [key Hraise];
      [by eapply dict_get_Some_key|done|].
    by rewrite Hraise in Hok.
  - intros Hnone.
    pose proof (first_pass_all_recorded Hnone) as Hall.
    pose proof (first_pass_inv image background_color) as (Hnodup & _ & _ & Hrec).
    unfold find_sprites. simpl.
    destruct (create_labelled_dict image background_color) as [ld|e] eqn:Hld.
    + simpl.
      destruct (build_sprites_spec ld [] (create_labelled_dict_entries _ _ _ Hld))
        as (sprites & -> & _).
      simpl. by eexists _, _.
    + exfalso. unfold create_labelled_dict in Hld.
      destruct (first_pass image background_color) as [ld0 el0]. simpl in *.
      destruct (update_label_returns ld0 el0 Hnodup) as [ld' Hok]; [done..|].
      by rewrite Hok in Hld.
Qed.
End no_lonely_pixel.
